(** * Wallet-monitoring service: shallow embedding and verified properties

    The Python sources embedded here are [src/rate_limiter.py],
    [src/api_auth.py], [src/billing.py], [src/profit_estimator.py],
    [src/api_service.py], the alert engine, the RPC manager and the
    watchlist of [src/wallet_monitor.py], and the position accounting of
    [src/copy_trader.py].

    Conventions of the embedding.
    - Python [float] and [int] values that carry amounts or instants are
      exact rationals ([Q]); counters are integers ([Z]).  Rounding of
      IEEE doubles is outside the model.
    - A [dict] keyed by strings is a [gmap string _]; an [OrderedDict]
      or a list whose order matters is a [list].
    - Reading the clock ([time.time()]) is an explicit argument [now];
      the time zone of the host is carried by the rate limiter.
    - A Python exception is the [None] result of an [option]-valued
      function, or a constructor of the result type. *)

From Stdlib Require Import ZArith QArith Qround Qabs List Bool Lia Lqa.
From Stdlib Require Import String Ascii DecimalString.
From stdpp Require Import base option list strings gmap.

Import ListNotations.
Local Open Scope string_scope.
Local Open Scope list_scope.
Local Open Scope Z_scope.

(** ** Rational helpers standing for Python float comparisons *)

Definition Qltb (a b : Q) : bool := negb (Qle_bool b a).
Definition Qleb (a b : Q) : bool := Qle_bool a b.
Definition Qmax (a b : Q) : Q := if Qleb a b then b else a.
Definition Qmin (a b : Q) : Q := if Qleb a b then a else b.

(** Python truth value of an optional string: [None] and the empty
    string are false. *)
Definition truthy_str (s : option string) : option string :=
  match s with
  | Some EmptyString => None
  | other => other
  end.

(** ** [hashlib.sha256]

    [ApiAuth.hash_key] is [hashlib.sha256(api_key.encode()).hexdigest()];
    the digest is computed here on 32-bit words held in [Z] with the
    wrap-around written out (FIPS 180-4). *)

Module hashlib.

Definition w32 (x : Z) : Z := x mod 2 ^ 32.

Definition rotr (n x : Z) : Z := Z.lor (Z.shiftr x n) (w32 (Z.shiftl x (32 - n))).

Definition ch (x y z : Z) : Z := Z.lxor (Z.land x y) (Z.land (w32 (Z.lnot x)) z).
Definition maj (x y z : Z) : Z :=
  Z.lxor (Z.lxor (Z.land x y) (Z.land x z)) (Z.land y z).
Definition bsig0 (x : Z) : Z := Z.lxor (Z.lxor (rotr 2 x) (rotr 13 x)) (rotr 22 x).
Definition bsig1 (x : Z) : Z := Z.lxor (Z.lxor (rotr 6 x) (rotr 11 x)) (rotr 25 x).
Definition ssig0 (x : Z) : Z := Z.lxor (Z.lxor (rotr 7 x) (rotr 18 x)) (Z.shiftr x 3).
Definition ssig1 (x : Z) : Z := Z.lxor (Z.lxor (rotr 17 x) (rotr 19 x)) (Z.shiftr x 10).

Definition K256 : list Z :=
  [
    1116352408; 1899447441; 3049323471; 3921009573; 961987163; 1508970993;
    2453635748; 2870763221; 3624381080; 310598401; 607225278; 1426881987;
    1925078388; 2162078206; 2614888103; 3248222580; 3835390401; 4022224774;
    264347078; 604807628; 770255983; 1249150122; 1555081692; 1996064986;
    2554220882; 2821834349; 2952996808; 3210313671; 3336571891; 3584528711;
    113926993; 338241895; 666307205; 773529912; 1294757372; 1396182291;
    1695183700; 1986661051; 2177026350; 2456956037; 2730485921; 2820302411;
    3259730800; 3345764771; 3516065817; 3600352804; 4094571909; 275423344;
    430227734; 506948616; 659060556; 883997877; 958139571; 1322822218;
    1537002063; 1747873779; 1955562222; 2024104815; 2227730452; 2361852424;
    2428436474; 2756734187; 3204031479; 3329325298 ].

(** Big-endian bytes of [x], [n] of them. *)
Fixpoint be_bytes (n : nat) (x : Z) : list Z :=
  match n with
  | O => []
  | S n' => (Z.shiftr x (8 * Z.of_nat n')) mod 256 :: be_bytes n' x
  end.

(** Message padding: a 1 bit, zeros, and the bit length on 64 bits. *)
Definition pad (msg : list Z) : list Z :=
  let len := Z.of_nat (length msg) in
  let zeros := Z.to_nat ((55 - len) mod 64) in
  msg ++ [128] ++ repeat 0 zeros ++ be_bytes 8 (8 * len).

Fixpoint words_of_bytes (fuel : nat) (bs : list Z) : list Z :=
  match fuel, bs with
  | S fuel', b0 :: b1 :: b2 :: b3 :: rest =>
      (((b0 * 256 + b1) * 256 + b2) * 256 + b3) :: words_of_bytes fuel' rest
  | _, _ => []
  end.

(** Message schedule, latest word first: [rev_w] holds [w_(t-1) .. w_0]. *)
Fixpoint extend_schedule (n : nat) (rev_w : list Z) : list Z :=
  match n with
  | O => rev_w
  | S n' =>
      let w := w32 (ssig1 (nth 1 rev_w 0) + nth 6 rev_w 0
                    + ssig0 (nth 14 rev_w 0) + nth 15 rev_w 0) in
      extend_schedule n' (w :: rev_w)
  end.

Definition schedule (block : list Z) : list Z :=
  rev (extend_schedule 48 (rev block)).

Record regs := { ra : Z; rb : Z; rc : Z; rd : Z; re : Z; rf : Z; rg : Z; rh : Z }.

Definition round (s : regs) (kw : Z * Z) : regs :=
  let t1 := w32 (rh s + bsig1 (re s) + ch (re s) (rf s) (rg s) + fst kw + snd kw) in
  let t2 := w32 (bsig0 (ra s) + maj (ra s) (rb s) (rc s)) in
  {| ra := w32 (t1 + t2); rb := ra s; rc := rb s; rd := rc s;
     re := w32 (rd s + t1); rf := re s; rg := rf s; rh := rg s |}.

Definition compress (h : regs) (block : list Z) : regs :=
  let s := fold_left round (combine K256 (schedule block)) h in
  {| ra := w32 (ra h + ra s); rb := w32 (rb h + rb s);
     rc := w32 (rc h + rc s); rd := w32 (rd h + rd s);
     re := w32 (re h + re s); rf := w32 (rf h + rf s);
     rg := w32 (rg h + rg s); rh := w32 (rh h + rh s) |}.

Fixpoint blocks (fuel : nat) (ws : list Z) : list (list Z) :=
  match fuel, ws with
  | S fuel', _ :: _ => firstn 16 ws :: blocks fuel' (skipn 16 ws)
  | _, _ => []
  end.

Definition hex_digit (d : Z) : ascii :=
  ascii_of_nat (Z.to_nat (if d <? 10 then 48 + d else 87 + d)).

Fixpoint hex_of_word (n : nat) (x : Z) : string :=
  match n with
  | O => EmptyString
  | S n' => String (hex_digit ((Z.shiftr x (4 * Z.of_nat n')) mod 16)) (hex_of_word n' x)
  end.

Definition bytes_of_string (s : string) : list Z :=
  map (fun c => Z.of_nat (nat_of_ascii c)) (list_ascii_of_string s).

(** [hashlib.sha256(s.encode()).hexdigest()] *)
Definition sha256_hexdigest (s : string) : string :=
  let bs := pad (bytes_of_string s) in
  let ws := words_of_bytes (length bs) bs in
  let h0 := {| ra := 1779033703; rb := 3144134277; rc := 1013904242; rd := 2773480762;
               re := 1359893119; rf := 2600822924; rg := 528734635; rh := 1541459225 |} in
  let h := fold_left compress (blocks (length ws) ws) h0 in
  String.concat ""
    (map (hex_of_word 8) [ra h; rb h; rc h; rd h; re h; rf h; rg h; rh h]).

End hashlib.

(** ** [src/rate_limiter.py] *)

Module rate_limiter.

(** [CONFIG.api.rate_limit_*] as read by [RateLimiter.__init__]. *)
Record ApiConfig := {
  rate_limit_free : Z;
  rate_limit_pro : Z;
  rate_limit_elite : Z
}.

(** The object state: [self.limits] and [self._counters].  The third
    component is not an attribute of the Python object: it is the time
    zone of the host process, which [datetime.timestamp()] consults in
    [_get_reset_time].  [utcoffset d] is the number of seconds by which
    the host's local time is ahead of UTC at the local wall-clock
    midnight of the date whose UTC day index is [d]; it is 0 on a host
    that runs in UTC, 3600 in Paris in winter, -18000 in New York in
    winter. *)
Record RateLimiter := {
  limits : ApiConfig;
  _counters : gmap string (Z * Q);
  utcoffset : Z -> Q
}.

(** The zone of a host that runs in UTC. *)
Definition utc_host : Z -> Q := fun _ => 0%Q.

Definition __init__ (cfg : ApiConfig) (zone : Z -> Q) : RateLimiter :=
  {| limits := cfg; _counters := ∅; utcoffset := zone |}.

(** [self.limits.get(tier, self.limits["free"])] *)
Definition limits_get (cfg : ApiConfig) (tier : string) : Z :=
  if String.eqb tier "free" then rate_limit_free cfg
  else if String.eqb tier "pro" then rate_limit_pro cfg
  else if String.eqb tier "elite" then rate_limit_elite cfg
  else rate_limit_free cfg.

(** Index of the UTC day that contains the instant [now]. *)
Definition utc_day (now : Q) : Z := Qfloor (now / 86400).

(** The instant that [timestamp()] gives for the naive datetime
    "midnight of UTC day [d]": a naive datetime is read as local time,
    so the result is the UTC midnight moved back by the host's offset. *)
Definition day_reset (zone : Z -> Q) (d : Z) : Q :=
  (inject_Z (86400 * d) - zone d)%Q.

(** [_get_reset_time]: [utcnow()] cut to midnight and converted with
    [timestamp()]; the two clock reads of one call of [check_limit] are
    one [now]. *)
Definition _get_reset_time (self : RateLimiter) (now : Q) : Q :=
  day_reset (utcoffset self) (utc_day now).

(** [self._counters[api_key_hash]] on a [defaultdict]: a missing key
    is created with [(0, time.time())]. *)
Definition counters_getitem (now : Q) (h : string) (c : gmap string (Z * Q))
  : Z * Q :=
  match c !! h with
  | Some e => e
  | None => (0, now)
  end.

(** [check_limit]: returns [(allowed, remaining, limit)] and the updated
    object. *)
Definition check_limit (self : RateLimiter) (now : Q)
    (api_key_hash tier : string) : (bool * Z * Z) * RateLimiter :=
  let limit := limits_get (limits self) tier in
  let reset_time := _get_reset_time self now in
  let '(count, last_reset) := counters_getitem now api_key_hash (_counters self) in
  let '(count, last_reset) :=
    if Qltb last_reset reset_time then (0, reset_time) else (count, last_reset) in
  let remaining := Z.max 0 (limit - count) in
  let allowed := count <? limit in
  let count := if allowed then count + 1 else count in
  ((allowed, remaining, limit),
   {| limits := limits self;
      _counters := <[api_key_hash := (count, last_reset)]> (_counters self);
      utcoffset := utcoffset self |}).

(** The count that [check_limit] compares with the limit: the stored
    count, or 0 when the key is new or its counter is rolled. *)
Definition current_count (self : RateLimiter) (now : Q) (h : string) : Z :=
  match _counters self !! h with
  | Some (count, last_reset) =>
      if Qltb last_reset (_get_reset_time self now) then 0 else count
  | None => 0
  end.

(** The reset instant that [check_limit] stores: the stored one (the
    clock reading for a new key), or the reset time when that one
    precedes it. *)
Definition current_reset (self : RateLimiter) (now : Q) (h : string) : Q :=
  let last_reset :=
    match _counters self !! h with
    | Some (count, last_reset) => last_reset
    | None => now
    end in
  if Qltb last_reset (_get_reset_time self now) then _get_reset_time self now
  else last_reset.

(** One request as seen by the limiter. *)
Record call := { c_now : Q; c_hash : string; c_tier : string }.

(** A sequence of [check_limit] calls on one limiter object; the result
    lists, for every call, whether it was let through. *)
Fixpoint run (self : RateLimiter) (calls : list call) : list bool * RateLimiter :=
  match calls with
  | [] => ([], self)
  | c :: rest =>
      let '((allowed, _, _), self') := check_limit self (c_now c) (c_hash c) (c_tier c) in
      let '(bs, self'') := run self' rest in
      (allowed :: bs, self'')
  end.

(** Number of calls of [calls] made with key hash [h] during UTC day
    [d] that were let through. *)
Fixpoint allowed_count (self : RateLimiter) (calls : list call) (h : string) (d : Z) : nat :=
  match calls with
  | [] => 0%nat
  | c :: rest =>
      let '((allowed, _, _), self') := check_limit self (c_now c) (c_hash c) (c_tier c) in
      ((if allowed && String.eqb (c_hash c) h && (utc_day (c_now c) =? d)%Z
        then 1 else 0) + allowed_count self' rest h d)%nat
  end.

(** The clock never goes back between consecutive calls. *)
Fixpoint clock_chain (prev : Q) (calls : list call) : bool :=
  match calls with
  | [] => true
  | c :: rest => Qleb prev (c_now c) && clock_chain (c_now c) rest
  end.

Definition clock_monotone (calls : list call) : bool :=
  match calls with
  | [] => true
  | c :: rest => clock_chain (c_now c) rest
  end.

(** Every call made with key hash [h] presents the tier [tier]. *)
Definition same_tier (h tier : string) (calls : list call) : bool :=
  forallb (fun c => implb (String.eqb (c_hash c) h) (String.eqb (c_tier c) tier)) calls.

(** Invariant of one key hash [h] (always presenting tier [tr]) with
    respect to UTC day [d] on a host of zone [zone]: [T] is the instant
    of the latest call and [n] the number of calls let through for [h]
    during day [d] so far.  Once a call for [h] was let through during
    day [d], the stored count covers them and the stored reset instant
    is not before the reset time of day [d]. *)
Definition day_invariant (zone : Z -> Q) (cfg : ApiConfig) (h tr : string) (d : Z)
    (cnt : gmap string (Z * Q)) (T : Q) (n : nat) : Prop :=
  let L := Z.max 0 (limits_get cfg tr) in
  Z.of_nat n <= L /\
  match cnt !! h with
  | None => n = 0%nat
  | Some (c, lr) =>
      0 <= c <= L /\
      (utc_day T < d -> n = 0%nat) /\
      (utc_day T = d ->
       n = 0%nat \/ (Z.of_nat n <= c /\ Qltb lr (day_reset zone d) = false))
  end.

End rate_limiter.


(** ** [src/wallet_monitor.py]: [AsyncRpcManager], endpoint rotation and
    circuit breaker

    Logging and the Prometheus error counters touched by
    [record_rpc_error] are left out: they do not feed back into the
    circuit. *)

Module rpc_manager.

(** [CONFIG.rpc]: [RPC_CIRCUIT_BREAKER_FAILURES] and
    [RPC_CIRCUIT_BREAKER_PAUSE_SEC]. *)
Record RpcConfig := {
  RPC_CIRCUIT_BREAKER_FAILURES : Z;
  RPC_CIRCUIT_BREAKER_PAUSE_SEC : Q
}.

(** The three values of [state["state"]]. *)
Inductive circuit := closed | half_open | open.

(** One entry of [self.circuit_state]. *)
Record CircuitState := {
  failures : Z;
  opened_at : Q;
  state : circuit
}.

(** The [defaultdict] factory of [circuit_state]. *)
Definition default_circuit : CircuitState :=
  {| failures := 0; opened_at := 0; state := closed |}.

Record AsyncRpcManager := {
  endpoints : list string;
  index : nat;
  circuit_state : gmap string CircuitState
}.

Definition __init__ (eps : list string) : AsyncRpcManager :=
  {| endpoints := match eps with
                  | [] => ["https://api.mainnet-beta.solana.com"]
                  | _ => eps
                  end;
     index := 0;
     circuit_state := ∅ |}.

(** [self.circuit_state[endpoint]]: the entry, created on first use. *)
Definition circuit_getitem (self : AsyncRpcManager) (endpoint : string) : CircuitState :=
  default default_circuit (circuit_state self !! endpoint).

Definition set_circuit (self : AsyncRpcManager) (endpoint : string) (s : CircuitState)
  : AsyncRpcManager :=
  {| endpoints := endpoints self;
     index := index self;
     circuit_state := <[endpoint := s]> (circuit_state self) |}.

Definition _rotate (self : AsyncRpcManager) : AsyncRpcManager :=
  if (length (endpoints self) <=? 1)%nat then self
  else {| endpoints := endpoints self;
          index := (index self + 1) mod length (endpoints self);
          circuit_state := circuit_state self |}.

Definition _allow_request (cfg : RpcConfig) (self : AsyncRpcManager) (now : Q)
    (endpoint : string) : bool * AsyncRpcManager :=
  let st := circuit_getitem self endpoint in
  match state st with
  | open =>
      if Qleb (RPC_CIRCUIT_BREAKER_PAUSE_SEC cfg) (now - opened_at st)
      then (true, set_circuit self endpoint
                    {| failures := failures st; opened_at := opened_at st;
                       state := half_open |})
      else (false, set_circuit self endpoint st)
  | _ => (true, set_circuit self endpoint st)
  end.

Definition _record_failure (cfg : RpcConfig) (self : AsyncRpcManager) (now : Q)
    (endpoint : string) : AsyncRpcManager :=
  let st := circuit_getitem self endpoint in
  let n := failures st + 1 in
  if RPC_CIRCUIT_BREAKER_FAILURES cfg <=? n
  then _rotate (set_circuit self endpoint
                  {| failures := n; opened_at := now; state := open |})
  else set_circuit self endpoint
         {| failures := n; opened_at := opened_at st; state := state st |}.

Definition _record_success (self : AsyncRpcManager) (endpoint : string)
  : AsyncRpcManager :=
  set_circuit self endpoint {| failures := 0; opened_at := 0; state := closed |}.

(** Failures recorded one after the other at the instants [ts]. *)
Definition record_failures (cfg : RpcConfig) (self : AsyncRpcManager)
    (endpoint : string) (ts : list Q) : AsyncRpcManager :=
  fold_left (fun m t => _record_failure cfg m t endpoint) ts self.

End rpc_manager.


(** ** [src/api_auth.py] and [src/billing.py]

    The sqlite file of [CONFIG.billing.api_keys_db] is a record of its two
    tables, each a list of rows in rowid order; the [subscriptions] table
    has the columns that [BillingService] reads and writes. *)

Module api_auth.

Record api_key_row := {
  id : Z;
  key_hash : string;
  tier : string;
  created_at : Q;
  expires_at : option Q;
  is_active : Z
}.

Record subscription_row := {
  sub_id : Z;
  api_key_id : string;
  stripe_customer_id : option string;
  stripe_subscription_id : option string;
  sub_tier : string;
  status : string;
  sub_created_at : Q;
  updated_at : Q
}.

Record database := {
  api_keys : list api_key_row;
  subscriptions : list subscription_row
}.

Definition empty_db : database := {| api_keys := []; subscriptions := [] |}.

(** [hash_key] *)
Definition hash_key (api_key : string) : string := hashlib.sha256_hexdigest api_key.

(** [create_key]; the token drawn by [generate_key] is the argument
    [api_key].  The UNIQUE constraint on [key_hash] makes the INSERT
    raise on a hash already stored. *)
Definition create_key (db : database) (now : Q) (api_key : string) (tier : string)
    (expires_at : option Q) : option ((string * string) * database) :=
  let key_hash := hash_key api_key in
  if existsb (fun r => String.eqb (api_auth.key_hash r) key_hash) (api_keys db)
  then None
  else
    let row := {| id := Z.of_nat (length (api_keys db)) + 1; key_hash := key_hash;
                  tier := tier; created_at := now; expires_at := expires_at;
                  is_active := 1 |} in
    Some ((api_key, key_hash),
          {| api_keys := api_keys db ++ [row]; subscriptions := subscriptions db |}).

(** Python truth value of the [expires_at] column. *)
Definition truthy_time (e : option Q) : option Q :=
  match e with
  | Some t => if Qeq_bool t 0 then None else Some t
  | None => None
  end.

(** [validate_key]: [(tier, is_active)] or [None]. *)
Definition validate_key (db : database) (now : Q) (api_key : string)
    : option (string * bool) :=
  let key_hash := hash_key api_key in
  match find (fun r => String.eqb (api_auth.key_hash r) key_hash) (api_keys db) with
  | None => None
  | Some row =>
      let expired :=
        match truthy_time (expires_at row) with
        | Some e => Qltb e now
        | None => false
        end in
      if expired then None
      else if is_active row =? 0 then None
      else Some (tier row, negb (is_active row =? 0))
  end.

(** [deactivate_key]: the argument is hashed, the rows with that hash
    get [is_active = 0]; returns [rowcount > 0]. *)
Definition deactivate_key (db : database) (api_key : string) : bool * database :=
  let key_hash := hash_key api_key in
  (existsb (fun r => String.eqb (api_auth.key_hash r) key_hash) (api_keys db),
   {| api_keys :=
        map (fun r =>
               if String.eqb (api_auth.key_hash r) key_hash
               then {| id := id r; key_hash := api_auth.key_hash r; tier := tier r;
                       created_at := created_at r; expires_at := expires_at r;
                       is_active := 0 |}
               else r) (api_keys db);
      subscriptions := subscriptions db |}).

(** [update_tier] *)
Definition update_tier (db : database) (api_key new_tier : string) : bool * database :=
  let key_hash := hash_key api_key in
  (existsb (fun r => String.eqb (api_auth.key_hash r) key_hash) (api_keys db),
   {| api_keys :=
        map (fun r =>
               if String.eqb (api_auth.key_hash r) key_hash
               then {| id := id r; key_hash := api_auth.key_hash r; tier := new_tier;
                       created_at := created_at r; expires_at := expires_at r;
                       is_active := is_active r |}
               else r) (api_keys db);
      subscriptions := subscriptions db |}).

End api_auth.

Module billing.
Import api_auth.

(** The fields of a webhook's [data] object that the handlers read. *)
Record event_data := {
  customer : option string;
  data_id : option string;
  price_id : string;
  metadata_tier : option string;
  data_status : option string
}.

(** [_extract_tier_from_subscription] *)
Definition _extract_tier_from_subscription (data : event_data) : string :=
  let tier := default "free" (metadata_tier data) in
  if String.eqb (price_id data) "price_free" then "free"
  else if String.eqb (price_id data) "price_pro" then "pro"
  else if String.eqb (price_id data) "price_elite" then "elite"
  else tier.

(** SQL [stripe_subscription_id = ?]: NULL matches nothing. *)
Definition sub_matches (subscription_id : option string) (r : subscription_row) : bool :=
  match subscription_id, stripe_subscription_id r with
  | Some a, Some b => String.eqb a b
  | _, _ => false
  end.

Definition insert_subscription (db : database) (now : Q) (key_hash : string)
    (customer_id subscription_id : option string) (tier : string) : database :=
  {| api_keys := api_keys db;
     subscriptions :=
       subscriptions db ++
       [ {| sub_id := Z.of_nat (length (subscriptions db)) + 1;
            api_key_id := key_hash;
            stripe_customer_id := customer_id;
            stripe_subscription_id := subscription_id;
            sub_tier := tier; status := "active";
            sub_created_at := now; updated_at := now |} ] |}.

(** [_handle_subscription_created]; [api_key] is the token drawn by
    [generate_key]. *)
Definition _handle_subscription_created (db : database) (now : Q) (api_key : string)
    (data : event_data) : option (option string * database) :=
  let customer_id := customer data in
  let subscription_id := data_id data in
  let tier := _extract_tier_from_subscription data in
  match create_key db now api_key tier None with
  | None => None
  | Some ((api_key, key_hash), db) =>
      Some (Some api_key,
            insert_subscription db now key_hash customer_id subscription_id tier)
  end.

(** [_handle_subscription_updated] *)
Definition _handle_subscription_updated (db : database) (now : Q) (data : event_data)
    : option string * database :=
  let subscription_id := data_id data in
  let tier := _extract_tier_from_subscription data in
  let status := default "active" (data_status data) in
  match find (sub_matches subscription_id) (subscriptions db) with
  | None => (None, db)
  | Some row =>
      let api_key_id := api_key_id row in
      let db := snd (update_tier db api_key_id tier) in
      (Some api_key_id,
       {| api_keys := api_keys db;
          subscriptions :=
            map (fun r =>
                   if sub_matches subscription_id r
                   then {| sub_id := sub_id r; api_key_id := api_auth.api_key_id r;
                           stripe_customer_id := stripe_customer_id r;
                           stripe_subscription_id := stripe_subscription_id r;
                           sub_tier := tier; status := status;
                           sub_created_at := sub_created_at r; updated_at := now |}
                   else r) (subscriptions db) |})
  end.

(** [_handle_subscription_deleted] *)
Definition _handle_subscription_deleted (db : database) (now : Q) (data : event_data)
    : option string * database :=
  let subscription_id := data_id data in
  match find (sub_matches subscription_id) (subscriptions db) with
  | None => (None, db)
  | Some row =>
      let api_key_id := api_key_id row in
      let db := snd (deactivate_key db api_key_id) in
      (Some api_key_id,
       {| api_keys := api_keys db;
          subscriptions :=
            map (fun r =>
                   if sub_matches subscription_id r
                   then {| sub_id := sub_id r; api_key_id := api_auth.api_key_id r;
                           stripe_customer_id := stripe_customer_id r;
                           stripe_subscription_id := stripe_subscription_id r;
                           sub_tier := sub_tier r; status := "cancelled";
                           sub_created_at := sub_created_at r; updated_at := now |}
                   else r) (subscriptions db) |})
  end.

(** [handle_stripe_webhook]; [None] stands for an exception of the
    INSERT in [create_key]. *)
Definition handle_stripe_webhook (db : database) (now : Q) (api_key : string)
    (event_type : string) (data : event_data) : option (option string * database) :=
  if String.eqb event_type "customer.subscription.created"
  then _handle_subscription_created db now api_key data
  else if String.eqb event_type "customer.subscription.updated"
  then Some (_handle_subscription_updated db now data)
  else if String.eqb event_type "customer.subscription.deleted"
  then Some (_handle_subscription_deleted db now data)
  else Some (None, db).

End billing.

(** ** [src/profit_estimator.py]

    A transaction is the part of the [getTransaction] JSON that the
    estimator reads.  [rpc] answers are function arguments; the two price
    oracles (HTTP calls) are fields of [oracles].  Python does not fix the
    iteration order of a [set]; the embedding iterates the distinct
    elements in list order ([remove_dups]).  In exact arithmetic the sums
    do not depend on that order. *)

Module profit_estimator.

Definition WSOL_MINT : string := "So11111111111111111111111111111111111111112".

(** A token record as [parse_token_balance] returns it.  The JSON
    records, whose parsing can raise, are in [token_records] below; a
    transaction of this model holds records that parse, and an
    estimator call that raises is an input of the scan
    ([wallet_monitor.estimate_fault]). *)
Record TokenBalance := {
  owner : string;
  mint : string;
  uiAmount : Q;
  decimals : Z
}.

Record Instruction := {
  programIdIndex : option Z;
  programId : option string
}.

Record TxMeta := {
  preBalances : list Z;
  postBalances : list Z;
  preTokenBalances : list TokenBalance;
  postTokenBalances : list TokenBalance;
  fee : option Z;
  innerInstructions : list (list Instruction)
}.

Record Transaction := {
  meta : TxMeta;
  accountKeys : list string;
  instructions : list Instruction
}.

(** An entry of a signature list ([getSignaturesForAddress]). *)
Record SigInfo := {
  signature : option string;
  slot : option Z
}.

(** The [token_prices] table of [TokenPriceCache]: mint to
    [(price_sol, last_seen)]. *)
Abbreviation TokenPriceCache := (gmap string (Q * Q)).

Definition get_price (cache : TokenPriceCache) (now : Q) (mint : string)
    (ttl_seconds : Z) : option Q :=
  match cache !! mint with
  | None => None
  | Some (price_sol, last_seen) =>
      if negb (ttl_seconds =? 0) && Qltb (inject_Z ttl_seconds) (now - last_seen)
      then None
      else Some price_sol
  end.

Definition set_price (cache : TokenPriceCache) (now : Q) (mint : string) (price_sol : Q)
    : TokenPriceCache :=
  <[mint := (price_sol, now)]> cache.

(** The external price sources and the [BIRDEYE_API_KEY] variable. *)
Record oracles := {
  fetch_price_sol_from_jupiter : string -> option Q;
  BIRDEYE_API_KEY : string;
  fetch_price_sol_from_birdeye : string -> string -> option Q
}.

Fixpoint index_of (x : string) (l : list string) : option nat :=
  match l with
  | [] => None
  | y :: l' => if String.eqb y x then Some 0%nat else option_map S (index_of x l')
  end.

(** [lamport_change] *)
Definition lamport_change (pre post : list Z) (keys : list string) (wallet : string) : Q :=
  match index_of wallet keys with
  | Some idx =>
      match pre !! idx, post !! idx with
      | Some a, Some b => inject_Z (b - a) / 1000000000
      | _, _ => 0
      end
  | None => 0
  end.

(** The dict built by the two loops of [estimate_token_delta]: the
    wallet's balances indexed by [(owner, mint)], a later record
    replacing an earlier one. *)
Definition balance_map (tokens : list TokenBalance) (wallet : string)
    : gmap (string * string) Q :=
  fold_left (fun m t => if String.eqb (owner t) wallet
                        then <[(owner t, mint t) := uiAmount t]> m else m)
            tokens ∅.

(** The distinct keys of [balance_map]. *)
Definition balance_keys (tokens : list TokenBalance) (wallet : string)
    : list (string * string) :=
  remove_dups
    (map (fun t => (owner t, mint t))
         (filter (fun t => String.eqb (owner t) wallet = true) tokens)).

(** Cache, then Jupiter, then Birdeye when a key is configured. *)
Definition lookup_price (env : oracles) (now : Q) (cache : TokenPriceCache)
    (mint : string) : option Q * TokenPriceCache :=
  match get_price cache now mint 60 with
  | Some price => (Some price, cache)
  | None =>
      match fetch_price_sol_from_jupiter env mint with
      | Some fetched => (Some fetched, set_price cache now mint fetched)
      | None =>
          if String.eqb (BIRDEYE_API_KEY env) "" then (None, cache)
          else
            match fetch_price_sol_from_birdeye env mint (BIRDEYE_API_KEY env) with
            | Some fetched => (Some fetched, set_price cache now mint fetched)
            | None => (None, cache)
            end
      end
  end.

(** Body of the loop over [all_mints] in [estimate_token_delta]. *)
Definition token_delta_step (env : oracles) (now : Q)
    (pre_map post_map : gmap (string * string) Q)
    (acc : Q * Q * TokenPriceCache) (key : string * string) : Q * Q * TokenPriceCache :=
  let '(delta_sol, delta_wsol_sol, cache) := acc in
  let pre_amount := default 0%Q (pre_map !! key) in
  let post_amount := default 0%Q (post_map !! key) in
  let token_delta := (post_amount - pre_amount)%Q in
  if Qltb (Qabs token_delta) (1 # 1000000000) then acc
  else if String.eqb (snd key) WSOL_MINT
  then (delta_sol, (delta_wsol_sol + token_delta)%Q, cache)
  else
    match lookup_price env now cache (snd key) with
    | (Some price, cache) => ((delta_sol + token_delta * price)%Q, delta_wsol_sol, cache)
    | (None, cache) => (delta_sol, delta_wsol_sol, cache)
    end.

(** [estimate_token_delta]: [(delta_sol, delta_wsol_sol)] and the cache
    as the price look-ups leave it. *)
Definition estimate_token_delta (env : oracles) (now : Q)
    (pre_tokens post_tokens : list TokenBalance) (wallet : string)
    (price_cache : TokenPriceCache) : Q * Q * TokenPriceCache :=
  let pre_map := balance_map pre_tokens wallet in
  let post_map := balance_map post_tokens wallet in
  let all_mints :=
    remove_dups (balance_keys pre_tokens wallet ++ balance_keys post_tokens wallet) in
  fold_left (token_delta_step env now pre_map post_map) all_mints (0%Q, 0%Q, price_cache).

(** The [confidence_reasons] dict. *)
Record ConfidenceReasons := {
  price_coverage : Q;
  route_complexity : Q;
  fee_completeness : Q;
  balance_alignment : Q;
  total_tokens : Z;
  priced_tokens : Z;
  unique_mints : Z;
  total_inner_inst : Z
}.

(** The local variables of the estimator loop. *)
Record Accumulators := {
  a_profit : Q;
  a_counterparties : list string;
  a_programs : list string;
  a_total_tokens : Z;
  a_priced_tokens : Z;
  a_total_inner_inst : Z;
  a_unique_mints : list string;
  a_fee_known : bool;
  a_fee_total : Q;
  a_sol_delta_sum : Q;
  a_token_delta_sum : Q;
  a_cache : TokenPriceCache
}.

Definition init_acc (price_cache : TokenPriceCache) : Accumulators :=
  {| a_profit := 0; a_counterparties := []; a_programs := [];
     a_total_tokens := 0; a_priced_tokens := 0; a_total_inner_inst := 0;
     a_unique_mints := []; a_fee_known := true; a_fee_total := 0;
     a_sol_delta_sum := 0; a_token_delta_sum := 0; a_cache := price_cache |}.

(** [all_tokens_this_tx]: the non-empty mints of the token records. *)
Definition tx_mints (tokens : list TokenBalance) : list string :=
  remove_dups (filter (fun m => String.eqb m "" = false) (map mint tokens)).

Definition fee_sol (m : TxMeta) : Q := inject_Z (default 0 (fee m)) / 1000000000.

(** Body of the loop of [estimate_profit_enriched] for a fetched
    transaction. *)
Definition enriched_step (env : oracles) (now : Q) (wallet : string)
    (acc : Accumulators) (tx : Transaction) : Accumulators :=
  let m := meta tx in
  let keys := accountKeys tx in
  let sol_delta := lamport_change (preBalances m) (postBalances m) keys wallet in
  let pre_tokens := preTokenBalances m in
  let post_tokens := postTokenBalances m in
  let all_tokens_this_tx := tx_mints (pre_tokens ++ post_tokens) in
  let '(token_delta_sol, delta_wsol_sol, cache) :=
    estimate_token_delta env now pre_tokens post_tokens wallet (a_cache acc) in
  let priced :=
    length (filter (fun mint => is_Some (get_price cache now mint 0)) all_tokens_this_tx) in
  let fee := fee_sol m in
  let program_set :=
    remove_dups
      (omap (fun inst =>
               match programIdIndex inst with
               | Some idx => if 0 <=? idx then keys !! Z.to_nat idx else None
               | None => None
               end) (instructions tx)) in
  {| a_profit := (a_profit acc + sol_delta + token_delta_sol + delta_wsol_sol - fee)%Q;
     a_counterparties :=
       a_counterparties acc ++
       filter (fun addr => String.eqb addr wallet = false /\ addr ∉ program_set) keys;
     a_programs := a_programs acc ++ program_set;
     a_total_tokens := a_total_tokens acc + Z.of_nat (length all_tokens_this_tx);
     a_priced_tokens := a_priced_tokens acc + Z.of_nat priced;
     a_total_inner_inst := a_total_inner_inst acc + Z.of_nat (length (innerInstructions m));
     a_unique_mints := remove_dups (a_unique_mints acc ++ all_tokens_this_tx);
     a_fee_known := if Qeq_bool fee 0 then false else a_fee_known acc;
     a_fee_total := (a_fee_total acc + fee)%Q;
     a_sol_delta_sum := (a_sol_delta_sum acc + Qabs delta_wsol_sol + Qabs sol_delta)%Q;
     a_token_delta_sum := (a_token_delta_sum acc + Qabs token_delta_sol)%Q;
     a_cache := cache |}.

(** Body of the loop of [estimate_profit_async]
    ([src/wallet_monitor.py]) for a fetched transaction. *)
Definition async_step (env : oracles) (now : Q) (wallet : string)
    (acc : Accumulators) (tx : Transaction) : Accumulators :=
  let m := meta tx in
  let keys := accountKeys tx in
  let sol_delta := lamport_change (preBalances m) (postBalances m) keys wallet in
  let pre_tokens := preTokenBalances m in
  let post_tokens := postTokenBalances m in
  let all_tokens_this_tx := tx_mints (pre_tokens ++ post_tokens) in
  let '(token_delta, delta_wsol, cache) :=
    estimate_token_delta env now pre_tokens post_tokens wallet (a_cache acc) in
  let priced :=
    length (filter (fun mint => is_Some (get_price cache now mint 60)) all_tokens_this_tx) in
  let fee := fee_sol m in
  let inner_count :=
    fold_left (fun n inst => n + Z.of_nat (length inst)) (innerInstructions m) 0 in
  {| a_profit := (a_profit acc + sol_delta + token_delta + delta_wsol - fee)%Q;
     a_counterparties :=
       a_counterparties acc ++
       filter (fun pk => String.eqb pk "" = false /\ String.eqb pk wallet = false) keys;
     a_programs := a_programs acc ++ omap (fun inst => truthy_str (programId inst))
                                          (instructions tx);
     a_total_tokens := a_total_tokens acc + Z.of_nat (length all_tokens_this_tx);
     a_priced_tokens := a_priced_tokens acc + Z.of_nat priced;
     a_total_inner_inst := a_total_inner_inst acc + inner_count;
     a_unique_mints := remove_dups (a_unique_mints acc ++ all_tokens_this_tx);
     a_fee_known := a_fee_known acc;
     a_fee_total := (a_fee_total acc + fee)%Q;
     a_sol_delta_sum := (a_sol_delta_sum acc + sol_delta + Qabs delta_wsol)%Q;
     a_token_delta_sum := (a_token_delta_sum acc + Qabs token_delta)%Q;
     a_cache := cache |}.

(** [balance_alignment] as both estimators compute it. *)
Definition compute_balance_alignment (total_valorized total_observed tolerance : Q) : Q :=
  if Qltb 0 total_valorized
     && Qleb (Qabs (total_valorized - total_observed)
              / Qmax total_valorized (1 # 1000000000)) tolerance
  then 1 else (1 # 2).

(** The tail of both estimators: sub-metrics, score and label. *)
Definition finish (BALANCE_TOLERANCE_PCT : Q) (n_sigs : nat) (acc : Accumulators)
    : Q * string * list string * list string * ConfidenceReasons :=
  let price_coverage :=
    if 0 <? a_total_tokens acc
    then (inject_Z (a_priced_tokens acc) / inject_Z (a_total_tokens acc))%Q else 1%Q in
  let route_complexity :=
    Qmin (inject_Z (a_total_inner_inst acc) / inject_Z (Z.max (Z.of_nat n_sigs) 1)) 10 in
  let fee_completeness := if a_fee_known acc then 1%Q else 0%Q in
  let total_valorized := (Qabs (a_sol_delta_sum acc) + a_token_delta_sum acc)%Q in
  let total_observed := (Qabs (a_profit acc) + a_fee_total acc)%Q in
  let tolerance := (BALANCE_TOLERANCE_PCT / 100)%Q in
  let balance_alignment :=
    compute_balance_alignment total_valorized total_observed tolerance in
  let score := 2 in
  let score :=
    if Qltb price_coverage (7 # 10) || Qltb 5 route_complexity then score - 1 else score in
  let score :=
    if Qltb fee_completeness 1 || Qltb balance_alignment (8 # 10) then score - 1 else score in
  let pnl_confidence := nth (Z.to_nat (Z.max 0 (Z.min 2 score))) ["low"; "med"; "high"] "" in
  (a_profit acc, pnl_confidence,
   remove_dups (a_counterparties acc), remove_dups (a_programs acc),
   {| price_coverage := price_coverage;
      route_complexity := route_complexity;
      fee_completeness := fee_completeness;
      balance_alignment := balance_alignment;
      total_tokens := a_total_tokens acc;
      priced_tokens := a_priced_tokens acc;
      unique_mints := Z.of_nat (length (a_unique_mints acc));
      total_inner_inst := a_total_inner_inst acc |}).

(** The transactions that the loop of [estimate_profit_enriched]
    processes: entries without a signature and failed fetches are
    skipped. *)
Definition fetched_enriched (rpc : string -> option Transaction) (sigs : list SigInfo)
    : list Transaction :=
  omap (fun sig_info =>
          match truthy_str (signature sig_info) with
          | Some s => rpc s
          | None => None
          end) sigs.

(** The local variables of [estimate_profit_enriched] when its loop
    ends. *)
Definition enriched_loop (env : oracles) (now : Q) (rpc : string -> option Transaction)
    (wallet : string) (signatures : list SigInfo) (max_tx : nat)
    (price_cache : TokenPriceCache) : Accumulators :=
  fold_left (enriched_step env now wallet)
            (fetched_enriched rpc (firstn max_tx signatures)) (init_acc price_cache).

(** [estimate_profit_enriched]; the variable [confidence] that its loop
    also updates is never read and is left out. *)
Definition estimate_profit_enriched (BALANCE_TOLERANCE_PCT : Q) (env : oracles) (now : Q)
    (rpc : string -> option Transaction) (wallet : string) (signatures : list SigInfo)
    (max_tx : nat) (price_cache : TokenPriceCache)
    : (Q * string * list string * list string * ConfidenceReasons) * TokenPriceCache :=
  let acc := enriched_loop env now rpc wallet signatures max_tx price_cache in
  (finish BALANCE_TOLERANCE_PCT (length (firstn max_tx signatures)) acc, a_cache acc).

(** The transactions that the loop of [estimate_profit_async] processes:
    [get_transaction] is tried twice ([max_retries = 2]); its second
    argument is the attempt number. *)
Definition fetched_async (rpc : string -> nat -> option Transaction) (sigs : list SigInfo)
    : list Transaction :=
  omap (fun sig_info =>
          match truthy_str (signature sig_info) with
          | Some s =>
              match rpc s 0%nat with
              | Some tx => Some tx
              | None => rpc s 1%nat
              end
          | None => None
          end) sigs.

(** The local variables of [estimate_profit_async] when its loop ends. *)
Definition async_loop (env : oracles) (now : Q) (rpc : string -> nat -> option Transaction)
    (wallet : string) (signatures : list SigInfo) (max_tx : nat)
    (price_cache : TokenPriceCache) : Accumulators :=
  fold_left (async_step env now wallet)
            (fetched_async rpc (firstn max_tx signatures)) (init_acc price_cache).

(** [estimate_profit_async] ([src/wallet_monitor.py]) *)
Definition estimate_profit_async (BALANCE_TOLERANCE_PCT : Q) (env : oracles) (now : Q)
    (rpc : string -> nat -> option Transaction) (wallet : string)
    (signatures : list SigInfo) (max_tx : nat) (price_cache : TokenPriceCache)
    : (Q * string * list string * list string * ConfidenceReasons) * TokenPriceCache :=
  let acc := async_loop env now rpc wallet signatures max_tx price_cache in
  (finish BALANCE_TOLERANCE_PCT (length (firstn max_tx signatures)) acc, a_cache acc).

(** *** Vocabulary of the statements *)

(** Components of the tuple that the estimators return. *)
Definition res_profit (r : Q * string * list string * list string * ConfidenceReasons) : Q :=
  fst (fst (fst (fst r))).
Definition res_confidence (r : Q * string * list string * list string * ConfidenceReasons)
    : string :=
  snd (fst (fst (fst r))).
Definition res_reasons (r : Q * string * list string * list string * ConfidenceReasons)
    : ConfidenceReasons :=
  snd r.

(** The four amounts that one processed transaction contributes. *)
Record TxDeltas := {
  d_sol : Q;
  d_wsol : Q;
  d_token : Q;
  d_fee : Q
}.

(** The contributions of the processed transactions, in order; the
    price cache is the one that the previous transactions left. *)
Fixpoint tx_deltas (env : oracles) (now : Q) (wallet : string)
    (cache : TokenPriceCache) (txs : list Transaction) : list TxDeltas :=
  match txs with
  | [] => []
  | tx :: rest =>
      let m := meta tx in
      let '(token_delta, delta_wsol, cache') :=
        estimate_token_delta env now (preTokenBalances m) (postTokenBalances m)
                             wallet cache in
      {| d_sol := lamport_change (preBalances m) (postBalances m) (accountKeys tx) wallet;
         d_wsol := delta_wsol;
         d_token := token_delta;
         d_fee := fee_sol m |}
      :: tx_deltas env now wallet cache' rest
  end.

Definition total (f : TxDeltas -> Q) (ds : list TxDeltas) : Q :=
  fold_right (fun d acc => (f d + acc)%Q) 0%Q ds.


(** [balance_alignment] by the formula of the specification, without
    the guard on [total_valorized]. *)
Definition claimed_balance_alignment (total_valorized total_observed tolerance : Q) : Q :=
  if Qleb (Qabs (total_valorized - total_observed)
           / Qmax total_valorized (1 # 1000000000)) tolerance
  then 1 else (1 # 2).

End profit_estimator.

(** ** Python values held in the alert dicts *)

#[local] Unset Elimination Schemes.
Inductive pyval :=
| PyNone
| PyBool (b : bool)
| PyInt (z : Z)
| PyFloat (q : Q)
| PyStr (s : string)
| PyDatetime (t : Q)
| PyList (l : list pyval)
| PyDict (d : list (string * pyval)).
#[local] Set Elimination Schemes.

(** A dict literal with string keys, in insertion order. *)
Abbreviation pydict := (list (string * pyval)).

Fixpoint dict_get (d : pydict) (k : string) : option pyval :=
  match d with
  | [] => None
  | (k', v) :: d' => if String.eqb k' k then Some v else dict_get d' k
  end.

(** ** [src/wallet_monitor.py]: alert state and the per-wallet scan

    Left out of the embedding: logging, Prometheus metrics, [_scan_stats],
    the Discord webhook, the copy-trader observer, and the watchlist
    bookkeeping (LRU stamp before the fetch, auto-promotion after an
    alert); none of them writes the state modelled here.  The
    exceptions that they, or the estimator, may raise are inputs of the
    scan ([estimate_fault] and [scan_aborts] below). *)

Module wallet_monitor.
Import profit_estimator.

(** The configuration constants read by the alert engine.  The bound
    [MAX_SEEN_SIGNATURES] is a natural number and the batch size a
    positive one: a negative bound would make [popitem] raise on the
    emptied dict, a zero step would make [range] raise. *)
Record AlertConfig := {
  PROFIT_ALERT_THRESHOLD : Q;
  GAIN_FILTER : Q;
  WIN_RATE_FILTER : Q;
  ALERT_COOLDOWN_SEC : Z;
  STATE_TTL_SECONDS : Z;
  MAX_SEEN_SIGNATURES : nat;
  ALERT_BATCH_SIZE : positive;
  BALANCE_TOLERANCE_PCT : Q;
  DRY_RUN : bool;
  daas_mode : bool
}.

(** The module globals and the two alert lists shared with the caller. *)
Record State := {
  _last_alert_at : gmap string Q;
  _seen_signatures : list (string * Q);
  _last_sig_by_wallet : gmap string string;
  _profit_history : gmap string (list Q);
  _blocked_alerts : list pydict;
  alerts : list pydict;
  alerts_queue : option (list pydict);
  price_cache : TokenPriceCache
}.

(** What the scan reads from outside: the clock at each batch, the RPC
    answers, the price oracles, [statistics.pstdev] and the latency
    measured by [time.perf_counter]; and the exceptions raised by what
    the embedding leaves out.  [estimate_fault i = Some cache]: the call
    of [estimate_profit_async] for batch [i] raised (an RPC answer that
    is not of the expected shape, a token record whose [uiAmount] is
    null, a failing cache write), leaving the price cache as [cache].
    [scan_aborts i]: an exception was raised after the alert of batch
    [i] was recorded (by [append_log], the Discord notification, the
    copy trader or the watchlist promotion). *)
Record Env := {
  clock : nat -> Q;
  get_transaction : string -> nat -> option Transaction;
  price_oracles : oracles;
  pstdev : list Q -> Q;
  detect_ms : nat -> Q;
  estimate_fault : nat -> option TokenPriceCache;
  scan_aborts : nat -> bool
}.

(** A row of the wallet data frame. *)
Record WalletRow := {
  row_wallet : string;
  net_total : Q;
  win_rate : Q;
  dex : string
}.

(** *** The ordered dict [_seen_signatures] *)

Definition seen_get (seen : list (string * Q)) (sig : string) : option Q :=
  snd <$> find (fun p => String.eqb (fst p) sig) seen.

(** [seen[sig] = ts] followed by [seen.move_to_end(sig)]. *)
Definition seen_put (seen : list (string * Q)) (sig : string) (ts : Q)
    : list (string * Q) :=
  filter (fun p => String.eqb (fst p) sig = false) seen ++ [(sig, ts)].

(** [while len(seen) > MAX_SEEN_SIGNATURES: seen.popitem(last=False)] *)
Fixpoint evict_oldest (max_seen : nat) (seen : list (string * Q)) : list (string * Q) :=
  match seen with
  | [] => []
  | _ :: rest => if (max_seen <? length seen)%nat then evict_oldest max_seen rest else seen
  end.

(** The [for] loop of [filter_new_signatures]: entries are kept up to
    the first one whose signature is [last]; an entry without a
    signature is skipped. *)
Fixpoint newer_entries (last : string) (signatures : list SigInfo) : list SigInfo :=
  match signatures with
  | [] => []
  | entry :: rest =>
      match truthy_str (signature entry) with
      | None => newer_entries last rest
      | Some sig => if String.eqb sig last then [] else entry :: newer_entries last rest
      end
  end.

Definition set_last_sig (st : State) (wallet head_sig : string) : State :=
  {| _last_alert_at := _last_alert_at st;
     _seen_signatures := _seen_signatures st;
     _last_sig_by_wallet := <[wallet := head_sig]> (_last_sig_by_wallet st);
     _profit_history := _profit_history st;
     _blocked_alerts := _blocked_alerts st;
     alerts := alerts st;
     alerts_queue := alerts_queue st;
     price_cache := price_cache st |}.

(** [filter_new_signatures] *)
Definition filter_new_signatures (st : State) (wallet : string) (signatures : list SigInfo)
    : list SigInfo * State :=
  let last := _last_sig_by_wallet st !! wallet in
  match signatures with
  | [] => ([], st)
  | head :: _ =>
      let subset :=
        match last with
        | None => firstn 5 signatures
        | Some last => newer_entries last signatures
        end in
      let st :=
        match truthy_str (signature head) with
        | Some head_sig => set_last_sig st wallet head_sig
        | None => st
        end in
      (subset, st)
  end.

(** [should_alert] *)
Definition should_alert (cfg : AlertConfig) (st : State) (now : Q) (wallet : string)
    (new_sigs : list string) : bool :=
  match new_sigs with
  | [] => false
  | _ =>
      if existsb (fun sig => bool_decide (is_Some (seen_get (_seen_signatures st) sig)))
                 new_sigs
      then false
      else if Qltb (now - default 0%Q (_last_alert_at st !! wallet))
                   (inject_Z (ALERT_COOLDOWN_SEC cfg))
      then false
      else true
  end.

(** The [for] loop of [mark_alert]. *)
Definition record_seen (seen : list (string * Q)) (sigs : list string) (timestamp : Q)
    : list (string * Q) :=
  fold_left (fun s sig => seen_put s sig timestamp) sigs seen.

(** [mark_alert] *)
Definition mark_alert (cfg : AlertConfig) (st : State) (timestamp : Q) (wallet : string)
    (sigs : list string) : State :=
  {| _last_alert_at := <[wallet := timestamp]> (_last_alert_at st);
     _seen_signatures :=
       evict_oldest (MAX_SEEN_SIGNATURES cfg)
                    (record_seen (_seen_signatures st) sigs timestamp);
     _last_sig_by_wallet := _last_sig_by_wallet st;
     _profit_history := _profit_history st;
     _blocked_alerts := _blocked_alerts st;
     alerts := alerts st;
     alerts_queue := alerts_queue st;
     price_cache := price_cache st |}.

(** [keys_to_remove] of [garbage_collect_state]: the leading expired
    signatures. *)
Fixpoint expired_prefix (cutoff : Q) (seen : list (string * Q)) : list string :=
  match seen with
  | [] => []
  | (sig, ts) :: rest => if Qltb ts cutoff then sig :: expired_prefix cutoff rest else []
  end.

(** [garbage_collect_state], called with its argument [now] (the main
    loop always passes it). *)
Definition garbage_collect_state (cfg : AlertConfig) (st : State) (now : Q) : State :=
  let cutoff := (now - inject_Z (STATE_TTL_SECONDS cfg))%Q in
  let keys_to_remove := expired_prefix cutoff (_seen_signatures st) in
  let seen := filter (fun p => fst p ∉ keys_to_remove) (_seen_signatures st) in
  {| _last_alert_at := filter (fun kv => Qltb (snd kv) cutoff = false) (_last_alert_at st);
     _seen_signatures := evict_oldest (MAX_SEEN_SIGNATURES cfg) seen;
     _last_sig_by_wallet := _last_sig_by_wallet st;
     _profit_history := _profit_history st;
     _blocked_alerts := _blocked_alerts st;
     alerts := alerts st;
     alerts_queue := alerts_queue st;
     price_cache := price_cache st |}.

(** *** Batching, labels and z-score *)

(** [grouped[sig.get("slot")].append(sig)] on a [defaultdict(list)]. *)
Fixpoint group_add (grouped : list (option Z * list SigInfo)) (sig : SigInfo)
    : list (option Z * list SigInfo) :=
  match grouped with
  | [] => [(slot sig, [sig])]
  | (k, items) :: rest =>
      if bool_decide (k = slot sig) then (k, items ++ [sig]) :: rest
      else (k, items) :: group_add rest sig
  end.

(** Stable sort by decreasing [kv[0] or 0]. *)
Fixpoint insert_desc (x : option Z * list SigInfo) (l : list (option Z * list SigInfo))
    : list (option Z * list SigInfo) :=
  match l with
  | [] => [x]
  | y :: l' =>
      if default 0 (fst y) <? default 0 (fst x) then x :: l else y :: insert_desc x l'
  end.

Definition sort_desc (l : list (option Z * list SigInfo)) : list (option Z * list SigInfo) :=
  fold_left (fun acc x => insert_desc x acc) l [].

(** [items[idx : idx + n]] for [idx] in [range(0, len(items), n)]. *)
Fixpoint chunks (fuel n : nat) (items : list SigInfo) : list (list SigInfo) :=
  match fuel, items with
  | S fuel', _ :: _ => firstn n items :: chunks fuel' n (skipn n items)
  | _, _ => []
  end.

(** [build_signature_batches] *)
Definition build_signature_batches (cfg : AlertConfig) (signatures : list SigInfo)
    : list (list SigInfo) :=
  let n := Pos.to_nat (ALERT_BATCH_SIZE cfg) in
  let grouped := fold_left group_add signatures [] in
  let batches :=
    concat (map (fun kv => chunks (length (snd kv)) n (snd kv)) (sort_desc grouped)) in
  match batches, signatures with
  | [], _ :: _ => [firstn n signatures]
  | _, _ => batches
  end.

(** [PROGRAM_MAP.get(p, "Unknown")] *)
Definition program_label (p : string) : string :=
  if String.eqb p "JUP4Fb2cqiRUcaTHdrPC8h2gK4G8cCxfXk8XQf2Zx1i" then "Jupiter"
  else if String.eqb p "rvk5K9sH1t7h8GmHh5w7bqgTt3m1oJ2qkNoRayDiUM" then "Raydium"
  else if String.eqb p "9xQeWvG816bUx9EPfDdC1WJ4VqV6g5Gz5X5H5Q5tLCH" then "OpenBook"
  else if String.eqb p "orcaEKTdNdXBgaAwyQUpfCw9W7jfvAbzGt9xa1sG9W" then "Orca"
  else if String.eqb p "tensorFLkNft111111111111111111111111111111" then "Tensor"
  else if String.eqb p "MEisE1HzehtrDpAAT8PnLHjpSSkRYakotTuJRPjTpo8" then "MagicEden"
  else if String.eqb p "ComputeBudget111111111111111111111111111111" then "System"
  else if String.eqb p "SysvarRent111111111111111111111111111111111" then "System"
  else "Unknown".

(** A [collections.Counter] in insertion order. *)
Fixpoint counter_add (counts : list (string * Z)) (label : string) : list (string * Z) :=
  match counts with
  | [] => [(label, 1)]
  | (k, n) :: rest =>
      if String.eqb k label then (k, n + 1) :: rest else (k, n) :: counter_add rest label
  end.

(** [max(counts.items(), key=lambda kv: kv[1])]: the first entry with
    the greatest count. *)
Definition first_max (counts : list (string * Z)) : option (string * Z) :=
  fold_left (fun best kv =>
               match best with
               | None => Some kv
               | Some b => if snd b <? snd kv then Some kv else Some b
               end) counts None.

(** [label_from_programs] *)
Definition label_from_programs (programs : list string) : string :=
  match programs with
  | [] => "Unknown"
  | _ =>
      let counts := fold_left counter_add (map program_label programs) [] in
      let counts :=
        filter (fun kv => String.eqb (fst kv) "System" = false
                          /\ String.eqb (fst kv) "Unknown" = false) counts in
      match first_max counts with
      | Some kv => fst kv
      | None => "Unknown"
      end
  end.

(** [classify_signal] *)
Definition classify_signal (dex : string) : string :=
  if existsb (String.eqb dex) ["Tensor"; "MagicEden"; "Blur"] then "Scalper NFT"
  else if existsb (String.eqb dex) ["Jupiter"; "Raydium"; "OpenBook"; "Orca"]
  then "AMM / Aggregator"
  else "Signal".

Definition Qsum (l : list Q) : Q := fold_left Qplus l 0%Q.

(** [compute_zscore]: the z-score and the history with [profit]
    appended ([deque(maxlen=50)]). *)
Definition compute_zscore (env : Env) (history : list Q) (profit : Q) : Q * list Q :=
  let z :=
    if (2 <=? length history)%nat
    then
      let mean := (Qsum history / inject_Z (Z.of_nat (length history)))%Q in
      let std := pstdev env history in
      if Qeq_bool std 0 then 0%Q else ((profit - mean) / std)%Q
    else 0%Q in
  let history := history ++ [profit] in
  (z, skipn (length history - 50) history).

(** *** The per-wallet scan *)

Definition reasons_dict (r : ConfidenceReasons) : pyval :=
  PyDict [ ("price_coverage", PyFloat (price_coverage r));
           ("route_complexity", PyFloat (route_complexity r));
           ("fee_completeness", PyFloat (fee_completeness r));
           ("balance_alignment", PyFloat (balance_alignment r));
           ("total_tokens", PyInt (total_tokens r));
           ("priced_tokens", PyInt (priced_tokens r));
           ("unique_mints", PyInt (unique_mints r));
           ("total_inner_inst", PyInt (total_inner_inst r)) ].

(** An entry of [_blocked_alerts]. *)
Definition blocked_entry (wallet : string) (profit : Q) (reason : string)
    (details : pydict) (now : Q) : pydict :=
  [ ("wallet", PyStr wallet); ("profit", PyFloat profit); ("reason", PyStr reason);
    ("details", PyDict details); ("timestamp", PyFloat now) ].

Definition block (st : State) (entry : pydict) (cache : TokenPriceCache) : State :=
  {| _last_alert_at := _last_alert_at st;
     _seen_signatures := _seen_signatures st;
     _last_sig_by_wallet := _last_sig_by_wallet st;
     _profit_history := _profit_history st;
     _blocked_alerts := _blocked_alerts st ++ [entry];
     alerts := alerts st;
     alerts_queue := alerts_queue st;
     price_cache := cache |}.

(** [alerts.append(alert_event)] and the bounded append to the API
    queue, with the profit history as [compute_zscore] left it. *)
Definition emit (cfg : AlertConfig) (st : State) (wallet : string) (history : list Q)
    (alert_event : pydict) (cache : TokenPriceCache) : State :=
  {| _last_alert_at := _last_alert_at st;
     _seen_signatures := _seen_signatures st;
     _last_sig_by_wallet := _last_sig_by_wallet st;
     _profit_history := <[wallet := history]> (_profit_history st);
     _blocked_alerts := _blocked_alerts st;
     alerts := alerts st ++ [alert_event];
     alerts_queue :=
       match alerts_queue st with
       | Some queue =>
           if daas_mode cfg
           then
             let queue := queue ++ [alert_event] in
             Some (if (1000 <? length queue)%nat then skipn 1 queue else queue)
           else Some queue
       | None => None
       end;
     price_cache := cache |}.

Definition with_cache (st : State) (cache : TokenPriceCache) : State :=
  {| _last_alert_at := _last_alert_at st;
     _seen_signatures := _seen_signatures st;
     _last_sig_by_wallet := _last_sig_by_wallet st;
     _profit_history := _profit_history st;
     _blocked_alerts := _blocked_alerts st;
     alerts := alerts st;
     alerts_queue := alerts_queue st;
     price_cache := cache |}.

(** Body of the [for batch in batches] loop of [scan_wallet_async], up
    to [mark_alert]; [i] numbers the batch.  When the estimator raises,
    the [except Exception] clause logs, sleeps and goes on to the next
    batch: nothing is recorded for this one. *)
Definition process_batch (cfg : AlertConfig) (env : Env) (wallet : string)
    (wallet_row : option WalletRow) (st : State) (i : nat) (batch : list SigInfo) : State :=
  let now := clock env i in
  let net_total := default 0%Q (net_total <$> wallet_row) in
  let win_rate := default 0%Q (win_rate <$> wallet_row) in
  match estimate_fault env i with
  | Some cache => with_cache st cache
  | None =>
  let '((profit, pnl_confidence, counterparties, programs, confidence_reasons), cache) :=
    estimate_profit_async (BALANCE_TOLERANCE_PCT cfg) (price_oracles env) now
      (get_transaction env) wallet batch 5 (price_cache st) in
  let new_sigs := omap (fun s => truthy_str (signature s)) batch in
  match new_sigs with
  | [] => with_cache st cache
  | primary_sig :: _ =>
      let dex := label_from_programs programs in
      let dex :=
        match wallet_row with
        | Some row => if String.eqb dex "Unknown" then wallet_monitor.dex row else dex
        | None => dex
        end in
      if Qltb net_total (GAIN_FILTER cfg) || Qltb win_rate (WIN_RATE_FILTER cfg)
      then block st
             (blocked_entry wallet profit "wallet_filtered"
                [ ("net_total", PyFloat net_total); ("win_rate", PyFloat win_rate);
                  ("gain_filter", PyFloat (GAIN_FILTER cfg));
                  ("win_rate_filter", PyFloat (WIN_RATE_FILTER cfg)) ] now) cache
      else if Qltb profit (PROFIT_ALERT_THRESHOLD cfg)
      then block st
             (blocked_entry wallet profit "profit_below_threshold"
                [ ("profit", PyFloat profit);
                  ("threshold", PyFloat (PROFIT_ALERT_THRESHOLD cfg)) ] now) cache
      else if negb (existsb (String.eqb pnl_confidence) ["med"; "high"])
      then block st
             (blocked_entry wallet profit "confidence_too_low"
                [ ("confidence", PyStr pnl_confidence) ] now) cache
      else if negb (should_alert cfg st now wallet new_sigs)
      then
        let last_alert := default 0%Q (_last_alert_at st !! wallet) in
        block st
          (blocked_entry wallet profit "cooldown"
             [ ("cooldown_remaining",
                PyFloat (inject_Z (ALERT_COOLDOWN_SEC cfg) - (now - last_alert)));
               ("last_alert_timestamp", PyFloat last_alert) ] now) cache
      else
        let '(zscore, history) :=
          compute_zscore env (default [] (_profit_history st !! wallet)) profit in
        let signal_type := classify_signal dex in
        let tier := "free" in
        let alert_event :=
          [ ("wallet", PyStr wallet);
            ("profit", PyFloat profit);
            ("dex", PyStr dex);
            ("win_rate", PyFloat win_rate);
            ("timestamp", PyDatetime now);
            ("counterparties", PyList (map PyStr (firstn 10 counterparties)));
            ("signal_type", PyStr signal_type);
            ("zscore", PyFloat zscore);
            ("signature", PyStr primary_sig);
            ("detect_ms", PyFloat (detect_ms env i));
            ("pnl_confidence", PyStr pnl_confidence);
            ("confidence_reasons", reasons_dict confidence_reasons);
            ("dry_run", PyBool (DRY_RUN cfg));
            ("tier", PyStr tier) ] in
        mark_alert cfg (emit cfg st wallet history alert_event cache) now wallet new_sigs
  end
  end.

(** The batch recorded an alert. *)
Definition recorded_alert (st st' : State) : bool :=
  (length (alerts st) <? length (alerts st'))%nat.

(** The [for batch in batches] loop.  What follows [mark_alert] in the
    loop body can end the scan: with [DRY_RUN] false the call
    [send_alert(..., tier=tier)] raises [TypeError] ([send_alert] has
    no parameter [tier]), and so does any exception of the steps left
    out ([scan_aborts]); the batches that remain are not processed. *)
Fixpoint process_batches (cfg : AlertConfig) (env : Env) (wallet : string)
    (wallet_row : option WalletRow) (st : State) (i : nat) (batches : list (list SigInfo))
    : State :=
  match batches with
  | [] => st
  | batch :: rest =>
      let st' := process_batch cfg env wallet wallet_row st i batch in
      if recorded_alert st st' && (negb (DRY_RUN cfg) || scan_aborts env i)
      then st'
      else process_batches cfg env wallet wallet_row st' (S i) rest
  end.

(** [scan_wallet_async], from the answer [resp] of
    [get_signatures_for_address] on ([None]: no answer). *)
Definition scan_wallet_async (cfg : AlertConfig) (env : Env) (st : State) (wallet : string)
    (df : list WalletRow) (resp : option (list SigInfo)) : State :=
  match resp with
  | None => st
  | Some raw_sigs =>
      let '(increment, st) := filter_new_signatures st wallet raw_sigs in
      match increment with
      | [] => st
      | _ =>
          let batches := build_signature_batches cfg increment in
          let wallet_row := find (fun r => String.eqb (row_wallet r) wallet) df in
          process_batches cfg env wallet wallet_row st 0 batches
      end
  end.

(** *** Vocabulary of the statements *)

(** An alert record meets the profit threshold and carries the label
    med or high. *)
Definition alert_ok (cfg : AlertConfig) (a : pydict) : Prop :=
  exists (p : Q) (c : string),
    dict_get a "profit" = Some (PyFloat p) /\
    (PROFIT_ALERT_THRESHOLD cfg <= p)%Q /\
    dict_get a "pnl_confidence" = Some (PyStr c) /\
    (c = "med" \/ c = "high").

(** Every entry of a signature list carries a non-empty signature id. *)
Definition all_signed (signatures : list SigInfo) : bool :=
  forallb (fun e => bool_decide (is_Some (truthy_str (signature e)))) signatures.

End wallet_monitor.


(** ** [src/api_service.py]

    A response is its status, its headers and what the handler writes
    after the header lines; the Prometheus counter is left out. *)

Module api_service.
Import api_auth rate_limiter.

(** Whether [json.dumps] accepts the value: a [datetime] makes it raise
    [TypeError]. *)
Fixpoint json_serializable (v : pyval) : bool :=
  match v with
  | PyDatetime _ => false
  | PyList l => forallb json_serializable l
  | PyDict d => forallb (fun kv => json_serializable (snd kv)) d
  | _ => true
  end.

(** What follows the header lines of a response. *)
Inductive payload :=
| Json (obj : pydict)
    (** [self.wfile.write(json.dumps(obj).encode())] *)
| NoBody
    (** nothing is written (the 404 answer) *)
| TypeError.
    (** [json.dumps] raised after the status line and the headers were
        sent: nothing is written and the exception leaves the handler *)

(** [self.wfile.write(json.dumps(obj).encode())] *)
Definition json_dumps (obj : pydict) : payload :=
  if json_serializable (PyDict obj) then Json obj else TypeError.

Record Response := {
  status_code : Z;
  headers : list (string * string);
  body : payload
}.

(** [str] on an [int]. *)
Definition str (z : Z) : string := NilZero.string_of_int (Z.to_int z).

(** [_authenticate]; [x_api_key] is [self.headers.get("x-api-key")]. *)
Definition _authenticate (db : database) (now : Q) (x_api_key : option string)
    : option (string * string * bool) :=
  match truthy_str x_api_key with
  | None => None
  | Some api_key =>
      match validate_key db now api_key with
      | None => None
      | Some (tier, is_active) => Some (api_key, tier, is_active)
      end
  end.

(** [_handle_signals] *)
Definition _handle_signals (db : database) (rate_limiter : RateLimiter)
    (alerts_queue : list pydict) (now : Q) (x_api_key : option string)
    : Response * RateLimiter :=
  match _authenticate db now x_api_key with
  | None =>
      ({| status_code := 401;
          headers := [("Content-type", "application/json")];
          body := json_dumps [("error", PyStr "Unauthorized")] |}, rate_limiter)
  | Some (api_key, tier, is_active) =>
      let key_hash := hash_key api_key in
      let '((allowed, remaining, limit), rate_limiter) :=
        check_limit rate_limiter now key_hash tier in
      if negb allowed
      then
        ({| status_code := 429;
            headers := [("Content-type", "application/json");
                        ("X-RateLimit-Remaining", "0");
                        ("X-RateLimit-Limit", str limit)];
            body := json_dumps [("error", PyStr "Rate limit exceeded")] |}, rate_limiter)
      else
        let signals := skipn (length alerts_queue - 100) alerts_queue in
        ({| status_code := 200;
            headers := [("Content-type", "application/json");
                        ("X-RateLimit-Remaining", str remaining);
                        ("X-RateLimit-Limit", str limit)];
            body := json_dumps [("signals", PyList (map PyDict signals));
                                ("count", PyInt (Z.of_nat (length signals)))] |},
         rate_limiter)
  end.

End api_service.


(** ** Fixtures of the specification's end-to-end scenarios *)

Module scenario.
Import profit_estimator wallet_monitor.

Definition cfg : AlertConfig :=
  {| PROFIT_ALERT_THRESHOLD := 2; GAIN_FILTER := 5; WIN_RATE_FILTER := 80;
     ALERT_COOLDOWN_SEC := 300; STATE_TTL_SECONDS := 3600;
     MAX_SEEN_SIGNATURES := 500; ALERT_BATCH_SIZE := 10;
     BALANCE_TOLERANCE_PCT := 10; DRY_RUN := true; daas_mode := true |}.

Definition no_oracles : oracles :=
  {| fetch_price_sol_from_jupiter := fun _ => None; BIRDEYE_API_KEY := "";
     fetch_price_sol_from_birdeye := fun _ _ => None |}.

(** Scenario 1: native delta of +3.0 SOL, no tokens, fee 5000 lamports. *)
Definition tx_native : Transaction :=
  {| meta := {| preBalances := [10000000000]; postBalances := [13000000000];
                preTokenBalances := []; postTokenBalances := [];
                fee := Some 5000; innerInstructions := [] |};
     accountKeys := ["W1"]; instructions := [] |}.

(** Scenario 2: the same delta as a wrapped-native ui-amount change. *)
Definition tx_wsol : Transaction :=
  {| meta := {| preBalances := [10000000000]; postBalances := [10000000000];
                preTokenBalances :=
                  [ {| owner := "W1"; mint := WSOL_MINT; uiAmount := 10; decimals := 9 |} ];
                postTokenBalances :=
                  [ {| owner := "W1"; mint := WSOL_MINT; uiAmount := 13; decimals := 9 |} ];
                fee := Some 5000; innerInstructions := [] |};
     accountKeys := ["W1"]; instructions := [] |}.

Definition sig (s : string) (n : Z) : SigInfo := {| signature := Some s; slot := Some n |}.

Definition env (tx : Transaction) : Env :=
  {| clock := fun _ => 1000%Q;
     get_transaction := fun _ _ => Some tx;
     price_oracles := no_oracles;
     pstdev := fun _ => 0%Q;
     detect_ms := fun _ => 12%Q;
     estimate_fault := fun _ => None;
     scan_aborts := fun _ => false |}.

Definition st0 : State :=
  {| _last_alert_at := ∅; _seen_signatures := []; _last_sig_by_wallet := ∅;
     _profit_history := ∅; _blocked_alerts := []; alerts := [];
     alerts_queue := Some []; price_cache := ∅ |}.

Definition df : list WalletRow :=
  [ {| row_wallet := "W1"; net_total := 10; win_rate := 90; dex := "Jupiter" |} ].

(** The state after the scan of scenario 1. *)
Definition st1 : State :=
  scan_wallet_async cfg (env tx_native) st0 "W1" df (Some [sig "S1" 5]).

(** A key store holding a free-tier key and an elite-tier key. *)
Definition db : api_auth.database :=
  let with_key (d : api_auth.database) (k t : string) :=
    match api_auth.create_key d 100 k t None with
    | Some (_, d') => d'
    | None => d
    end in
  with_key (with_key api_auth.empty_db "daas_f" "free") "daas_e" "elite".

Definition limiter : rate_limiter.RateLimiter :=
  rate_limiter.__init__
    {| rate_limiter.rate_limit_free := 10; rate_limiter.rate_limit_pro := 1000;
       rate_limiter.rate_limit_elite := 10000 |}
    rate_limiter.utc_host.

End scenario.

(** ** [src/rate_limiter.py]: reading the usage *)

Module rate_limiter_usage.
Import rate_limiter.

(** [get_usage]: [(count, limit)]; the [defaultdict] access creates the
    entry of a key never seen, the stored count is not rewritten. *)
Definition get_usage (self : RateLimiter) (now : Q) (api_key_hash tier : string)
    : (Z * Z) * RateLimiter :=
  let limit := limits_get (limits self) tier in
  let reset_time := _get_reset_time self now in
  let '(count, last_reset) := counters_getitem now api_key_hash (_counters self) in
  let count := if Qltb last_reset reset_time then 0 else count in
  ((count, limit),
   {| limits := limits self;
      _counters := <[api_key_hash := counters_getitem now api_key_hash (_counters self)]>
                     (_counters self);
      utcoffset := utcoffset self |}).

(** The answers given to the calls made with key hash [h]. *)
Fixpoint answers_for (self : RateLimiter) (calls : list call) (h : string) : list bool :=
  match calls with
  | [] => []
  | c :: rest =>
      let '((allowed, _, _), self') := check_limit self (c_now c) (c_hash c) (c_tier c) in
      (if String.eqb (c_hash c) h then [allowed] else []) ++ answers_for self' rest h
  end.

(** Every call of the sequence falls in UTC day [d]. *)
Definition all_in_day (d : Z) (calls : list call) : bool :=
  forallb (fun c => utc_day (c_now c) =? d) calls.

End rate_limiter_usage.

(** ** [src/billing.py]: fake checkout, the subscription gauge, and
    sequences of key-store operations *)

Module key_store.
Import api_auth.

(** The operations of [ApiAuth] that write the [api_keys] table. *)
Inductive operation :=
| CreateKey (now : Q) (api_key tier : string) (expires_at : option Q)
| DeactivateKey (api_key : string)
| UpdateTier (api_key new_tier : string).

(** The store after an operation; a [create_key] whose INSERT raises
    leaves it as it was. *)
Definition apply_operation (db : database) (op : operation) : database :=
  match op with
  | CreateKey now api_key tier expires_at =>
      match create_key db now api_key tier expires_at with
      | Some (_, db') => db'
      | None => db
      end
  | DeactivateKey api_key => snd (deactivate_key db api_key)
  | UpdateTier api_key new_tier => snd (update_tier db api_key new_tier)
  end.

(** The test [expires_at and time.time() > expires_at] of [validate_key]. *)
Definition expired (expires_at : option Q) (now : Q) : bool :=
  match truthy_time expires_at with
  | Some e => Qltb e now
  | None => false
  end.

Definition key_hashes (db : database) : list string := map key_hash (api_keys db).

(** [validate_key] through the row it finds. *)
Definition row_answer (now : Q) (row : api_key_row) : option (string * bool) :=
  if expired (expires_at row) now then None
  else if is_active row =? 0 then None
  else Some (tier row, true).

(** The rows written by [deactivate_key] and by [update_tier]. *)
Definition switched_off (r : api_key_row) : api_key_row :=
  {| id := id r; key_hash := key_hash r; tier := tier r; created_at := created_at r;
     expires_at := expires_at r; is_active := 0 |}.

Definition retiered (t : string) (r : api_key_row) : api_key_row :=
  {| id := id r; key_hash := key_hash r; tier := t; created_at := created_at r;
     expires_at := expires_at r; is_active := is_active r |}.

(** The inactive-row invariant behind the permanence of a deactivation. *)
Definition off (db : database) (h : string) : Prop :=
  exists row, find (fun r => String.eqb (key_hash r) h) (api_keys db) = Some row
              /\ is_active row = 0.

End key_store.

Module estimator_spec.
Import profit_estimator.

(** The counters kept by the estimator loops are consistent. *)
Definition counters_ok (acc : Accumulators) : Prop :=
  0 <= a_priced_tokens acc <= a_total_tokens acc /\
  0 <= a_total_inner_inst acc /\
  Z.of_nat (length (a_unique_mints acc)) <= a_total_tokens acc.

(** The sub-metrics lie in their ranges. *)
Definition reasons_in_range (cr : ConfidenceReasons) : Prop :=
  (0 <= price_coverage cr <= 1)%Q /\
  (0 <= route_complexity cr <= 10)%Q /\
  (fee_completeness cr = 0%Q \/ fee_completeness cr = 1%Q) /\
  (balance_alignment cr = (1 # 2)%Q \/ balance_alignment cr = 1%Q) /\
  0 <= priced_tokens cr <= total_tokens cr /\
  0 <= unique_mints cr <= total_tokens cr /\
  0 <= total_inner_inst cr.

(** The label in terms of the sub-metrics: one point is lost on pricing
    (coverage below 0.7 or route complexity above 5), one on accounting
    (fee unknown or balance not aligned). *)
Definition label_spec (label : string) (cr : ConfidenceReasons) : Prop :=
  let pricing_ok := (7 # 10 <= price_coverage cr)%Q /\ (route_complexity cr <= 5)%Q in
  let accounting_ok := fee_completeness cr = 1%Q /\ balance_alignment cr = 1%Q in
  (label = "high" <-> pricing_ok /\ accounting_ok) /\
  (label = "low" <-> ~ pricing_ok /\ ~ accounting_ok) /\
  (label = "high" \/ label = "med" \/ label = "low").

(** The fields on which the two estimator loops agree. *)
Definition same_books (a b : Accumulators) : Prop :=
  a_profit a = a_profit b /\ a_cache a = a_cache b /\
  a_fee_total a = a_fee_total b /\ a_token_delta_sum a = a_token_delta_sum b /\
  a_total_tokens a = a_total_tokens b /\ a_unique_mints a = a_unique_mints b.

End estimator_spec.

(** ** [src/profit_estimator.py]: the token records as the RPC answers
    them

    [TokenBalance] above is what [parse_token_balance] returns.  The
    records of [preTokenBalances] and [postTokenBalances] are JSON
    objects, and parsing one can raise. *)

Module token_records.
Import profit_estimator.

(** A number read with [.get(key, default)] and converted with
    [float()] or [int()]. *)
Inductive json_number (A : Type) :=
| Missing
    (** the key is missing: the default is converted *)
| Refused
    (** null, or another value on which the conversion raises *)
| Number (a : A).

Arguments Missing {A}.
Arguments Refused {A}.
Arguments Number {A} a.

(** A token record: [owner] and [mint] (the empty string when missing),
    and the [uiAmount] and [decimals] of its [uiTokenAmount] object
    (both missing when that object is missing or null). *)
Record TokenInfo := {
  info_owner : string;
  info_mint : string;
  info_uiAmount : json_number Q;
  info_decimals : json_number Z
}.

(** [float(d.get(key, default))] and [int(d.get(key, default))];
    [None] stands for the [TypeError] or [ValueError] raised. *)
Definition convert {A : Type} (default : A) (x : json_number A) : option A :=
  match x with
  | Missing => Some default
  | Refused => None
  | Number a => Some a
  end.

(** [parse_token_balance] *)
Definition parse_token_balance (token_info : TokenInfo) : option TokenBalance :=
  match convert 0%Q (info_uiAmount token_info) with
  | None => None
  | Some amount =>
      match convert 0 (info_decimals token_info) with
      | None => None
      | Some decimals =>
          Some {| owner := info_owner token_info; mint := info_mint token_info;
                  uiAmount := amount; decimals := decimals |}
      end
  end.

(** The records of a list parsed in order; the first one that raises
    ends the loop. *)
Fixpoint parse_all (tokens : list TokenInfo) : option (list TokenBalance) :=
  match tokens with
  | [] => Some []
  | token :: rest =>
      match parse_token_balance token with
      | None => None
      | Some t =>
          match parse_all rest with
          | None => None
          | Some ts => Some (t :: ts)
          end
      end
  end.

(** [estimate_token_delta] on the records as they come: each of its two
    loops parses every record, the wallet's or not, before it looks at
    the owner; the price look-ups come after both loops. *)
Definition estimate_token_delta_raw (env : oracles) (now : Q)
    (pre_tokens post_tokens : list TokenInfo) (wallet : string)
    (price_cache : TokenPriceCache) : option (Q * Q * TokenPriceCache) :=
  match parse_all pre_tokens with
  | None => None
  | Some pre =>
      match parse_all post_tokens with
      | None => None
      | Some post => Some (estimate_token_delta env now pre post wallet price_cache)
      end
  end.

(** The records owned by the wallet. *)
Definition owned_by (wallet : string) (tokens : list TokenInfo) : list TokenInfo :=
  filter (fun t => String.eqb (info_owner t) wallet = true) tokens.

End token_records.

Module alert_engine.
Import profit_estimator wallet_monitor.

(** [new_sigs] of a batch: its non-empty signature ids. *)
Definition batch_sigs (batch : list SigInfo) : list string :=
  omap (fun s => truthy_str (signature s)) batch.

(** The reasons recorded in [_blocked_alerts]. *)
Definition block_reasons : list string :=
  ["wallet_filtered"; "profit_below_threshold"; "confidence_too_low"; "cooldown"].

(** The batch left an alert: one record more in [alerts], the wallet's
    cooldown restarted at [now]. *)
Definition alerted (st st' : State) (wallet : string) (now : Q) (primary_sig : string)
    : Prop :=
  exists a,
    alerts st' = alerts st ++ [a] /\
    _blocked_alerts st' = _blocked_alerts st /\
    dict_get a "wallet" = Some (PyStr wallet) /\
    dict_get a "signature" = Some (PyStr primary_sig) /\
    _last_alert_at st' !! wallet = Some now.

(** The batch was blocked: one record more in [_blocked_alerts], with a
    reason; alerts, cooldowns and seen signatures untouched. *)
Definition blocked (st st' : State) (wallet : string) : Prop :=
  exists b reason,
    _blocked_alerts st' = _blocked_alerts st ++ [b] /\
    dict_get b "wallet" = Some (PyStr wallet) /\
    dict_get b "reason" = Some (PyStr reason) /\
    reason ∈ block_reasons /\
    alerts st' = alerts st /\
    alerts_queue st' = alerts_queue st /\
    _last_alert_at st' = _last_alert_at st /\
    _seen_signatures st' = _seen_signatures st /\
    _profit_history st' = _profit_history st.

(** Nothing but the price cache changed. *)
Definition untouched (st st' : State) : Prop :=
  alerts st' = alerts st /\ alerts_queue st' = alerts_queue st /\
  _blocked_alerts st' = _blocked_alerts st /\
  _last_alert_at st' = _last_alert_at st /\
  _seen_signatures st' = _seen_signatures st /\
  _profit_history st' = _profit_history st.

(** The bounds that the engine keeps on its in-memory state: the API
    queue holds at most 1000 alerts, a profit history at most 50 values
    ([deque(maxlen=50)]), the seen set at most [MAX_SEEN_SIGNATURES]
    signatures. *)
Definition bounded (cfg : AlertConfig) (st : State) : Prop :=
  (length (default [] (alerts_queue st)) <= 1000)%nat /\
  (forall w history, _profit_history st !! w = Some history -> (length history <= 50)%nat) /\
  (length (_seen_signatures st) <= MAX_SEEN_SIGNATURES cfg)%nat.

(** The seen set is in the order of its timestamps, oldest first. *)
Fixpoint sorted_by_time (seen : list (string * Q)) : Prop :=
  match seen with
  | [] => True
  | p :: rest => Forall (fun q => (snd p <= snd q)%Q) rest /\ sorted_by_time rest
  end.

(** The sort key of [build_signature_batches]: [slot or 0]. *)
Definition slot_key (s : SigInfo) : Z := default 0 (slot s).

(** No entry of a later batch has a greater slot key than an entry of an
    earlier batch. *)
Fixpoint newest_first (batches : list (list SigInfo)) : Prop :=
  match batches with
  | [] => True
  | b :: rest =>
      Forall (fun b' => forall x x', x ∈ b -> x' ∈ b' -> slot_key x' <= slot_key x) rest
      /\ newest_first rest
  end.

(** The groups of [build_signature_batches] hold entries of their slot. *)
Definition well_grouped (grouped : list (option Z * list SigInfo)) : Prop :=
  Forall (fun kv => Forall (fun x => slot x = fst kv) (snd kv)) grouped.

(** The groups are in decreasing order of [key or 0]. *)
Fixpoint groups_desc (grouped : list (option Z * list SigInfo)) : Prop :=
  match grouped with
  | [] => True
  | kv :: rest =>
      Forall (fun kv' => default 0 (fst kv') <= default 0 (fst kv)) rest /\ groups_desc rest
  end.

(** The labels of [PROGRAM_MAP] that name a DEX or a marketplace. *)
Definition dex_labels : list string :=
  ["Jupiter"; "Raydium"; "OpenBook"; "Orca"; "Tensor"; "MagicEden"].

(** How many programs of the list carry the label. *)
Definition occurrences (label : string) (programs : list string) : Z :=
  Z.of_nat (length (filter (fun p => program_label p = label) programs)).

(** A [Counter] in insertion order holds the tally of [labels]. *)
Definition tallies (counts : list (string * Z)) (labels : list string) : Prop :=
  NoDup (map fst counts) /\
  forall k n, (k, n) ∈ counts <->
              n = Z.of_nat (length (filter (fun x => x = k) labels)) /\ 0 < n.

End alert_engine.

Module api_routes.
Import api_auth rate_limiter api_service.

(** [path.split("/")[-1]]: what follows the last slash. *)
Fixpoint last_segment_from (acc path : string) : string :=
  match path with
  | EmptyString => acc
  | String c rest =>
      if Ascii.eqb c "/"%char then last_segment_from EmptyString rest
      else last_segment_from (String.append acc (String c EmptyString)) rest
  end.

Definition last_segment (path : string) : string := last_segment_from EmptyString path.

(** [_handle_wallet_score] *)
Definition _handle_wallet_score (db : database) (rate_limiter : RateLimiter)
    (path : string) (now : Q) (x_api_key : option string) : Response * RateLimiter :=
  match _authenticate db now x_api_key with
  | None =>
      ({| status_code := 401;
          headers := [("Content-type", "application/json")];
          body := json_dumps [("error", PyStr "Unauthorized")] |}, rate_limiter)
  | Some (api_key, tier, is_active) =>
      let key_hash := hash_key api_key in
      let '((allowed, remaining, limit), rate_limiter) :=
        check_limit rate_limiter now key_hash tier in
      if negb allowed
      then
        ({| status_code := 429;
            headers := [("Content-type", "application/json");
                        ("X-RateLimit-Remaining", "0");
                        ("X-RateLimit-Limit", str limit)];
            body := json_dumps [("error", PyStr "Rate limit exceeded")] |}, rate_limiter)
      else
        let wallet_address := last_segment path in
        ({| status_code := 200;
            headers := [("Content-type", "application/json");
                        ("X-RateLimit-Remaining", str remaining);
                        ("X-RateLimit-Limit", str limit)];
            body := json_dumps
                      [("wallet", PyStr wallet_address);
                       ("tier", PyStr tier);
                       ("score", PyDict [("z_score", PyFloat 0); ("win_rate", PyFloat 0);
                                         ("net_total", PyFloat 0)])] |}, rate_limiter)
  end.

(** [_handle_healthz] *)
Definition _handle_healthz : Response :=
  {| status_code := 200;
     headers := [("Content-type", "application/json")];
     body := json_dumps [("status", PyStr "OK")] |}.

(** A GET request: the instant it is handled, its path and its
    [x-api-key] header. *)
Record request := {
  r_now : Q;
  r_path : string;
  r_key : option string
}.

(** The path is served by one of the two handlers behind the rate
    limiter. *)
Definition data_endpoint (path : string) : bool :=
  negb (String.eqb path "/healthz")
  && (String.prefix "/api/v1/signals" path || String.prefix "/api/v1/wallet/" path).

(** [do_GET] *)
Definition do_GET (db : database) (rate_limiter : RateLimiter) (alerts_queue : list pydict)
    (req : request) : Response * RateLimiter :=
  if String.eqb (r_path req) "/healthz" then (_handle_healthz, rate_limiter)
  else if String.prefix "/api/v1/signals" (r_path req)
  then _handle_signals db rate_limiter alerts_queue (r_now req) (r_key req)
  else if String.prefix "/api/v1/wallet/" (r_path req)
  then _handle_wallet_score db rate_limiter (r_path req) (r_now req) (r_key req)
  else ({| status_code := 404; headers := []; body := NoBody |}, rate_limiter).

(** The handler thread: requests served one after the other on the
    shared limiter; the alert queue may change between requests. *)
Fixpoint serve (db : database) (rate_limiter : RateLimiter)
    (reqs : list (request * list pydict)) : list Response * RateLimiter :=
  match reqs with
  | [] => ([], rate_limiter)
  | (req, alerts_queue) :: rest =>
      let '(resp, rate_limiter) := do_GET db rate_limiter alerts_queue req in
      let '(resps, rate_limiter) := serve db rate_limiter rest in
      (resp :: resps, rate_limiter)
  end.

(** The data requests answered 200 for key hash [h] during UTC day [d]. *)
Fixpoint served (db : database) (rate_limiter : RateLimiter)
    (reqs : list (request * list pydict)) (h : string) (d : Z) : nat :=
  match reqs with
  | [] => 0%nat
  | (req, alerts_queue) :: rest =>
      let '(resp, rate_limiter) := do_GET db rate_limiter alerts_queue req in
      ((if data_endpoint (r_path req)
           && (status_code resp =? 200)%Z
           && bool_decide (hash_key <$> r_key req = Some h)
           && (utc_day (r_now req) =? d)%Z
        then 1 else 0) + served db rate_limiter rest h d)%nat
  end.

(** The clock never goes back between consecutive requests. *)
Fixpoint requests_in_order (prev : Q) (reqs : list (request * list pydict)) : bool :=
  match reqs with
  | [] => true
  | (req, _) :: rest => Qleb prev (r_now req) && requests_in_order (r_now req) rest
  end.

(** The tier stored for a key hash ([free] when the hash is unknown). *)
Definition tier_of (db : database) (h : string) : string :=
  match find (fun r => String.eqb (key_hash r) h) (api_keys db) with
  | Some row => tier row
  | None => "free"
  end.

(** The [check_limit] call that a request leads to: none for a path that
    is not behind the limiter and for an unauthenticated request. *)
Definition limiter_call (db : database) (req : request) : option call :=
  if data_endpoint (r_path req)
  then match _authenticate db (r_now req) (r_key req) with
       | Some (api_key, tier, _) =>
           Some {| c_now := r_now req; c_hash := hash_key api_key; c_tier := tier |}
       | None => None
       end
  else None.

End api_routes.

Module rpc_calls.
Import rpc_manager.

(** The calls that change an [AsyncRpcManager]. *)
Inductive rpc_op :=
| AllowRequest (now : Q) (endpoint : string)
| RecordFailure (now : Q) (endpoint : string)
| RecordSuccess (endpoint : string)
| Rotate.

Definition apply_rpc_op (cfg : RpcConfig) (self : AsyncRpcManager) (op : rpc_op)
    : AsyncRpcManager :=
  match op with
  | AllowRequest now endpoint => snd (_allow_request cfg self now endpoint)
  | RecordFailure now endpoint => _record_failure cfg self now endpoint
  | RecordSuccess endpoint => _record_success self endpoint
  | Rotate => _rotate self
  end.

Definition op_endpoint (op : rpc_op) : option string :=
  match op with
  | AllowRequest _ endpoint => Some endpoint
  | RecordFailure _ endpoint => Some endpoint
  | RecordSuccess endpoint => Some endpoint
  | Rotate => None
  end.

(** [_current_endpoint]: [self.endpoints[self.index]]; [None] stands for
    [IndexError]. *)
Definition _current_endpoint (self : AsyncRpcManager) : option string :=
  endpoints self !! index self.

(** What one POST of [_call_jsonrpc] comes to: a 200 answer without
    ["error"], a 200 answer with ["error"], or anything else (another
    status, a timeout, an exception). *)
Inductive outcome :=
| Answer (data : pyval)
| JsonError
| Failed.

(** What [_call_jsonrpc] reads from outside: the outcome of the POST of
    each attempt, the clock when the attempt asks [_allow_request], when
    its failure is recorded and when its back-off sleep ends, and the
    clock when the call starts. *)
Record CallEnv := {
  post : nat -> string -> outcome;
  time_at : nat -> Q;
  time_failed : nat -> Q;
  time_after : nat -> Q;
  start_time : Q
}.

Inductive call_result :=
| Returned (r : option pyval)
| IndexError.

(** The [for attempt in range(RPC_MAX_RETRIES)] loop of [_call_jsonrpc]
    (HTTP mode, session open), from attempt number [attempt] with
    [retries] attempts left; the result comes with the manager as the
    call leaves it and the POSTs made, each with its attempt number.
    The attribute [self.failures], a counter that nothing reads, is left
    out. *)
Fixpoint call_loop (cfg : RpcConfig) (env : CallEnv) (timeout : Q) (retries attempt : nat)
    (self : AsyncRpcManager) : call_result * AsyncRpcManager * list (nat * string) :=
  match retries with
  | O => (Returned None, self, [])
  | S retries =>
      match _current_endpoint self with
      | None => (IndexError, self, [])
      | Some endpoint =>
          let '(allowed, self) := _allow_request cfg self (time_at env attempt) endpoint in
          if negb allowed
          then call_loop cfg env timeout retries (S attempt) (_rotate self)
          else
            match post env attempt endpoint with
            | Answer data =>
                (Returned (Some data), _record_success self endpoint, [(attempt, endpoint)])
            | JsonError =>
                (Returned None, _record_failure cfg self (time_failed env attempt) endpoint,
                 [(attempt, endpoint)])
            | Failed =>
                let self := _record_failure cfg self (time_failed env attempt) endpoint in
                if Qleb timeout (time_after env attempt - start_time env)
                then (Returned None, self, [(attempt, endpoint)])
                else
                  let '(r, self, posts) :=
                    call_loop cfg env timeout retries (S attempt) self in
                  (r, self, (attempt, endpoint) :: posts)
            end
      end
  end.

(** [_call_jsonrpc] *)
Definition _call_jsonrpc (cfg : RpcConfig) (RPC_MAX_RETRIES : nat) (env : CallEnv)
    (timeout : Q) (self : AsyncRpcManager)
    : call_result * AsyncRpcManager * list (nat * string) :=
  call_loop cfg env timeout RPC_MAX_RETRIES 0 self.

(** The current endpoint exists. *)
Definition well_formed (self : AsyncRpcManager) : Prop :=
  (index self < length (endpoints self))%nat.

(** The POSTs of a call and its result fit together: every POST but the
    last failed, and the last one decides the result. *)
Definition consistent (env : CallEnv) (r : call_result) (posts : list (nat * string))
    : Prop :=
  match reverse posts with
  | [] => r = Returned None
  | (i, e) :: earlier =>
      Forall (fun p => post env (fst p) (snd p) = Failed) earlier /\
      r = match post env i e with
          | Answer data => Returned (Some data)
          | _ => Returned None
          end
  end.

End rpc_calls.

Module watchlist_lru.
Import wallet_monitor.

(** The ordered dict [_watchlist_usage] (least recently used first) and
    the list [watchlist] that the scans share. *)
Record Watch := {
  _watchlist_usage : list (string * Q);
  watchlist : list string
}.

(** [register_watchlist_access] *)
Definition register_watchlist_access (w : Watch) (now : Q) (wallet : string) : Watch :=
  {| _watchlist_usage := seen_put (_watchlist_usage w) wallet now;
     watchlist := if bool_decide (wallet ∈ watchlist w) then watchlist w
                  else watchlist w ++ [wallet] |}.

(** [list.remove(x)]: the first occurrence goes ([x] is known to be in
    the list where the code calls it). *)
Fixpoint list_remove (x : string) (l : list string) : list string :=
  match l with
  | [] => []
  | y :: rest => if String.eqb y x then rest else y :: list_remove x rest
  end.

(** The loop of [evict_watchlist_if_needed], on the usage entries still
    to pop. *)
Fixpoint evict_loop (WATCHLIST_MAX_SIZE : nat) (usage : list (string * Q))
    (watchlist : list string) : list (string * Q) * list string :=
  match usage with
  | [] => ([], watchlist)
  | (oldest_wallet, _) :: rest =>
      if (WATCHLIST_MAX_SIZE <? length watchlist)%nat
      then evict_loop WATCHLIST_MAX_SIZE rest
             (if bool_decide (oldest_wallet ∈ watchlist)
              then list_remove oldest_wallet watchlist else watchlist)
      else (usage, watchlist)
  end.

(** [evict_watchlist_if_needed] *)
Definition evict_watchlist_if_needed (WATCHLIST_MAX_SIZE : nat) (w : Watch) : Watch :=
  let '(usage, watchlist) :=
    evict_loop WATCHLIST_MAX_SIZE (_watchlist_usage w) (watchlist w) in
  {| _watchlist_usage := usage; watchlist := watchlist |}.

(** Every watched wallet is tracked in the usage dict, once. *)
Definition tracked (w : Watch) : Prop :=
  NoDup (watchlist w) /\ forall x, x ∈ watchlist w -> x ∈ map fst (_watchlist_usage w).

End watchlist_lru.

(** ** [src/copy_trader.py]

    The sqlite file [copy_trader.db] after [init_copy_trader_db]: the
    [positions] table in rowid order and the single row of [balance]
    ([None] when the row is missing). *)

Module copy_trader.

Definition INITIAL_BALANCE : Q := 10.
Definition SLIPPAGE_PCT : Q := 5 # 10.
Definition FEE_PCT : Q := 1 # 10.

Record BalanceRow := {
  total_sol : Q;
  locked_sol : Q;
  available_sol : Q;
  total_pnl_sol : Q;
  total_trades : Z;
  winning_trades : Z;
  losing_trades : Z
}.

Record PositionRow := {
  id : Z;
  wallet : string;
  alert_timestamp : Q;
  alert_profit : Q;
  alert_signature : string;
  entry_price_sol : Q;
  entry_amount_sol : Q;
  entry_fee : Q;
  status : string
}.

Record Book := {
  balance : option BalanceRow;
  positions : list PositionRow
}.

(** [get_balance] *)
Definition get_balance (book : Book) : BalanceRow :=
  match balance book with
  | None =>
      {| total_sol := INITIAL_BALANCE; locked_sol := 0; available_sol := INITIAL_BALANCE;
         total_pnl_sol := 0; total_trades := 0; winning_trades := 0; losing_trades := 0 |}
  | Some row => row
  end.

(** [update_balance]: the UPDATE touches the row [id = 1] if there is
    one. *)
Definition update_balance (book : Book) (locked_sol available_sol pnl_delta : Q)
    (is_win : option bool) : Book :=
  {| balance :=
       match balance book with
       | None => None
       | Some row =>
           let total_sol := (total_sol row + pnl_delta)%Q in
           let total_pnl := (total_pnl_sol row + pnl_delta)%Q in
           let total_trades :=
             if is_win is Some _ then total_trades row + 1 else total_trades row in
           let winning_trades :=
             if is_win is Some true then winning_trades row + 1 else winning_trades row in
           let losing_trades :=
             if is_win is Some false then losing_trades row + 1 else losing_trades row in
           Some {| total_sol := total_sol; locked_sol := locked_sol;
                   available_sol := available_sol; total_pnl_sol := total_pnl;
                   total_trades := total_trades; winning_trades := winning_trades;
                   losing_trades := losing_trades |}
       end;
     positions := positions book |}.

(** The amount that [open_position] commits. *)
Definition position_size (available position_size_pct : Q) : Q :=
  let position_size := (available * (position_size_pct / 100))%Q in
  let position_size := Qmin position_size (available * (5 # 10)) in
  Qmax position_size (1 # 10).

(** [open_position]: the id of the new position, or [None]. *)
Definition open_position (book : Book) (now : Q) (wallet : string) (alert_profit : Q)
    (alert_signature : string) (entry_price_sol position_size_pct : Q)
    : option Z * Book :=
  let balance := get_balance book in
  let available := available_sol balance in
  if Qltb available (1 # 10) then (None, book)
  else
    let position_size := position_size available position_size_pct in
    let slippage := (position_size * (SLIPPAGE_PCT / 100))%Q in
    let entry_fee := (position_size * (FEE_PCT / 100))%Q in
    let actual_entry := (position_size - slippage - entry_fee)%Q in
    if Qltb actual_entry (1 # 100) then (None, book)
    else
      let position_id := Z.of_nat (length (positions book)) + 1 in
      let book :=
        {| copy_trader.balance := copy_trader.balance book;
           positions :=
             positions book ++
             [ {| id := position_id; wallet := wallet; alert_timestamp := now;
                  alert_profit := alert_profit; alert_signature := alert_signature;
                  entry_price_sol := entry_price_sol; entry_amount_sol := actual_entry;
                  entry_fee := entry_fee; status := "open" |} ] |} in
      let locked := (locked_sol balance + position_size)%Q in
      let available_new := (available_sol balance - position_size)%Q in
      (Some position_id, update_balance book locked available_new 0 None).

(** [on_alert] *)
Definition on_alert (book : Book) (now : Q) (wallet : string) (alert_profit : Q)
    (alert_signature : string) : option Z * Book :=
  let position_size_pct :=
    if Qleb 5 alert_profit then 20%Q
    else if Qleb 2 alert_profit then 15%Q
    else 10%Q in
  let entry_price := 1%Q in
  open_position book now wallet alert_profit alert_signature entry_price position_size_pct.

(** An alert handed to [on_alert]. *)
Record alert := { a_now : Q; a_wallet : string; a_profit : Q; a_signature : string }.

Definition on_alerts (book : Book) (alerts : list alert) : Book :=
  fold_left (fun book a => snd (on_alert book (a_now a) (a_wallet a) (a_profit a)
                                         (a_signature a))) alerts book.

(** The balance row is there and neither amount is negative. *)
Definition solvent (book : Book) : Prop :=
  exists row, balance book = Some row /\
              (0 <= available_sol row)%Q /\ (0 <= locked_sol row)%Q.

(** From [book] to [book']: the available amount did not grow, the
    locked amount did not shrink, the total, the realised profit and
    the trade counters are as they were. *)
Definition committed_only (book book' : Book) : Prop :=
  exists row row',
    balance book = Some row /\ balance book' = Some row' /\
    (available_sol row' <= available_sol row)%Q /\
    (locked_sol row <= locked_sol row')%Q /\
    (total_sol row' == total_sol row)%Q /\
    (total_pnl_sol row' == total_pnl_sol row)%Q /\
    total_trades row' = total_trades row /\
    winning_trades row' = winning_trades row /\
    losing_trades row' = losing_trades row.

End copy_trader.
(** * Verified properties *)

(** ** Rational arithmetic facts *)

Lemma Qltb_lt (a b : Q) : Qltb a b = true <-> (a < b)%Q.
Proof.
  unfold Qltb. rewrite negb_true_iff. split.
  - intros H. apply Qnot_le_lt. intros Hle. apply Qle_bool_iff in Hle. congruence.
  - intros H. destruct (Qle_bool b a) eqn:E; [|reflexivity].
    apply Qle_bool_iff in E. exfalso. apply (Qlt_not_le _ _ H E).
Qed.

Lemma Qleb_le (a b : Q) : Qleb a b = true <-> (a <= b)%Q.
Proof. apply Qle_bool_iff. Qed.

Lemma Qfloor_lt_inject (x : Q) (k : Z) : (x < inject_Z k)%Q <-> Qfloor x < k.
Proof.
  split.
  - intros H. rewrite Zlt_Qlt. eapply Qle_lt_trans; [apply Qfloor_le | exact H].
  - intros H. eapply Qlt_le_trans; [apply Qlt_floor|].
    rewrite <- Zle_Qle. lia.
Qed.

(** ** The digest agrees with the reference vectors *)

Example sha256_abc :
  hashlib.sha256_hexdigest "abc"
  = "ba7816bf8f01cfea414140de5dae2223b00361a396177a9cb410ff61f20015ad".
Proof. vm_compute. reflexivity. Qed.

Example sha256_two_blocks :
  hashlib.sha256_hexdigest
    "aaaaaaaaaaaaaaaaaaaaaaaaaaaaaaaaaaaaaaaaaaaaaaaaaaaaaaaaaaaaaaaaaaaaaa"
  = "6bd5e5034855a11241f0dee8fc72850ffd9955b28347a86428b5fa19119f6ad0".
Proof. vm_compute. reflexivity. Qed.

Module rate_limiter_facts.
Import rate_limiter.

Lemma scale_day (x : Q) (k : Z) :
  (x < inject_Z (86400 * k))%Q <-> (x / 86400 < inject_Z k)%Q.
Proof.
  rewrite inject_Z_mult.
  rewrite <- (Qmult_lt_r (x / 86400) (inject_Z k) (inject_Z 86400)) by reflexivity.
  assert (E : (x / 86400 * inject_Z 86400 == x)%Q) by (field; discriminate).
  rewrite E, (Qmult_comm (inject_Z k)). reflexivity.
Qed.

(** The reset time is the same for all the instants of one UTC day. *)
Lemma reset_time_same_day (self : RateLimiter) (a b : Q) :
  utc_day a = utc_day b -> _get_reset_time self a = _get_reset_time self b.
Proof. intros E. unfold _get_reset_time. rewrite E. reflexivity. Qed.

(** On a host that runs in UTC the roll-over test of [check_limit]
    compares UTC days. *)
Lemma reset_test_days (self : RateLimiter) (last_reset now : Q) :
  (utcoffset self (utc_day now) == 0)%Q ->
  Qltb last_reset (_get_reset_time self now) = true <-> utc_day last_reset < utc_day now.
Proof.
  intros Hutc. rewrite Qltb_lt. unfold _get_reset_time, day_reset.
  transitivity (last_reset < inject_Z (86400 * utc_day now))%Q.
  - split; intros H; lra.
  - rewrite scale_day. apply Qfloor_lt_inject.
Qed.

Lemma utc_day_mono (a b : Q) : (a <= b)%Q -> utc_day a <= utc_day b.
Proof.
  intros H. unfold utc_day. apply Qfloor_resp_le.
  apply Qmult_le_compat_r; [exact H | discriminate].
Qed.

Lemma Qltb_irrefl (a : Q) : Qltb a a = false.
Proof.
  destruct (Qltb a a) eqn:E; [|reflexivity].
  apply Qltb_lt in E. exfalso. apply (Qlt_irrefl a E).
Qed.

End rate_limiter_facts.

Module rate_limiter_proofs.
Import rate_limiter rate_limiter_facts.

(** The reset instant that [check_limit] stores is never before the
    reset time of the call. *)
Lemma current_reset_not_rolled (self : RateLimiter) (now : Q) (h : string) :
  Qltb (current_reset self now h) (_get_reset_time self now) = false.
Proof.
  unfold current_reset. cbv zeta.
  set (lr := match _counters self !! h with Some (_, last_reset) => last_reset | None => now end).
  destruct (Qltb lr (_get_reset_time self now)) eqn:E; [apply Qltb_irrefl | exact E].
Qed.

Lemma check_limit_eq (self : RateLimiter) (now : Q) (h tier : string) :
  check_limit self now h tier =
    let limit := limits_get (limits self) tier in
    let cur := current_count self now h in
    ((cur <? limit, Z.max 0 (limit - cur), limit),
     {| limits := limits self;
        _counters := <[h := (if cur <? limit then cur + 1 else cur,
                             current_reset self now h)]> (_counters self);
        utcoffset := utcoffset self |}).
Proof.
  unfold check_limit, current_count, current_reset, counters_getitem.
  destruct (_counters self !! h) as [[count last_reset]|].
  - destruct (Qltb last_reset (_get_reset_time self now)); reflexivity.
  - destruct (Qltb now (_get_reset_time self now)); reflexivity.
Qed.

Lemma current_count_cases (self : RateLimiter) (now : Q) (h : string) :
  match _counters self !! h with
  | None => current_count self now h = 0
  | Some (c, lr) =>
      (Qltb lr (_get_reset_time self now) = true /\ current_count self now h = 0 /\
       current_reset self now h = _get_reset_time self now) \/
      (Qltb lr (_get_reset_time self now) = false /\ current_count self now h = c /\
       current_reset self now h = lr)
  end.
Proof.
  unfold current_count, current_reset.
  destruct (_counters self !! h) as [[c lr]|]; [|auto].
  destruct (Qltb lr (_get_reset_time self now)) eqn:E; auto.
Qed.

Lemma day_invariant_step (zone : Z -> Q) (cfg : ApiConfig) (h tr : string) (d : Z)
    (cnt : gmap string (Z * Q)) (T : Q) (n : nat) (c : call) :
  day_invariant zone cfg h tr d cnt T n ->
  (T <= c_now c)%Q ->
  (c_hash c = h -> c_tier c = tr) ->
  let r := check_limit {| limits := cfg; _counters := cnt; utcoffset := zone |}
             (c_now c) (c_hash c) (c_tier c) in
  limits (snd r) = cfg /\ utcoffset (snd r) = zone /\
  day_invariant zone cfg h tr d (_counters (snd r)) (c_now c)
    (n + (if fst (fst (fst r)) && String.eqb (c_hash c) h && (utc_day (c_now c) =? d)%Z
          then 1 else 0))%nat.
Proof.
  intros [HnL Hinv] HT Htier. rewrite check_limit_eq.
  cbn [fst snd limits _counters utcoffset].
  split; [reflexivity|]. split; [reflexivity|].
  pose proof (utc_day_mono _ _ HT) as Hday.
  set (self := {| limits := cfg; _counters := cnt; utcoffset := zone |}).
  destruct (String.eqb_spec (c_hash c) h) as [Heq|Hne].
  - specialize (Htier Heq). rewrite Htier, Heq.
    pose proof (current_count_cases self (c_now c) h) as Hc.
    pose proof (current_reset_not_rolled self (c_now c) h) as Hrst.
    cbn [_counters self] in Hc.
    unfold day_invariant. rewrite lookup_insert_eq.
    set (cur := current_count _ _ _) in *. set (rst := current_reset _ _ _) in *.
    set (L := limits_get cfg tr) in *.
    assert (Hsame : utc_day (c_now c) = d ->
                    _get_reset_time self (c_now c) = day_reset zone d).
    { intros <-. reflexivity. }
    destruct (cnt !! h) as [[c0 lr]|].
    + destruct Hinv as (Hc0 & Hbefore & Hduring).
      destruct (Z.eqb_spec (utc_day (c_now c)) d) as [Hd|Hd].
      * rewrite (Hsame Hd) in Hc, Hrst.
        assert (Hn : n = 0%nat \/ (Z.of_nat n <= c0 /\ Qltb lr (day_reset zone d) = false)).
        { destruct (Z_lt_le_dec (utc_day T) d) as [Hlt|Hge]; [left; auto|].
          apply Hduring. lia. }
        destruct Hc as [(Hroll & Hcur & _)|(Hroll & Hcur & _)]; rewrite Hcur;
          destruct Hn as [Hn|[Hn Hkeep]]; try congruence;
          destruct (Z.ltb_spec 0 L); try destruct (Z.ltb_spec c0 L);
          cbn [andb]; (split; [lia|]); (split; [lia|]);
          (split; [intros; lia|]); intros _; right; (split; [lia | exact Hrst]).
      * rewrite andb_false_r. cbn [andb]. rewrite Nat.add_0_r.
        assert (Hcur : 0 <= cur <= Z.max 0 L).
        { destruct Hc as [(_ & -> & _)|(_ & -> & _)]; lia. }
        split; [exact HnL|].
        split; [destruct (Z.ltb_spec cur L); lia|].
        split; [|intros; lia].
        intros Hlt. apply Hbefore. lia.
    + subst n. destruct (Z.eqb_spec (utc_day (c_now c)) d) as [Hd|Hd].
      * rewrite (Hsame Hd) in Hrst. rewrite Hc.
        destruct (Z.ltb_spec 0 L); cbn [andb];
          (split; [lia|]); (split; [lia|]); (split; [intros; lia|]); intros _;
          [right; split; [lia | exact Hrst] | left; reflexivity].
      * rewrite andb_false_r. cbn [andb]. rewrite Hc.
        split; [lia|]. split; [destruct (Z.ltb_spec 0 L); lia|].
        split; [reflexivity | intros; lia].
  - rewrite andb_false_r. cbn [andb]. rewrite Nat.add_0_r.
    unfold day_invariant. rewrite lookup_insert_ne by exact Hne.
    split; [exact HnL|].
    destruct (cnt !! h) as [[c0 lr]|]; [|exact Hinv].
    destruct Hinv as (Hc0 & Hbefore & Hduring).
    split; [exact Hc0|]. split.
    + intros Hlt. apply Hbefore. lia.
    + intros Hd. destruct (Z_lt_le_dec (utc_day T) d) as [Hlt|Hge]; [left; auto|].
      apply Hduring. lia.
Qed.

Lemma allowed_count_bound (zone : Z -> Q) (cfg : ApiConfig) (h tr : string) (d : Z)
    (calls : list call) :
  forall (cnt : gmap string (Z * Q)) (T : Q) (n : nat),
    day_invariant zone cfg h tr d cnt T n ->
    clock_chain T calls = true ->
    same_tier h tr calls = true ->
    Z.of_nat (n + allowed_count {| limits := cfg; _counters := cnt; utcoffset := zone |}
                                calls h d)
      <= Z.max 0 (limits_get cfg tr).
Proof.
  induction calls as [|c rest IH]; intros cnt T n Hinv Hclock Htier.
  - cbn [allowed_count]. rewrite Nat.add_0_r. apply Hinv.
  - cbn [clock_chain] in Hclock. apply andb_true_iff in Hclock as [HT Hclock].
    apply Qleb_le in HT.
    cbn [same_tier forallb] in Htier. apply andb_true_iff in Htier as [Hc Htier].
    assert (Hc' : c_hash c = h -> c_tier c = tr).
    { intros E. apply String.eqb_eq in E. rewrite E in Hc. cbn in Hc.
      apply String.eqb_eq. exact Hc. }
    pose proof (day_invariant_step zone cfg h tr d cnt T n c Hinv HT Hc')
      as (Hlim & Hzone & Hstep).
    cbn [allowed_count].
    destruct (check_limit {| limits := cfg; _counters := cnt; utcoffset := zone |}
                (c_now c) (c_hash c) (c_tier c))
      as [[[allowed remaining] limit] self'] eqn:E.
    cbn [fst snd] in Hlim, Hzone, Hstep.
    destruct self' as [lim' cnt' zone']. cbn [limits _counters utcoffset] in Hlim, Hzone, Hstep.
    subst lim' zone'.
    rewrite Nat.add_assoc.
    apply (IH cnt' (c_now c)); assumption.
Qed.

(** Scenario 6 of the specification: with a free-tier limit of 10, ten
    calls in a row pass and the eleventh is refused. *)
Example eleven_free_calls :
  fst (run (__init__ {| rate_limit_free := 10; rate_limit_pro := 1000;
                        rate_limit_elite := 10000 |} utc_host)
           (repeat {| c_now := 1700000000; c_hash := "k"; c_tier := "free" |} 11))
  = repeat true 10 ++ [false].
Proof. vm_compute. reflexivity. Qed.

Lemma count_after_check (self : RateLimiter) (now : Q) (h tier : string) :
  current_count (snd (check_limit self now h tier)) now h
  = if fst (fst (fst (check_limit self now h tier)))
    then current_count self now h + 1 else current_count self now h.
Proof.
  rewrite check_limit_eq. cbv zeta. cbn [fst snd].
  unfold current_count at 1. cbn [_counters]. rewrite lookup_insert_eq.
  pose proof (current_reset_not_rolled self now h) as Hnoroll.
  unfold _get_reset_time in Hnoroll |- *. cbn [utcoffset]. rewrite Hnoroll. reflexivity.
Qed.

(** The limit that [check_limit] loads is the one configured for the
    tier, the free one for a tier that is none of free, pro and elite. *)
Lemma limits_get_tiers (cfg : ApiConfig) (tier : string) :
  limits_get cfg "free" = rate_limit_free cfg /\
  limits_get cfg "pro" = rate_limit_pro cfg /\
  limits_get cfg "elite" = rate_limit_elite cfg /\
  (tier <> "free" -> tier <> "pro" -> tier <> "elite" ->
   limits_get cfg tier = rate_limit_free cfg).
Proof.
  split; [reflexivity|]. split; [reflexivity|]. split; [reflexivity|].
  intros Hf Hp He. unfold limits_get.
  destruct (String.eqb_spec tier "free"); [contradiction|].
  destruct (String.eqb_spec tier "pro"); [contradiction|].
  destruct (String.eqb_spec tier "elite"); [contradiction|]. reflexivity.
Qed.

(** One call of [check_limit], for any limiter state and any host zone:
    the request is let through iff the count that the call works with
    (the stored count, or 0 for a new key or a counter whose stored
    reset instant precedes the reset time) is strictly below the limit
    of the tier; the stored count grows by one exactly on such a
    request; the remaining quota and the limit are returned with the
    answer. *)
Lemma check_limit_per_call (self : RateLimiter) (now : Q) (h tier : string) :
  let limit := limits_get (limits self) tier in
  let cur := current_count self now h in
  let r := check_limit self now h tier in
  let allowed := fst (fst (fst r)) in
  fst r = (allowed, Z.max 0 (limit - cur), limit) /\
  (allowed = true <-> cur < limit) /\
  (exists last_reset,
      _counters (snd r) !! h = Some (if allowed then cur + 1 else cur, last_reset)) /\
  (forall count last_reset,
      _counters self !! h = Some (count, last_reset) ->
      (last_reset < _get_reset_time self now)%Q ->
      cur = 0 /\
      _counters (snd r) !! h = Some (if allowed then 1 else 0, _get_reset_time self now)) /\
  (forall count last_reset,
      _counters self !! h = Some (count, last_reset) ->
      ~ (last_reset < _get_reset_time self now)%Q ->
      cur = count /\
      _counters (snd r) !! h = Some (if allowed then count + 1 else count, last_reset)).
Proof.
  intros limit cur r allowed.
  subst r allowed. rewrite check_limit_eq. cbn [fst snd _counters]. fold limit cur.
  split; [reflexivity|].
  split; [apply Z.ltb_lt|].
  split; [eexists; apply lookup_insert_eq|].
  split.
  - intros count last_reset Hget Hlt. apply Qltb_lt in Hlt.
    rewrite lookup_insert_eq. subst cur. unfold current_count, current_reset.
    rewrite Hget, Hlt. split; reflexivity.
  - intros count last_reset Hget Hge.
    assert (E : Qltb last_reset (_get_reset_time self now) = false).
    { destruct (Qltb last_reset (_get_reset_time self now)) eqn:E; [|reflexivity].
      apply Qltb_lt in E. contradiction. }
    rewrite lookup_insert_eq. subst cur. unfold current_count, current_reset.
    rewrite Hget, E. split; reflexivity.
Qed.

(** The daily bound, whatever the zone of the host: on a limiter started
    empty and called with a clock that never goes back, the calls let
    through for one key hash (presenting one tier) during any single UTC
    day [d] number at most the tier limit (at most 0 when the configured
    limit is negative). *)
Lemma daily_quota_any_zone (zone : Z -> Q) (cfg : ApiConfig) (h tier : string)
    (calls : list call) (d : Z) :
  clock_monotone calls = true ->
  same_tier h tier calls = true ->
  Z.of_nat (allowed_count (__init__ cfg zone) calls h d) <= Z.max 0 (limits_get cfg tier).
Proof.
  intros Hclock Htier.
  destruct calls as [|c rest]; [cbn; lia|].
  change (__init__ cfg zone) with {| limits := cfg; _counters := ∅; utcoffset := zone |}.
  apply (allowed_count_bound zone cfg h tier d (c :: rest) ∅ (c_now c) 0%nat).
  - unfold day_invariant. rewrite lookup_empty. split; [cbn; lia | reflexivity].
  - cbn [clock_chain]. cbn [clock_monotone] in Hclock. rewrite Hclock.
    rewrite andb_true_r. apply Qleb_le. apply Qle_refl.
  - exact Htier.
Qed.

(** On a host that runs in UTC the reset time is the start of the
    current UTC day, and a stored counter is rolled exactly when its
    reset instant lies in an earlier UTC day. *)
Lemma utc_host_rolls_at_utc_midnight (self : RateLimiter) (now : Q) (h : string)
    (count : Z) (last_reset : Q) :
  (forall d, utcoffset self d == 0)%Q ->
  _counters self !! h = Some (count, last_reset) ->
  (_get_reset_time self now == inject_Z (86400 * utc_day now))%Q /\
  (utc_day last_reset < utc_day now -> current_count self now h = 0) /\
  (utc_day now <= utc_day last_reset -> current_count self now h = count).
Proof.
  intros Hutc Hget. split.
  - unfold _get_reset_time, day_reset. rewrite Hutc. lra.
  - unfold current_count. rewrite Hget.
    pose proof (reset_test_days self last_reset now (Hutc _)) as Htest.
    destruct (Qltb last_reset (_get_reset_time self now)).
    + split; [reflexivity|]. intros Hle. assert (utc_day last_reset < utc_day now)
        by (apply Htest; reflexivity). lia.
    + split; [|reflexivity]. intros Hlt. apply Htest in Hlt. discriminate.
Qed.

(** C5.  The counter is not reset at UTC midnight on a host whose local
    time is ahead of UTC.  [_get_reset_time] cuts [utcnow()] to midnight
    and converts the naive datetime with [timestamp()], which reads it
    as local time: on a host at UTC+1 the reset time of a UTC day is
    23:00 UTC of the day before.  With a pro limit of 2, a key first
    used at 23:30 UTC and again at 23:40 UTC is let through twice; at
    00:30 UTC of the next day the stored reset instant (23:30 UTC)
    precedes the start of the current UTC day, and no request of that
    day has been let through, yet the counter is not reset (it stays at
    2) and the request is refused with 0 remaining.  On a host that runs
    in UTC the same third request is let through. *)
Theorem quota_not_reset_on_local_time_host :
  let cfg := {| rate_limit_free := 1; rate_limit_pro := 2; rate_limit_elite := 9 |} in
  let utc_plus_1 := fun _ : Z => 3600%Q in
  let t1 := 1700004600%Q in
  let t2 := 1700005200%Q in
  let t3 := 1700008200%Q in
  let call_at := fun t => {| c_now := t; c_hash := "k"; c_tier := "pro" |} in
  let calls := [call_at t1; call_at t2; call_at t3] in
  let before := snd (run (__init__ cfg utc_plus_1) [call_at t1; call_at t2]) in
  (utc_day t1 = 19675 /\ utc_day t2 = 19675 /\ utc_day t3 = 19676) /\
  fst (run (__init__ cfg utc_plus_1) calls) = [true; true; false] /\
  allowed_count (__init__ cfg utc_plus_1) calls "k" 19676 = 0%nat /\
  _counters before !! "k" = Some (2, t1) /\
  (t1 < inject_Z (86400 * utc_day t3))%Q /\
  (_get_reset_time before t3 == inject_Z (86400 * utc_day t3) - 3600)%Q /\
  fst (check_limit before t3 "k" "pro") = (false, 0, 2) /\
  _counters (snd (check_limit before t3 "k" "pro")) !! "k" = Some (2, t1) /\
  fst (run (__init__ cfg utc_host) calls) = [true; true; true].
Proof.
  cbv zeta.
  split; [split; [|split]; vm_compute; reflexivity|].
  split; [vm_compute; reflexivity|].
  split; [vm_compute; reflexivity|].
  split; [vm_compute; reflexivity|].
  split; [vm_compute; reflexivity|].
  split; [vm_compute; reflexivity|].
  split; [vm_compute; reflexivity|].
  split; vm_compute; reflexivity.
Qed.

End rate_limiter_proofs.

Module rpc_manager_proofs.
Import rpc_manager.

Lemma getitem_set (m : AsyncRpcManager) (e : string) (s : CircuitState) :
  circuit_getitem (set_circuit m e s) e = s.
Proof. unfold circuit_getitem, set_circuit. cbn. rewrite lookup_insert_eq. reflexivity. Qed.

Lemma getitem_set_ne (m : AsyncRpcManager) (e e' : string) (s : CircuitState) :
  e <> e' -> circuit_getitem (set_circuit m e s) e' = circuit_getitem m e'.
Proof.
  intros H. unfold circuit_getitem, set_circuit. cbn.
  rewrite lookup_insert_ne by exact H. reflexivity.
Qed.

Lemma getitem_rotate (m : AsyncRpcManager) (e : string) :
  circuit_getitem (_rotate m) e = circuit_getitem m e.
Proof. unfold _rotate. destruct (length (endpoints m) <=? 1)%nat; reflexivity. Qed.

Lemma record_failure_getitem (cfg : RpcConfig) (m : AsyncRpcManager) (now : Q) (e : string) :
  let st := circuit_getitem m e in
  circuit_getitem (_record_failure cfg m now e) e =
    if RPC_CIRCUIT_BREAKER_FAILURES cfg <=? failures st + 1
    then {| failures := failures st + 1; opened_at := now; state := open |}
    else {| failures := failures st + 1; opened_at := opened_at st; state := state st |}.
Proof.
  cbn. unfold _record_failure.
  destruct (RPC_CIRCUIT_BREAKER_FAILURES cfg <=? failures (circuit_getitem m e) + 1).
  - rewrite getitem_rotate, getitem_set. reflexivity.
  - rewrite getitem_set. reflexivity.
Qed.

Lemma record_failures_count (cfg : RpcConfig) (e : string) (ts : list Q) :
  forall m : AsyncRpcManager,
    failures (circuit_getitem (record_failures cfg m e ts) e) =
    failures (circuit_getitem m e) + Z.of_nat (length ts).
Proof.
  unfold record_failures.
  induction ts as [|t ts IH]; intros m; cbn [fold_left length].
  - lia.
  - rewrite IH, record_failure_getitem.
    destruct (RPC_CIRCUIT_BREAKER_FAILURES cfg <=? _); cbn [failures]; lia.
Qed.

Lemma record_failures_snoc (cfg : RpcConfig) (m : AsyncRpcManager) (e : string)
    (ts : list Q) (t : Q) :
  record_failures cfg m e (ts ++ [t]) = _record_failure cfg (record_failures cfg m e ts) t e.
Proof. unfold record_failures. rewrite fold_left_app. reflexivity. Qed.

(** The test of the specification's scenario 5 on the code: three
    failures open the circuit, a call inside the pause is refused, a
    call after the pause is let through. *)
Example three_failures_open :
  let cfg := {| RPC_CIRCUIT_BREAKER_FAILURES := 3; RPC_CIRCUIT_BREAKER_PAUSE_SEC := 5 |} in
  let m := record_failures cfg (__init__ ["a"; "b"]) "a" [10; 11; 12]%Q in
  state (circuit_getitem m "a") = open /\ index m = 1%nat /\
  fst (_allow_request cfg m 16 "a") = false /\
  fst (_allow_request cfg m 17 "a") = true.
Proof. vm_compute. auto. Qed.

(** C6, as the code has it.  Once the failures recorded for an endpoint
    without an intervening success reach [RPC_CIRCUIT_BREAKER_FAILURES],
    its circuit is open with [opened_at] the instant of the last failure;
    [_allow_request] refuses calls while [now - opened_at] is below the
    pause and leaves the circuit as it is; once the pause has elapsed
    [_allow_request] lets the call through and the circuit is half-open.
    A half-open circuit lets every further call through, unchanged,
    until an outcome is recorded: a success resets it to closed with
    failure count 0, a failure reverts it to open with [opened_at] the
    instant of that failure. *)
Theorem circuit_breaker_cycle (cfg : RpcConfig) (m : AsyncRpcManager) (e : string)
    (ts : list Q) (t_open now : Q) :
  RPC_CIRCUIT_BREAKER_FAILURES cfg
    <= failures (circuit_getitem m e) + Z.of_nat (length (ts ++ [t_open])) ->
  let pause := RPC_CIRCUIT_BREAKER_PAUSE_SEC cfg in
  let m_open := record_failures cfg m e (ts ++ [t_open]) in
  let st_open := circuit_getitem m_open e in
  let r := _allow_request cfg m_open now e in
  state st_open = open /\ opened_at st_open = t_open /\
  ((now - t_open < pause)%Q ->
     fst r = false /\ circuit_getitem (snd r) e = st_open) /\
  ((pause <= now - t_open)%Q ->
     let m_half := snd r in
     fst r = true /\
     circuit_getitem m_half e =
       {| failures := failures st_open; opened_at := t_open; state := half_open |} /\
     (forall later : Q,
         fst (_allow_request cfg m_half later e) = true /\
         circuit_getitem (snd (_allow_request cfg m_half later e)) e =
           circuit_getitem m_half e) /\
     circuit_getitem (_record_success m_half e) e =
       {| failures := 0; opened_at := 0; state := closed |} /\
     (forall t' : Q,
         let st := circuit_getitem (_record_failure cfg m_half t' e) e in
         state st = open /\ opened_at st = t')).
Proof.
  intros Hn pause m_open st_open r.
  assert (Hcount : failures st_open =
                   failures (circuit_getitem m e) + Z.of_nat (length (ts ++ [t_open]))).
  { apply record_failures_count. }
  assert (Hst : st_open = {| failures := failures st_open; opened_at := t_open;
                             state := open |}).
  { subst st_open m_open. rewrite record_failures_snoc, record_failure_getitem.
    rewrite length_app, Nat2Z.inj_add in Hn. cbn [length] in Hn.
    pose proof (record_failures_count cfg e ts m) as Hts.
    destruct (Z.leb_spec (RPC_CIRCUIT_BREAKER_FAILURES cfg)
                (failures (circuit_getitem (record_failures cfg m e ts) e) + 1));
      [reflexivity | lia]. }
  split; [rewrite Hst; reflexivity|].
  split; [rewrite Hst; reflexivity|].
  assert (Hr : r = if Qleb pause (now - t_open)
                   then (true, set_circuit m_open e
                                 {| failures := failures st_open; opened_at := t_open;
                                    state := half_open |})
                   else (false, set_circuit m_open e st_open)).
  { subst r. unfold _allow_request. fold st_open. rewrite Hst. reflexivity. }
  split.
  - intros Hlt. rewrite Hr.
    destruct (Qleb pause (now - t_open)) eqn:E.
    + apply Qleb_le in E. exfalso. apply (Qlt_not_le _ _ Hlt E).
    + cbn [fst snd]. rewrite getitem_set. auto.
  - intros Hle m_half. subst m_half. rewrite Hr.
    apply Qleb_le in Hle. rewrite Hle. cbn [fst snd].
    rewrite getitem_set.
    repeat split.
    + unfold _allow_request. rewrite getitem_set. reflexivity.
    + unfold _allow_request. rewrite getitem_set. cbn [state snd].
      rewrite getitem_set. reflexivity.
    + unfold _record_success. apply getitem_set.
    + rewrite record_failure_getitem, getitem_set. cbn [failures].
      destruct (Z.leb_spec (RPC_CIRCUIT_BREAKER_FAILURES cfg) (failures st_open + 1));
        [reflexivity | lia].
    + rewrite record_failure_getitem, getitem_set. cbn [failures].
      destruct (Z.leb_spec (RPC_CIRCUIT_BREAKER_FAILURES cfg) (failures st_open + 1));
        [reflexivity | lia].
Qed.

Lemma circuit_breaker_cycle_witness :
  let cfg := {| RPC_CIRCUIT_BREAKER_FAILURES := 3; RPC_CIRCUIT_BREAKER_PAUSE_SEC := 5 |} in
  let m_open := record_failures cfg (__init__ ["a"; "b"]) "a" ([10; 11] ++ [12])%Q in
  state (circuit_getitem m_open "a") = open /\
  opened_at (circuit_getitem m_open "a") = 12%Q.
Proof.
  intros cfg m_open.
  assert (H : RPC_CIRCUIT_BREAKER_FAILURES cfg
              <= failures (circuit_getitem (__init__ ["a"; "b"]) "a")
                 + Z.of_nat (length ([10; 11] ++ [12])%Q)) by (vm_compute; discriminate).
  destruct (circuit_breaker_cycle cfg (__init__ ["a"; "b"]) "a" [10; 11]%Q 12%Q 20%Q H)
    as (Hopen & Hat & _).
  split; assumption.
Defined.

(** C6 as stated fails: the half-open circuit has no single-probe gate.
    After three failures and an elapsed pause, a first call is let
    through, the circuit is half-open, and a second call made before any
    outcome is recorded is let through as well. *)
Lemma half_open_lets_second_call_through :
  let cfg := {| RPC_CIRCUIT_BREAKER_FAILURES := 3; RPC_CIRCUIT_BREAKER_PAUSE_SEC := 5 |} in
  let m_open := record_failures cfg (__init__ ["a"]) "a" [10; 11; 12]%Q in
  let r1 := _allow_request cfg m_open 17 "a" in
  let r2 := _allow_request cfg (snd r1) 17 "a" in
  state (circuit_getitem m_open "a") = open /\
  fst r1 = true /\ state (circuit_getitem (snd r1) "a") = half_open /\
  fst r2 = true.
Proof. vm_compute. auto. Qed.

End rpc_manager_proofs.

Module billing_proofs.
Import api_auth billing.

Lemma deactivate_unknown_hash (db : database) (k : string) :
  existsb (fun r => String.eqb (key_hash r) (hash_key k)) (api_keys db) = false ->
  api_keys (snd (deactivate_key db k)) = api_keys db.
Proof.
  unfold deactivate_key. cbn [snd api_keys]. generalize (hash_key k). intros h.
  induction (api_keys db) as [|r rs IH]; cbn [existsb map]; [reflexivity|].
  intros H. apply orb_false_iff in H as [Hr Hrs].
  rewrite Hr, IH by exact Hrs. reflexivity.
Qed.

(** What the deleted-subscription handler does to a key whose hash is
    linked to the subscription: the handler passes the stored hash to
    [deactivate_key], which hashes it once more, so unless that second
    digest is itself a stored hash no key row changes, and the key
    validates as before; the subscription rows are marked cancelled. *)
Lemma subscription_deleted_leaves_key (db : database) (now now' : Q)
    (data : event_data) (row : subscription_row) :
  find (sub_matches (data_id data)) (subscriptions db) = Some row ->
  existsb (fun r => String.eqb (key_hash r) (hash_key (api_key_id row))) (api_keys db)
    = false ->
  let r := _handle_subscription_deleted db now data in
  fst r = Some (api_key_id row) /\
  api_keys (snd r) = api_keys db /\
  (forall api_key, validate_key (snd r) now' api_key = validate_key db now' api_key) /\
  (forall s, In s (subscriptions (snd r)) ->
             sub_matches (data_id data) s = true -> status s = "cancelled").
Proof.
  intros Hfind Hnone r. subst r. unfold _handle_subscription_deleted.
  rewrite Hfind. cbn [fst snd api_keys subscriptions].
  pose proof (deactivate_unknown_hash db (api_key_id row) Hnone) as Hkeys.
  split; [reflexivity|]. split; [exact Hkeys|]. split.
  - intros api_key. unfold validate_key. cbn [api_keys]. rewrite Hkeys. reflexivity.
  - intros s Hin Hs. unfold deactivate_key in Hin. cbn [snd subscriptions] in Hin.
    apply in_map_iff in Hin as (s0 & Hs0 & _).
    destruct (sub_matches (data_id data) s0) eqn:E.
    + subst s. reflexivity.
    + subst s. congruence.
Qed.

(** C7 on the code, at the input of [test_stripe_webhook_subscription_deleted]:
    a subscription is created (the key drawn is "daas_k"), then deleted.
    The handler finds the subscription, returns the linked key hash and
    marks the subscription cancelled, but the key row stays active and
    [validate_key] on the plaintext key still answers [("pro", True)]
    instead of [None]. *)
Theorem subscription_deleted_key_still_valid :
  let created := {| customer := Some "cus_test123"; data_id := Some "sub_test123";
                    price_id := ""; metadata_tier := Some "pro";
                    data_status := None |} in
  let deleted := {| customer := None; data_id := Some "sub_test123";
                    price_id := ""; metadata_tier := None; data_status := None |} in
  exists db1 db2,
    handle_stripe_webhook empty_db 100 "daas_k" "customer.subscription.created" created
      = Some (Some "daas_k", db1) /\
    handle_stripe_webhook db1 200 "" "customer.subscription.deleted" deleted
      = Some (Some (hash_key "daas_k"), db2) /\
    map status (subscriptions db2) = ["cancelled"] /\
    map is_active (api_keys db2) = [1] /\
    validate_key db2 300 "daas_k" = Some ("pro", true).
Proof.
  intros created deleted. eexists. eexists.
  split; [vm_compute; reflexivity|].
  split; [vm_compute; reflexivity|].
  vm_compute. auto.
Qed.

(** The direct path does what the handler misses ([test_api_auth_deactivate_key]). *)
Example deactivate_with_plaintext_key :
  exists db1,
    option_map snd (create_key empty_db 100 "daas_k" "pro" None) = Some db1 /\
    validate_key db1 300 "daas_k" = Some ("pro", true) /\
    fst (deactivate_key db1 "daas_k") = true /\
    validate_key (snd (deactivate_key db1 "daas_k")) 300 "daas_k" = None.
Proof. eexists. split; [vm_compute; reflexivity|]. vm_compute. auto. Qed.

End billing_proofs.

Module wallet_monitor_proofs.
Import profit_estimator wallet_monitor.

(** *** Shape of one batch step *)

Lemma process_batch_cases (cfg : AlertConfig) (env : Env) (wallet : string)
    (wallet_row : option WalletRow) (st : State) (i : nat) (batch : list SigInfo) :
  let st' := process_batch cfg env wallet wallet_row st i batch in
  (exists cache, st' = with_cache st cache) \/
  (exists entry cache, st' = block st entry cache) \/
  (exists history alert_event cache new_sigs,
      st' = mark_alert cfg (emit cfg st wallet history alert_event cache)
                       (clock env i) wallet new_sigs /\
      alert_ok cfg alert_event).
Proof.
  cbv zeta. unfold process_batch.
  destruct (estimate_fault env i) as [faulty|]; [left; eauto|].
  destruct (estimate_profit_async _ _ _ _ _ _ _ _)
    as [[[[[profit pnl_confidence] counterparties] programs] reasons] cache].
  destruct (omap _ batch) as [|primary_sig more] eqn:Esigs.
  { left. eauto. }
  destruct (Qltb _ (GAIN_FILTER cfg) || Qltb _ (WIN_RATE_FILTER cfg)).
  { right. left. eauto. }
  destruct (Qltb profit (PROFIT_ALERT_THRESHOLD cfg)) eqn:Eprofit.
  { right. left. eauto. }
  destruct (negb (existsb (String.eqb pnl_confidence) ["med"; "high"])) eqn:Econf.
  { right. left. eauto. }
  destruct (negb (should_alert cfg st (clock env i) wallet (primary_sig :: more))).
  { right. left. eauto. }
  right. right.
  destruct (compute_zscore env _ profit) as [zscore history].
  eexists history, _, cache, (primary_sig :: more). split; [reflexivity|].
  exists profit, pnl_confidence. cbn [dict_get String.eqb Ascii.eqb Bool.eqb].
  split; [reflexivity|]. split.
  - destruct (Qlt_le_dec profit (PROFIT_ALERT_THRESHOLD cfg)) as [Hlt|Hle]; [|exact Hle].
    apply Qltb_lt in Hlt. congruence.
  - split; [reflexivity|].
    apply negb_false_iff in Econf. cbn [existsb] in Econf.
    rewrite orb_false_r in Econf. apply orb_true_iff in Econf as [E|E];
      apply String.eqb_eq in E; auto.
Qed.

Lemma process_batch_alerts (cfg : AlertConfig) (env : Env) (wallet : string)
    (wallet_row : option WalletRow) (st : State) (i : nat) (batch : list SigInfo) :
  let st' := process_batch cfg env wallet wallet_row st i batch in
  (exists new, alerts st' = alerts st ++ new /\ Forall (alert_ok cfg) new) /\
  (forall a, a ∈ default [] (alerts_queue st') ->
             a ∈ default [] (alerts_queue st) \/ alert_ok cfg a).
Proof.
  cbv zeta.
  destruct (process_batch_cases cfg env wallet wallet_row st i batch)
    as [[cache ->]|[(entry & cache & ->)|(history & ev & cache & sigs & -> & Hok)]].
  - split; [exists []; rewrite app_nil_r; auto | auto].
  - split; [exists []; rewrite app_nil_r; auto | auto].
  - cbn [mark_alert emit alerts alerts_queue]. split.
    + exists [ev]. auto.
    + intros a Ha. destruct (alerts_queue st) as [queue|]; cbn [default] in Ha |- *.
      * destruct (daas_mode cfg); cbn [default] in Ha; [|auto].
        assert (Hin : a ∈ queue ++ [ev]).
        { destruct (1000 <? length (queue ++ [ev]))%nat; [|exact Ha].
          eapply subseteq_drop, Ha. }
        apply elem_of_app in Hin as [Hin|Hin]; [auto|].
        apply list_elem_of_singleton in Hin. subst a. auto.
      * apply elem_of_nil in Ha. contradiction.
Qed.

(** A batch whose estimate fails the profit or the confidence filter
    leaves both alert lists as they are. *)
Lemma process_batch_filtered (cfg : AlertConfig) (env : Env) (wallet : string)
    (wallet_row : option WalletRow) (st : State) (i : nat) (batch : list SigInfo) :
  let est := fst (estimate_profit_async (BALANCE_TOLERANCE_PCT cfg) (price_oracles env)
                    (clock env i) (get_transaction env) wallet batch 5 (price_cache st)) in
  let profit := fst (fst (fst (fst est))) in
  let pnl_confidence := snd (fst (fst (fst est))) in
  (profit < PROFIT_ALERT_THRESHOLD cfg)%Q \/
  (pnl_confidence <> "med" /\ pnl_confidence <> "high") ->
  let st' := process_batch cfg env wallet wallet_row st i batch in
  alerts st' = alerts st /\ alerts_queue st' = alerts_queue st.
Proof.
  cbv zeta. unfold process_batch.
  destruct (estimate_fault env i) as [faulty|]; [auto|].
  destruct (estimate_profit_async _ _ _ _ _ _ _ _)
    as [[[[[profit pnl_confidence] counterparties] programs] reasons] cache].
  cbn [fst snd]. intros Hfail.
  destruct (omap _ batch) as [|primary_sig more]; [auto|].
  destruct (Qltb _ (GAIN_FILTER cfg) || Qltb _ (WIN_RATE_FILTER cfg)); [auto|].
  destruct (Qltb profit (PROFIT_ALERT_THRESHOLD cfg)) eqn:Eprofit; [auto|].
  destruct (negb (existsb (String.eqb pnl_confidence) ["med"; "high"])) eqn:Econf; [auto|].
  exfalso. destruct Hfail as [Hlt|[Hmed Hhigh]].
  - apply Qltb_lt in Hlt. congruence.
  - apply negb_false_iff in Econf. cbn [existsb] in Econf.
    rewrite orb_false_r in Econf. apply orb_true_iff in Econf as [E|E];
      apply String.eqb_eq in E; congruence.
Qed.

Lemma process_batches_alerts (cfg : AlertConfig) (env : Env) (wallet : string)
    (wallet_row : option WalletRow) (batches : list (list SigInfo)) :
  forall (st : State) (i : nat),
    let st' := process_batches cfg env wallet wallet_row st i batches in
    (exists new, alerts st' = alerts st ++ new /\ Forall (alert_ok cfg) new) /\
    (forall a, a ∈ default [] (alerts_queue st') ->
               a ∈ default [] (alerts_queue st) \/ alert_ok cfg a).
Proof.
  induction batches as [|batch rest IH]; intros st i; cbn [process_batches].
  - split; [exists []; rewrite app_nil_r; auto | auto].
  - destruct (recorded_alert _ _ && _); [apply process_batch_alerts|].
    destruct (process_batch_alerts cfg env wallet wallet_row st i batch)
      as [(new1 & E1 & H1) Hq1].
    destruct (IH (process_batch cfg env wallet wallet_row st i batch) (S i))
      as [(new2 & E2 & H2) Hq2].
    split.
    + exists (new1 ++ new2). rewrite E2, E1, app_assoc. split; [reflexivity|].
      apply Forall_app. auto.
    + intros a Ha. destruct (Hq2 a Ha) as [Hin|Hok]; [|auto]. apply Hq1, Hin.
Qed.

Lemma filter_new_signatures_alerts (st : State) (wallet : string) (sigs : list SigInfo) :
  alerts (snd (filter_new_signatures st wallet sigs)) = alerts st /\
  alerts_queue (snd (filter_new_signatures st wallet sigs)) = alerts_queue st.
Proof.
  unfold filter_new_signatures. destruct sigs as [|head rest]; [auto|].
  cbn [snd]. destruct (truthy_str (signature head)); auto.
Qed.

(** C1. Every alert record that the per-wallet scan appends to the alert
    list or to the API ring carries a profit at or above
    [PROFIT_ALERT_THRESHOLD] and the confidence label med or high; a
    batch whose estimate is below the threshold, or whose label is
    neither med nor high, appends nothing to either list. *)
Theorem scan_alerts_meet_threshold (cfg : AlertConfig) (env : Env) (st : State)
    (wallet : string) (df : list WalletRow) (resp : option (list SigInfo)) :
  let st' := scan_wallet_async cfg env st wallet df resp in
  (exists new, alerts st' = alerts st ++ new /\ Forall (alert_ok cfg) new) /\
  (forall a, a ∈ default [] (alerts_queue st') ->
             a ∈ default [] (alerts_queue st) \/ alert_ok cfg a) /\
  (forall (wallet_row : option WalletRow) (s : State) (i : nat) (batch : list SigInfo),
      let est := fst (estimate_profit_async (BALANCE_TOLERANCE_PCT cfg) (price_oracles env)
                        (clock env i) (get_transaction env) wallet batch 5
                        (price_cache s)) in
      let profit := fst (fst (fst (fst est))) in
      let pnl_confidence := snd (fst (fst (fst est))) in
      (profit < PROFIT_ALERT_THRESHOLD cfg)%Q \/
      (pnl_confidence <> "med" /\ pnl_confidence <> "high") ->
      alerts (process_batch cfg env wallet wallet_row s i batch) = alerts s /\
      alerts_queue (process_batch cfg env wallet wallet_row s i batch) = alerts_queue s).
Proof.
  cbv zeta.
  assert (Hscan :
    (exists new, alerts (scan_wallet_async cfg env st wallet df resp) = alerts st ++ new
                 /\ Forall (alert_ok cfg) new) /\
    (forall a, a ∈ default [] (alerts_queue (scan_wallet_async cfg env st wallet df resp)) ->
               a ∈ default [] (alerts_queue st) \/ alert_ok cfg a)).
  { unfold scan_wallet_async. destruct resp as [raw_sigs|].
    - pose proof (filter_new_signatures_alerts st wallet raw_sigs) as [Ea Eq].
      destruct (filter_new_signatures st wallet raw_sigs) as [increment st1].
      cbn [snd] in Ea, Eq. rewrite <- Ea, <- Eq.
      destruct increment as [|e increment].
      + split; [exists []; rewrite app_nil_r; auto | auto].
      + apply process_batches_alerts.
    - split; [exists []; rewrite app_nil_r; auto | auto]. }
  destruct Hscan as [Ha Hq]. split; [exact Ha|]. split; [exact Hq|].
  intros wallet_row s i batch. apply process_batch_filtered.
Qed.

(** *** Increment selection *)

Lemma newer_entries_prefix (last : string) (signatures : list SigInfo) :
  all_signed signatures = true ->
  exists older,
    signatures = newer_entries last signatures ++ older /\
    Forall (fun e => signature e <> Some last) (newer_entries last signatures) /\
    (older = [] \/ exists e older', older = e :: older' /\ signature e = Some last).
Proof.
  induction signatures as [|entry rest IH]; intros Hall.
  - exists []. cbn. auto.
  - cbn [all_signed forallb] in Hall. apply andb_true_iff in Hall as [Hentry Hrest].
    apply bool_decide_eq_true in Hentry as [sig Hsig].
    cbn [newer_entries]. rewrite Hsig.
    assert (Hs : signature entry = Some sig).
    { destruct (signature entry) as [[|c s0]|]; cbn in Hsig; congruence. }
    destruct (String.eqb_spec sig last) as [->|Hne].
    + exists (entry :: rest). cbn. split; [reflexivity|]. split; [constructor|].
      right. eauto.
    + destruct (IH Hrest) as (older & E & Hnewer & Holder).
      exists older. cbn [app]. split; [congruence|]. split; [|exact Holder].
      constructor; [congruence | exact Hnewer].
Qed.

Lemma process_batch_last_sig (cfg : AlertConfig) (env : Env) (wallet : string)
    (wallet_row : option WalletRow) (st : State) (i : nat) (batch : list SigInfo) :
  _last_sig_by_wallet (process_batch cfg env wallet wallet_row st i batch)
  = _last_sig_by_wallet st.
Proof.
  destruct (process_batch_cases cfg env wallet wallet_row st i batch)
    as [[cache ->]|[(entry & cache & ->)|(history & ev & cache & sigs & -> & _)]];
    reflexivity.
Qed.

Lemma process_batches_last_sig (cfg : AlertConfig) (env : Env) (wallet : string)
    (wallet_row : option WalletRow) (batches : list (list SigInfo)) :
  forall (st : State) (i : nat),
    _last_sig_by_wallet (process_batches cfg env wallet wallet_row st i batches)
    = _last_sig_by_wallet st.
Proof.
  induction batches as [|batch rest IH]; intros st i; cbn [process_batches];
    [reflexivity|].
  destruct (recorded_alert _ _ && _); [|rewrite IH]; apply process_batch_last_sig.
Qed.

(** C9. For a non-empty fetched list whose entries all carry a signature
    id, [filter_new_signatures] returns the first 5 entries when the
    wallet has no last-seen signature; otherwise it returns the prefix of
    the list that stops before the first entry equal to the last-seen one
    (the whole list when none is).  In both cases the signature of the
    head of the list becomes the wallet's last-seen signature, and it
    still is at the end of the scan, whatever the batches produce. *)
Theorem filter_new_signatures_increment (st : State) (wallet : string)
    (head : SigInfo) (rest : list SigInfo) :
  all_signed (head :: rest) = true ->
  let signatures := head :: rest in
  let r := filter_new_signatures st wallet signatures in
  (_last_sig_by_wallet st !! wallet = None -> fst r = firstn 5 signatures) /\
  (forall last,
      _last_sig_by_wallet st !! wallet = Some last ->
      exists older,
        signatures = fst r ++ older /\
        Forall (fun e => signature e <> Some last) (fst r) /\
        (older = [] \/ exists e older', older = e :: older' /\ signature e = Some last)) /\
  _last_sig_by_wallet (snd r) !! wallet = signature head /\
  (forall (cfg : AlertConfig) (env : Env) (df : list WalletRow),
      _last_sig_by_wallet (scan_wallet_async cfg env st wallet df (Some signatures))
        !! wallet = signature head).
Proof.
  intros Hall signatures r.
  assert (Hhead : exists sig, truthy_str (signature head) = Some sig
                              /\ signature head = Some sig).
  { cbn [all_signed forallb] in Hall. apply andb_true_iff in Hall as [Hh _].
    apply bool_decide_eq_true in Hh as [sig Hsig]. exists sig. split; [exact Hsig|].
    destruct (signature head) as [[|c s0]|]; cbn in Hsig; congruence. }
  destruct Hhead as (sig & Htruthy & Hsig).
  assert (Hsnd : _last_sig_by_wallet (snd r) !! wallet = signature head).
  { subst r signatures. unfold filter_new_signatures. cbn [snd]. rewrite Htruthy.
    cbn [set_last_sig _last_sig_by_wallet]. rewrite lookup_insert_eq. congruence. }
  split; [|split; [|split]].
  - intros Hnone. subst r signatures. unfold filter_new_signatures. rewrite Hnone.
    reflexivity.
  - intros last Hlast. subst r. unfold filter_new_signatures. fold signatures.
    rewrite Hlast. cbn [fst]. apply newer_entries_prefix. exact Hall.
  - exact Hsnd.
  - intros cfg env df. unfold scan_wallet_async. fold signatures r.
    destruct r as [increment st1] eqn:Er. cbn [snd] in Hsnd.
    destruct increment; [exact Hsnd|].
    rewrite process_batches_last_sig. exact Hsnd.
Qed.

Lemma filter_new_signatures_increment_witness :
  let st := {| _last_alert_at := ∅; _seen_signatures := [];
               _last_sig_by_wallet := {[ "W1" := "s2" ]}; _profit_history := ∅;
               _blocked_alerts := []; alerts := []; alerts_queue := Some [];
               price_cache := ∅ |} in
  let e := fun s => {| signature := Some s; slot := Some 7 |} in
  _last_sig_by_wallet (snd (filter_new_signatures st "W1" [e "s4"; e "s3"; e "s2"; e "s1"]))
    !! "W1" = Some "s4".
Proof.
  intros st e.
  apply (filter_new_signatures_increment st "W1" (e "s4") [e "s3"; e "s2"; e "s1"]).
  reflexivity.
Defined.

Example increment_selection :
  let st := {| _last_alert_at := ∅; _seen_signatures := [];
               _last_sig_by_wallet := {[ "W1" := "s2" ]}; _profit_history := ∅;
               _blocked_alerts := []; alerts := []; alerts_queue := Some [];
               price_cache := ∅ |} in
  let e := fun s => {| signature := Some s; slot := Some 7 |} in
  fst (filter_new_signatures st "W1" [e "s4"; e "s3"; e "s2"; e "s1"]) = [e "s4"; e "s3"] /\
  fst (filter_new_signatures st "W2" [e "s6"; e "s5"; e "s4"; e "s3"; e "s2"; e "s1"])
    = [e "s6"; e "s5"; e "s4"; e "s3"; e "s2"].
Proof. vm_compute. auto. Qed.

(** *** The seen-signature set *)

Lemma evict_oldest_drop (max_seen : nat) (seen : list (string * Q)) :
  evict_oldest max_seen seen = drop (length seen - max_seen) seen.
Proof.
  induction seen as [|p rest IH]; [reflexivity|].
  cbn [evict_oldest]. destruct (Nat.ltb_spec max_seen (length (p :: rest))) as [Hlt|Hge].
  - rewrite IH. cbn [length] in *.
    replace (S (length rest) - max_seen)%nat with (S (length rest - max_seen)) by lia.
    reflexivity.
  - replace (length (p :: rest) - max_seen)%nat with 0%nat by lia. reflexivity.
Qed.

Lemma evict_oldest_length (max_seen : nat) (seen : list (string * Q)) :
  (length (evict_oldest max_seen seen) <= max_seen)%nat.
Proof. rewrite evict_oldest_drop, length_drop. lia. Qed.

Lemma filter_filter_key (seen : list (string * Q)) (x : string) (l : list string) :
  filter (fun p => fst p ∉ l) (filter (fun p => String.eqb (fst p) x = false) seen)
  = filter (fun p => fst p ∉ x :: l) seen.
Proof.
  rewrite list_filter_filter. apply list_filter_iff. intros p. split.
  - intros [Hl Hx] Hin. apply String.eqb_neq in Hx.
    apply elem_of_cons in Hin as [Hin|Hin]; auto.
  - intros Hn. split.
    + intros Hin. apply Hn. right. exact Hin.
    + apply String.eqb_neq. intros E. apply Hn. rewrite E. left.
Qed.

(** The loop of [mark_alert] moves the marked signatures, once each, to
    the end of the ordered dict. *)
Lemma record_seen_closed_form (sigs : list string) (ts : Q) :
  forall seen : list (string * Q),
    record_seen seen sigs ts
    = filter (fun p => fst p ∉ sigs) seen ++ map (fun s => (s, ts)) (remove_dups sigs).
Proof.
  unfold record_seen.
  induction sigs as [|x l IH]; intros seen; cbn [fold_left remove_dups map].
  - rewrite app_nil_r. induction seen as [|p rest IHs]; [reflexivity|].
    rewrite filter_cons. destruct (decide (fst p ∉ [])) as [_|Hn].
    + f_equal. exact IHs.
    + exfalso. apply Hn. apply not_elem_of_nil.
  - rewrite IH. unfold seen_put. rewrite filter_app, filter_filter_key.
    rewrite <- app_assoc. f_equal.
    rewrite filter_cons, filter_nil. cbn [fst].
    destruct (decide (x ∉ l)) as [Hn|Hin], (decide_rel elem_of x l) as [Hin'|Hn'];
      try contradiction; reflexivity.
Qed.

Lemma seen_get_app (a b : list (string * Q)) (s : string) :
  seen_get (a ++ b) s = match seen_get a s with Some t => Some t | None => seen_get b s end.
Proof.
  unfold seen_get. induction a as [|p rest IH]; [reflexivity|].
  cbn [app find]. destruct (String.eqb (fst p) s); [reflexivity | exact IH].
Qed.

Lemma seen_get_absent (a : list (string * Q)) (s : string) :
  Forall (fun p => fst p <> s) a -> seen_get a s = None.
Proof.
  unfold seen_get. induction 1 as [|p rest Hp _ IH]; [reflexivity|].
  cbn [find]. destruct (String.eqb_spec (fst p) s); [contradiction | exact IH].
Qed.

Lemma seen_get_stamped (l : list string) (ts : Q) (s : string) :
  seen_get (map (fun k => (k, ts)) l) s = if decide (s ∈ l) then Some ts else None.
Proof.
  unfold seen_get. induction l as [|k rest IH]; [reflexivity|].
  cbn [map find fst]. destruct (String.eqb_spec k s) as [->|Hne].
  - destruct (decide (s ∈ s :: rest)) as [_|Hn]; [reflexivity|].
    exfalso. apply Hn. left.
  - rewrite IH. destruct (decide (s ∈ rest)) as [Hin|Hn], (decide (s ∈ k :: rest)) as [H2|H2];
      try reflexivity.
    + exfalso. apply H2. right. exact Hin.
    + exfalso. apply elem_of_cons in H2 as [E|H2]; [congruence | contradiction].
Qed.

Lemma filtered_keys_absent (seen : list (string * Q)) (sigs : list string) (n : nat)
    (s : string) :
  s ∈ sigs -> Forall (fun p => fst p <> s) (drop n (filter (fun p => fst p ∉ sigs) seen)).
Proof.
  intros Hin. apply Forall_forall. intros p Hp Heq.
  apply subseteq_drop in Hp. apply list_elem_of_In in Hp.
  apply list_elem_of_In, list_elem_of_filter in Hp as [Hp _]. apply Hp. rewrite Heq. exact Hin.
Qed.

Lemma drop_stamped (l : list string) (ts : Q) (n : nat) (s : string) :
  seen_get (drop n (map (fun k => (k, ts)) l)) s = Some ts \/
  seen_get (drop n (map (fun k => (k, ts)) l)) s = None.
Proof.
  rewrite skipn_map, seen_get_stamped. destruct (decide (s ∈ drop n l)); auto.
Qed.

(** C10. A call [mark_alert(wallet, sigs)] reads the clock once: the
    wallet's last-alert instant is that timestamp and every signature of
    [sigs] is recorded in the seen set with that same timestamp.  The
    call then evicts entries from the head (the oldest end) of the
    ordered seen set until at most [MAX_SEEN_SIGNATURES] remain; a
    signature of [sigs] that is still in the set holds the timestamp, and
    all of them are still in the set whenever their number does not
    exceed the bound.  So the bound on the seen set holds after every
    batch that emits an alert, as it does after a garbage collection. *)
Theorem mark_alert_bounds_seen (cfg : AlertConfig) (st : State) (now : Q)
    (wallet : string) (sigs : list string) :
  let st' := mark_alert cfg st now wallet sigs in
  let recorded := record_seen (_seen_signatures st) sigs now in
  _last_alert_at st' !! wallet = Some now /\
  (forall s, s ∈ sigs -> seen_get recorded s = Some now) /\
  (exists evicted, recorded = evicted ++ _seen_signatures st') /\
  (length (_seen_signatures st') <= MAX_SEEN_SIGNATURES cfg)%nat /\
  (forall s, s ∈ sigs ->
             seen_get (_seen_signatures st') s = Some now \/
             seen_get (_seen_signatures st') s = None) /\
  ((length (remove_dups sigs) <= MAX_SEEN_SIGNATURES cfg)%nat ->
   forall s, s ∈ sigs -> seen_get (_seen_signatures st') s = Some now) /\
  (forall (env : Env) (wallet_row : option WalletRow) (s0 : State) (i : nat)
          (batch : list SigInfo),
      alerts (process_batch cfg env wallet wallet_row s0 i batch) <> alerts s0 ->
      (length (_seen_signatures (process_batch cfg env wallet wallet_row s0 i batch))
       <= MAX_SEEN_SIGNATURES cfg)%nat) /\
  (forall t : Q,
      (length (_seen_signatures (garbage_collect_state cfg st t))
       <= MAX_SEEN_SIGNATURES cfg)%nat).
Proof.
  intros st' recorded. subst st'. cbn [mark_alert _last_alert_at _seen_signatures].
  fold recorded.
  assert (Hform : recorded = filter (fun p => fst p ∉ sigs) (_seen_signatures st)
                             ++ map (fun s => (s, now)) (remove_dups sigs)).
  { apply record_seen_closed_form. }
  set (A := filter (fun p => fst p ∉ sigs) (_seen_signatures st)) in *.
  set (B := map (fun s => (s, now)) (remove_dups sigs)) in *.
  assert (HB : forall s, s ∈ sigs -> seen_get B s = Some now).
  { intros s Hs. subst B. rewrite seen_get_stamped.
    destruct (decide (s ∈ remove_dups sigs)) as [_|Hn]; [reflexivity|].
    exfalso. apply Hn, elem_of_remove_dups, Hs. }
  assert (HA : forall n s, s ∈ sigs -> seen_get (drop n A) s = None).
  { intros n s Hs. apply seen_get_absent. subst A. apply filtered_keys_absent, Hs. }
  rewrite evict_oldest_drop. set (n := (length recorded - MAX_SEEN_SIGNATURES cfg)%nat).
  split; [apply lookup_insert_eq|].
  split.
  { intros s Hs. rewrite Hform, seen_get_app. specialize (HA 0%nat s Hs).
    rewrite drop_0 in HA. rewrite HA. apply HB, Hs. }
  split; [exists (take n recorded); symmetry; apply take_drop|].
  split; [rewrite length_drop; lia|].
  split.
  { intros s Hs. rewrite Hform, drop_app, seen_get_app, (HA n s Hs).
    subst B. apply drop_stamped. }
  split.
  { intros Hfit s Hs.
    assert (Hn : (n - length A = 0)%nat).
    { subst n. rewrite Hform, length_app. subst B. rewrite length_map. lia. }
    rewrite Hform, drop_app, seen_get_app, (HA n s Hs), Hn, drop_0. apply HB, Hs. }
  split.
  - intros env wallet_row s0 i batch Hgrew.
    destruct (process_batch_cases cfg env wallet wallet_row s0 i batch)
      as [[cache E]|[(entry & cache & E)|(history & ev & cache & new_sigs & E & _)]];
      rewrite E in Hgrew |- *.
    + exfalso. apply Hgrew. reflexivity.
    + exfalso. apply Hgrew. reflexivity.
    + cbn [mark_alert _seen_signatures]. apply evict_oldest_length.
  - intros t. cbn [garbage_collect_state _seen_signatures]. apply evict_oldest_length.
Qed.

Example mark_alert_evicts_oldest :
  let cfg := {| PROFIT_ALERT_THRESHOLD := 2; GAIN_FILTER := 5; WIN_RATE_FILTER := 80;
                ALERT_COOLDOWN_SEC := 300; STATE_TTL_SECONDS := 3600;
                MAX_SEEN_SIGNATURES := 3; ALERT_BATCH_SIZE := 10;
                BALANCE_TOLERANCE_PCT := 10; DRY_RUN := true; daas_mode := true |} in
  let st := {| _last_alert_at := ∅;
               _seen_signatures := [("a", 1%Q); ("b", 2%Q); ("c", 3%Q)];
               _last_sig_by_wallet := ∅; _profit_history := ∅;
               _blocked_alerts := []; alerts := []; alerts_queue := Some [];
               price_cache := ∅ |} in
  _seen_signatures (mark_alert cfg st 9 "W1" ["b"; "d"]) = [("c", 3%Q); ("b", 9%Q); ("d", 9%Q)].
Proof. vm_compute. reflexivity. Qed.

(** Scenario 1 of the specification: one alert, profit 2.999995, label
    high, primary signature S1. *)
Example happy_path :
  exists alert,
    alerts_queue scenario.st1 = Some [alert] /\
    alerts scenario.st1 = [alert] /\
    dict_get alert "signature" = Some (PyStr "S1") /\
    dict_get alert "pnl_confidence" = Some (PyStr "high") /\
    (exists p, dict_get alert "profit" = Some (PyFloat p) /\ (p == 2999995 # 1000000)%Q) /\
    _seen_signatures scenario.st1 = [("S1", 1000%Q)].
Proof.
  eexists. split; [vm_compute; reflexivity|].
  split; [vm_compute; reflexivity|].
  split; [vm_compute; reflexivity|].
  split; [vm_compute; reflexivity|].
  split; [|vm_compute; reflexivity].
  eexists. split; [vm_compute; reflexivity | vm_compute; reflexivity].
Qed.

(** Scenario 3: a second qualifying signature inside the cooldown is
    blocked with reason "cooldown". *)
Example cooldown_rejection :
  let st2 := scan_wallet_async scenario.cfg (scenario.env scenario.tx_native) scenario.st1
               "W1" scenario.df (Some [scenario.sig "S2" 6; scenario.sig "S1" 5]) in
  length (alerts st2) = 1%nat /\
  map (fun b => dict_get b "reason") (_blocked_alerts st2) = [Some (PyStr "cooldown")].
Proof. vm_compute. auto. Qed.

End wallet_monitor_proofs.

Module profit_estimator_proofs.
Import profit_estimator.

(** *** The loops as sums over the processed transactions *)

Lemma enriched_step_fields (env : oracles) (now : Q) (wallet : string)
    (acc : Accumulators) (tx : Transaction) :
  let m := meta tx in
  let r := estimate_token_delta env now (preTokenBalances m) (postTokenBalances m)
             wallet (a_cache acc) in
  let sol := lamport_change (preBalances m) (postBalances m) (accountKeys tx) wallet in
  let acc' := enriched_step env now wallet acc tx in
  a_profit acc' = (a_profit acc + sol + fst (fst r) + snd (fst r) - fee_sol m)%Q /\
  a_fee_total acc' = (a_fee_total acc + fee_sol m)%Q /\
  a_sol_delta_sum acc' = (a_sol_delta_sum acc + Qabs (snd (fst r)) + Qabs sol)%Q /\
  a_token_delta_sum acc' = (a_token_delta_sum acc + Qabs (fst (fst r)))%Q /\
  a_fee_known acc' = (if Qeq_bool (fee_sol m) 0 then false else a_fee_known acc) /\
  a_cache acc' = snd r.
Proof.
  cbv zeta. unfold enriched_step.
  destruct (estimate_token_delta _ _ _ _ _ _) as [[tok wsol] cache']. cbn. auto 10.
Qed.

Lemma async_step_fields (env : oracles) (now : Q) (wallet : string)
    (acc : Accumulators) (tx : Transaction) :
  let m := meta tx in
  let r := estimate_token_delta env now (preTokenBalances m) (postTokenBalances m)
             wallet (a_cache acc) in
  let sol := lamport_change (preBalances m) (postBalances m) (accountKeys tx) wallet in
  let acc' := async_step env now wallet acc tx in
  a_profit acc' = (a_profit acc + sol + fst (fst r) + snd (fst r) - fee_sol m)%Q /\
  a_fee_total acc' = (a_fee_total acc + fee_sol m)%Q /\
  a_sol_delta_sum acc' = (a_sol_delta_sum acc + sol + Qabs (snd (fst r)))%Q /\
  a_token_delta_sum acc' = (a_token_delta_sum acc + Qabs (fst (fst r)))%Q /\
  a_fee_known acc' = a_fee_known acc /\
  a_cache acc' = snd r.
Proof.
  cbv zeta. unfold async_step.
  destruct (estimate_token_delta _ _ _ _ _ _) as [[tok wsol] cache']. cbn. auto 10.
Qed.

Lemma tx_deltas_cons (env : oracles) (now : Q) (wallet : string)
    (cache : TokenPriceCache) (tx : Transaction) (rest : list Transaction) :
  let m := meta tx in
  let r := estimate_token_delta env now (preTokenBalances m) (postTokenBalances m)
             wallet cache in
  tx_deltas env now wallet cache (tx :: rest) =
    {| d_sol := lamport_change (preBalances m) (postBalances m) (accountKeys tx) wallet;
       d_wsol := snd (fst r); d_token := fst (fst r); d_fee := fee_sol m |}
    :: tx_deltas env now wallet (snd r) rest.
Proof.
  cbv zeta. cbn [tx_deltas].
  destruct (estimate_token_delta _ _ _ _ _ _) as [[tok wsol] cache']. reflexivity.
Qed.

Lemma total_cons (f : TxDeltas -> Q) (d : TxDeltas) (ds : list TxDeltas) :
  total f (d :: ds) = (f d + total f ds)%Q.
Proof. reflexivity. Qed.

Lemma enriched_fold (env : oracles) (now : Q) (wallet : string) (txs : list Transaction) :
  forall acc : Accumulators,
    let acc' := fold_left (enriched_step env now wallet) txs acc in
    let ds := tx_deltas env now wallet (a_cache acc) txs in
    (a_profit acc' ==
       a_profit acc + total (fun d => d_sol d + d_token d + d_wsol d - d_fee d) ds)%Q /\
    (a_fee_total acc' == a_fee_total acc + total d_fee ds)%Q /\
    (a_sol_delta_sum acc' ==
       a_sol_delta_sum acc + total (fun d => Qabs (d_wsol d) + Qabs (d_sol d)) ds)%Q /\
    (a_token_delta_sum acc' ==
       a_token_delta_sum acc + total (fun d => Qabs (d_token d)) ds)%Q /\
    a_fee_known acc' =
      a_fee_known acc && forallb (fun d => negb (Qeq_bool (d_fee d) 0)) ds.
Proof.
  induction txs as [|tx rest IH]; intros acc; cbn [fold_left].
  - cbn [tx_deltas total fold_right forallb]. rewrite andb_true_r.
    repeat split; try lra.
  - destruct (IH (enriched_step env now wallet acc tx)) as (Hp & Hf & Hs & Ht & Hk).
    destruct (enriched_step_fields env now wallet acc tx)
      as (Ep & Ef & Es & Et & Ek & Ec).
    rewrite Ec in Hp, Hf, Hs, Ht, Hk.
    rewrite tx_deltas_cons, !total_cons. cbn [forallb d_sol d_wsol d_token d_fee].
    repeat split.
    + rewrite Hp, Ep. lra.
    + rewrite Hf, Ef. lra.
    + rewrite Hs, Es. lra.
    + rewrite Ht, Et. lra.
    + rewrite Hk, Ek. destruct (Qeq_bool (fee_sol (meta tx)) 0), (a_fee_known acc);
        reflexivity.
Qed.

Lemma async_fold (env : oracles) (now : Q) (wallet : string) (txs : list Transaction) :
  forall acc : Accumulators,
    let acc' := fold_left (async_step env now wallet) txs acc in
    let ds := tx_deltas env now wallet (a_cache acc) txs in
    (a_profit acc' ==
       a_profit acc + total (fun d => d_sol d + d_token d + d_wsol d - d_fee d) ds)%Q /\
    (a_fee_total acc' == a_fee_total acc + total d_fee ds)%Q /\
    (a_sol_delta_sum acc' ==
       a_sol_delta_sum acc + total (fun d => d_sol d + Qabs (d_wsol d)) ds)%Q /\
    (a_token_delta_sum acc' ==
       a_token_delta_sum acc + total (fun d => Qabs (d_token d)) ds)%Q /\
    a_fee_known acc' = a_fee_known acc.
Proof.
  induction txs as [|tx rest IH]; intros acc; cbn [fold_left].
  - cbn [tx_deltas total fold_right]. repeat split; try lra.
  - destruct (IH (async_step env now wallet acc tx)) as (Hp & Hf & Hs & Ht & Hk).
    destruct (async_step_fields env now wallet acc tx)
      as (Ep & Ef & Es & Et & Ek & Ec).
    rewrite Ec in Hp, Hf, Hs, Ht.
    rewrite tx_deltas_cons, !total_cons. cbn [d_sol d_wsol d_token d_fee].
    repeat split.
    + rewrite Hp, Ep. lra.
    + rewrite Hf, Ef. lra.
    + rewrite Hs, Es. lra.
    + rewrite Ht, Et. lra.
    + rewrite Hk, Ek. reflexivity.
Qed.

Lemma tx_deltas_fees (env : oracles) (now : Q) (wallet : string) (txs : list Transaction) :
  forall cache : TokenPriceCache,
    Forall2 (fun tx d => d_fee d = (inject_Z (default 0%Z (fee (meta tx))) / 1000000000)%Q)
            txs (tx_deltas env now wallet cache txs).
Proof.
  induction txs as [|tx rest IH]; intros cache; [constructor|].
  rewrite tx_deltas_cons. constructor; [reflexivity | apply IH].
Qed.

Lemma fee_sol_zero (m : TxMeta) :
  Qeq_bool (fee_sol m) 0 = true <-> fee m = None \/ fee m = Some 0.
Proof.
  unfold fee_sol. rewrite Qeq_bool_iff.
  assert (H : forall z, (inject_Z z / 1000000000 == 0)%Q <-> z = 0).
  { intros z. unfold Qeq, Qdiv, Qmult, Qinv, inject_Z. cbn. lia. }
  destruct (fee m) as [z|]; cbn [default].
  - rewrite (H z). split; [intros ->; auto | intros [E|E]; congruence].
  - rewrite (H 0). split; auto.
Qed.

Lemma fee_flags (env : oracles) (now : Q) (wallet : string) (txs : list Transaction) :
  forall cache : TokenPriceCache,
    forallb (fun d => negb (Qeq_bool (d_fee d) 0)) (tx_deltas env now wallet cache txs) = false
    <-> Exists (fun tx => fee (meta tx) = None \/ fee (meta tx) = Some 0) txs.
Proof.
  induction txs as [|tx rest IH]; intros cache.
  - cbn. split; [discriminate | intros H; inversion H].
  - rewrite tx_deltas_cons. cbn [forallb d_fee]. rewrite andb_false_iff, negb_false_iff.
    rewrite fee_sol_zero, IH, Exists_cons. reflexivity.
Qed.

(** C3, as the code has it.  Both estimators subtract [fee / 10^9] from
    the profit for every processed transaction (a missing fee counts as
    0), and their sub-metric [fee_completeness] is 1 exactly when the
    flag [fee_known] is true at the end of the loop, 0 otherwise.  In
    [estimate_profit_enriched] the flag is false iff the fee of some
    processed transaction is missing or zero. *)
Theorem fee_accounting (pct : Q) (env : oracles) (now : Q) (wallet : string)
    (signatures : list SigInfo) (max_tx : nat) (cache : TokenPriceCache)
    (rpc : string -> option Transaction) (rpc_async : string -> nat -> option Transaction) :
  let gross := fun d => (d_sol d + d_token d + d_wsol d)%Q in
  let txs := fetched_enriched rpc (firstn max_tx signatures) in
  let ds := tx_deltas env now wallet cache txs in
  let acc := enriched_loop env now rpc wallet signatures max_tx cache in
  let r := fst (estimate_profit_enriched pct env now rpc wallet signatures max_tx cache) in
  let txs_a := fetched_async rpc_async (firstn max_tx signatures) in
  let ds_a := tx_deltas env now wallet cache txs_a in
  let acc_a := async_loop env now rpc_async wallet signatures max_tx cache in
  let r_a := fst (estimate_profit_async pct env now rpc_async wallet signatures max_tx cache) in
  (res_profit r == total gross ds - total d_fee ds)%Q /\
  Forall2 (fun tx d => d_fee d = (inject_Z (default 0%Z (fee (meta tx))) / 1000000000)%Q)
          txs ds /\
  (a_fee_known acc = false <->
   Exists (fun tx => fee (meta tx) = None \/ fee (meta tx) = Some 0) txs) /\
  fee_completeness (res_reasons r) = (if a_fee_known acc then 1 else 0)%Q /\
  (res_profit r_a == total gross ds_a - total d_fee ds_a)%Q /\
  Forall2 (fun tx d => d_fee d = (inject_Z (default 0%Z (fee (meta tx))) / 1000000000)%Q)
          txs_a ds_a /\
  fee_completeness (res_reasons r_a) = (if a_fee_known acc_a then 1 else 0)%Q.
Proof.
  intros gross txs ds acc r txs_a ds_a acc_a r_a.
  assert (Hsplit : forall l,
             (total (fun d => d_sol d + d_token d + d_wsol d - d_fee d) l
              == total gross l - total d_fee l)%Q).
  { induction l as [|d l IH]; [cbn; lra|]. rewrite !total_cons, IH. subst gross. cbn. lra. }
  destruct (enriched_fold env now wallet txs (init_acc cache)) as (Hp & _ & _ & _ & Hk).
  destruct (async_fold env now wallet txs_a (init_acc cache)) as (Hpa & _).
  cbn [init_acc a_profit a_fee_known a_cache andb] in Hp, Hk, Hpa.
  split; [|split; [|split; [|split; [|split; [|split]]]]].
  - subst r. unfold estimate_profit_enriched, res_profit, finish. cbn [fst].
    unfold enriched_loop. fold txs. rewrite Hp, Hsplit. fold ds. lra.
  - apply tx_deltas_fees.
  - subst acc. unfold enriched_loop. fold txs. rewrite Hk. apply fee_flags.
  - reflexivity.
  - subst r_a. unfold estimate_profit_async, res_profit, finish. cbn [fst].
    unfold async_loop. fold txs_a. rewrite Hpa, Hsplit. fold ds_a. lra.
  - apply tx_deltas_fees.
  - reflexivity.
Qed.

(** C3 as stated fails in [estimate_profit_enriched]: a transaction whose
    fee is present and equal to 0 clears [fee_known] although no fee is
    missing. *)
Lemma zero_fee_clears_fee_known :
  let env := {| fetch_price_sol_from_jupiter := fun _ => None; BIRDEYE_API_KEY := "";
                fetch_price_sol_from_birdeye := fun _ _ => None |} in
  let tx := {| meta := {| preBalances := [10000000000]; postBalances := [13000000000];
                          preTokenBalances := []; postTokenBalances := [];
                          fee := Some 0; innerInstructions := [] |};
               accountKeys := ["W1"]; instructions := [] |} in
  let sigs := [ {| signature := Some "S1"; slot := Some 1 |} ] in
  fetched_enriched (fun _ => Some tx) (firstn 5 sigs) = [tx] /\
  fee (meta tx) <> None /\
  a_fee_known (enriched_loop env 100 (fun _ => Some tx) "W1" sigs 5 ∅) = false /\
  fee_completeness
    (res_reasons (fst (estimate_profit_enriched 10 env 100 (fun _ => Some tx) "W1" sigs 5 ∅)))
  = 0%Q.
Proof. vm_compute. repeat split; discriminate. Qed.

(** The async estimator never clears the flag: with a transaction that
    has no fee at all it reports [fee_completeness = 1], where
    [estimate_profit_enriched] reports 0 on the same input. *)
Example missing_fee_async_keeps_flag :
  let env := {| fetch_price_sol_from_jupiter := fun _ => None; BIRDEYE_API_KEY := "";
                fetch_price_sol_from_birdeye := fun _ _ => None |} in
  let tx := {| meta := {| preBalances := [10000000000]; postBalances := [13000000000];
                          preTokenBalances := []; postTokenBalances := [];
                          fee := None; innerInstructions := [] |};
               accountKeys := ["W1"]; instructions := [] |} in
  let sigs := [ {| signature := Some "S1"; slot := Some 1 |} ] in
  fee_completeness
    (res_reasons (fst (estimate_profit_async 10 env 100 (fun _ _ => Some tx) "W1" sigs 5 ∅)))
  = 1%Q /\
  fee_completeness
    (res_reasons (fst (estimate_profit_enriched 10 env 100 (fun _ => Some tx) "W1" sigs 5 ∅)))
  = 0%Q.
Proof. vm_compute. auto. Qed.

(** *** Balance alignment *)

Lemma Qmax_comp (a a' b : Q) : (a == a')%Q -> (Qmax a b == Qmax a' b)%Q.
Proof.
  intros E. unfold Qmax, Qleb.
  destruct (Qle_bool a b) eqn:H, (Qle_bool a' b) eqn:H'; try reflexivity; try exact E.
  - rewrite E in H. congruence.
  - rewrite E in H. congruence.
Qed.

Lemma compute_balance_alignment_comp (tv tv' tobs tobs' tol : Q) :
  (tv == tv')%Q -> (tobs == tobs')%Q ->
  compute_balance_alignment tv tobs tol = compute_balance_alignment tv' tobs' tol.
Proof.
  intros Ev Eo. unfold compute_balance_alignment, Qltb, Qleb.
  assert (E1 : Qle_bool tv 0 = Qle_bool tv' 0) by (rewrite Ev; reflexivity).
  assert (E2 : (Qabs (tv - tobs) / Qmax tv (1 # 1000000000)
                == Qabs (tv' - tobs') / Qmax tv' (1 # 1000000000))%Q).
  { rewrite (Qmax_comp tv tv') by exact Ev. rewrite Ev, Eo. reflexivity. }
  rewrite E1, E2. reflexivity.
Qed.





Lemma total_plus (f g : TxDeltas -> Q) (ds : list TxDeltas) :
  (total (fun d => f d + g d) ds == total f ds + total g ds)%Q.
Proof.
  induction ds as [|d ds IH]; [cbn; lra|].
  rewrite !total_cons, IH. lra.
Qed.



(** The token term is netted per transaction.  A swap of 10 units of a
    token priced 0.1 SOL for 5 units of a token priced 0.3 SOL, with a
    fee of 5000 lamports, contributes [|-1 + 1.5| = 0.5] to
    [total_valorized], not [|-1| + |1.5| = 2.5]: the code answers 1,
    while the formula evaluated on the sum of the absolute values of
    the two token deltas gives 0.5. *)
Example swap_token_deltas_are_netted :
  let env := {| fetch_price_sol_from_jupiter :=
                  fun m => if String.eqb m "MINT_A" then Some (1 # 10)%Q
                           else if String.eqb m "MINT_B" then Some (3 # 10)%Q else None;
                BIRDEYE_API_KEY := "";
                fetch_price_sol_from_birdeye := fun _ _ => None |} in
  let record := fun m a => {| owner := "W1"; mint := m; uiAmount := a; decimals := 6 |} in
  let swap :=
    {| meta := {| preBalances := [10000000000]; postBalances := [10000000000];
                  preTokenBalances := [record "MINT_A" 10%Q; record "MINT_B" 0%Q];
                  postTokenBalances := [record "MINT_A" 0%Q; record "MINT_B" 5%Q];
                  fee := Some 5000; innerInstructions := [] |};
       accountKeys := ["W1"]; instructions := [] |} in
  let rpc := fun _ : string => Some swap in
  let sigs := [ {| signature := Some "S1"; slot := Some 5 |} ] in
  let ds := tx_deltas env 100 "W1" ∅ (fetched_enriched rpc (firstn 5 sigs)) in
  let r := fst (estimate_profit_enriched 10 env 100 rpc "W1" sigs 5 ∅) in
  let total_observed := (Qabs (res_profit r) + total d_fee ds)%Q in
  (total (fun d => Qabs (d_token d)) ds == 1 # 2)%Q /\
  (total (fun d => Qabs (d_sol d) + Qabs (d_wsol d)) ds == 0)%Q /\
  (total_observed == 1 # 2)%Q /\
  balance_alignment (res_reasons r) = 1%Q /\
  claimed_balance_alignment (Qabs (-10 * (1 # 10)) + Qabs (5 * (3 # 10))) total_observed
                            (10 / 100) = (1 # 2)%Q.
Proof.
  cbv zeta.
  split; [vm_compute; reflexivity|].
  split; [vm_compute; reflexivity|].
  split; [vm_compute; reflexivity|].
  split; vm_compute; reflexivity.
Qed.

(** *** Wrapped-native parity of the profit *)

Lemma lamport_change_same (bal : list Z) (keys : list string) (wallet : string) :
  (lamport_change bal bal keys wallet == 0)%Q.
Proof.
  unfold lamport_change. destruct (index_of wallet keys) as [idx|]; [|reflexivity].
  destruct (bal !! idx) as [z|]; [|reflexivity].
  rewrite Z.sub_diag. reflexivity.
Qed.

Lemma remove_dups_twice (k : string * string) : remove_dups ([k] ++ [k]) = [k].
Proof.
  cbn [app remove_dups].
  destruct (decide_rel elem_of k [k]) as [_|Hn]; [|exfalso; apply Hn; left].
  destruct (decide_rel elem_of k []) as [Hin|_]; [|reflexivity].
  exfalso. apply elem_of_nil in Hin. exact Hin.
Qed.

Lemma balance_keys_single (wallet m : string) (x : Q) (dec : Z) :
  balance_keys [ {| owner := wallet; mint := m; uiAmount := x; decimals := dec |} ] wallet
  = [(wallet, m)].
Proof.
  unfold balance_keys. rewrite filter_cons_True by apply String.eqb_refl.
  rewrite filter_nil. cbn [map owner mint remove_dups].
  destruct (decide_rel elem_of (wallet, m) []) as [Hin|_]; [|reflexivity].
  exfalso. apply elem_of_nil in Hin. exact Hin.
Qed.

(** [estimate_token_delta] on a transaction whose only token record of
    the wallet is wrapped-native, going from [a] to [b]. *)
Lemma token_delta_wsol_only (env : oracles) (now : Q) (wallet : string) (a b : Q)
    (dec : Z) (cache : TokenPriceCache) :
  estimate_token_delta env now
    [ {| owner := wallet; mint := WSOL_MINT; uiAmount := a; decimals := dec |} ]
    [ {| owner := wallet; mint := WSOL_MINT; uiAmount := b; decimals := dec |} ]
    wallet cache
  = (0%Q, if Qltb (Qabs (b - a)) (1 # 1000000000) then 0%Q else (0 + (b - a))%Q, cache).
Proof.
  unfold estimate_token_delta. rewrite !balance_keys_single, remove_dups_twice.
  unfold balance_map. cbn [fold_left owner mint uiAmount]. rewrite String.eqb_refl.
  cbn [fold_left]. unfold token_delta_step. rewrite !lookup_insert_eq. cbn [default from_option id snd].
  destruct (Qltb (Qabs (b - a)) (1 # 1000000000)); reflexivity.
Qed.

(** The profit half of the wrapped-native equivalence: a transaction
    that changes only the wallet's wrapped-native balance, from [a] to
    [b], and the same transaction with that change as a native balance
    delta give profits that differ by at most 1e-9, in both estimators. *)
Lemma wsol_parity_profit (pct : Q) (env : oracles) (now : Q) (wallet s : string)
    (cache : TokenPriceCache) (a b : Q) (dec : Z) (bal pre_n post_n : list Z)
    (keys : list string) (instrs : list Instruction) (f : option Z)
    (inner : list (list Instruction)) :
  s <> "" ->
  (lamport_change pre_n post_n keys wallet == b - a)%Q ->
  let tx_w :=
    {| meta := {| preBalances := bal; postBalances := bal;
                  preTokenBalances :=
                    [ {| owner := wallet; mint := WSOL_MINT; uiAmount := a;
                         decimals := dec |} ];
                  postTokenBalances :=
                    [ {| owner := wallet; mint := WSOL_MINT; uiAmount := b;
                         decimals := dec |} ];
                  fee := f; innerInstructions := inner |};
       accountKeys := keys; instructions := instrs |} in
  let tx_n :=
    {| meta := {| preBalances := pre_n; postBalances := post_n;
                  preTokenBalances := []; postTokenBalances := [];
                  fee := f; innerInstructions := inner |};
       accountKeys := keys; instructions := instrs |} in
  let sigs := [ {| signature := Some s; slot := None |} ] in
  (Qabs (res_profit (fst (estimate_profit_enriched pct env now (fun _ => Some tx_w)
                            wallet sigs 5 cache))
         - res_profit (fst (estimate_profit_enriched pct env now (fun _ => Some tx_n)
                              wallet sigs 5 cache)))
   <= 1 # 1000000000)%Q /\
  (Qabs (res_profit (fst (estimate_profit_async pct env now (fun _ _ => Some tx_w)
                            wallet sigs 5 cache))
         - res_profit (fst (estimate_profit_async pct env now (fun _ _ => Some tx_n)
                              wallet sigs 5 cache)))
   <= 1 # 1000000000)%Q.
Proof.
  intros Hs Hdelta tx_w tx_n sigs.
  assert (Htruthy : truthy_str (Some s) = Some s).
  { destruct s; [congruence | reflexivity]. }
  assert (Hbound : forall fee_part : Q,
    (Qabs ((0 + 0 + 0 +
            (if Qltb (Qabs (b - a)) (1 # 1000000000) then 0 else 0 + (b - a)) - fee_part)
           - (0 + lamport_change pre_n post_n keys wallet + 0 + 0 - fee_part))
     <= 1 # 1000000000)%Q).
  { intros fee_part. rewrite Hdelta.
    destruct (Qltb (Qabs (b - a)) (1 # 1000000000)) eqn:E.
    - apply Qltb_lt in E.
      assert (E1 : (0 + 0 + 0 + 0 - fee_part - (0 + (b - a) + 0 + 0 - fee_part)
                    == - (b - a))%Q) by ring.
      rewrite E1, Qabs_opp. apply Qlt_le_weak, E.
    - assert (E1 : (0 + 0 + 0 + (0 + (b - a)) - fee_part
                    - (0 + (b - a) + 0 + 0 - fee_part) == 0)%Q) by ring.
      rewrite E1. discriminate. }
  assert (Hsame : forall x y x' y' : Q,
             (x == x')%Q -> (y == y')%Q -> (Qabs (x' - y') <= 1 # 1000000000)%Q ->
             (Qabs (x - y) <= 1 # 1000000000)%Q).
  { intros x y x' y' -> ->. auto. }
  subst sigs. split.
  - unfold estimate_profit_enriched, res_profit, finish, enriched_loop, fetched_enriched.
    cbn [fst firstn omap list_omap signature]. rewrite Htruthy. cbn [fold_left].
    destruct (enriched_step_fields env now wallet (init_acc cache) tx_w) as (Ew & _).
    destruct (enriched_step_fields env now wallet (init_acc cache) tx_n) as (En & _).
    rewrite Ew, En. subst tx_w tx_n.
    cbn [meta preTokenBalances postTokenBalances preBalances postBalances accountKeys
         init_acc a_profit a_cache].
    rewrite token_delta_wsol_only. cbn [fst snd].
    eapply Hsame; [| reflexivity | apply (Hbound (fee_sol _))].
    rewrite lamport_change_same. reflexivity.
  - unfold estimate_profit_async, res_profit, finish, async_loop, fetched_async.
    cbn [fst firstn omap list_omap signature]. rewrite Htruthy. cbn [fold_left].
    destruct (async_step_fields env now wallet (init_acc cache) tx_w) as (Ew & _).
    destruct (async_step_fields env now wallet (init_acc cache) tx_n) as (En & _).
    rewrite Ew, En. subst tx_w tx_n.
    cbn [meta preTokenBalances postTokenBalances preBalances postBalances accountKeys
         init_acc a_profit a_cache].
    rewrite token_delta_wsol_only. cbn [fst snd].
    eapply Hsame; [| reflexivity | apply (Hbound (fee_sol _))].
    rewrite lamport_change_same. reflexivity.
Qed.

(** C2 on the code, at scenario 2 of the specification.  The delta of
    +3.0 SOL gives the same profit whether it appears as a native balance
    change or as a wrapped-native token change, but not the same label:
    the wrapped-native mint is counted in [total_tokens], it is never
    priced, so [price_coverage] is 0 and the label drops from high to
    med, in [estimate_profit_enriched] and in [estimate_profit_async]. *)
Theorem wsol_parity_confidence_differs :
  let sigs := [scenario.sig "S1" 5] in
  let native :=
    fst (estimate_profit_enriched 10 scenario.no_oracles 100
           (fun _ => Some scenario.tx_native) "W1" sigs 5 ∅) in
  let wsol :=
    fst (estimate_profit_enriched 10 scenario.no_oracles 100
           (fun _ => Some scenario.tx_wsol) "W1" sigs 5 ∅) in
  let native_a :=
    fst (estimate_profit_async 10 scenario.no_oracles 100
           (fun _ _ => Some scenario.tx_native) "W1" sigs 5 ∅) in
  let wsol_a :=
    fst (estimate_profit_async 10 scenario.no_oracles 100
           (fun _ _ => Some scenario.tx_wsol) "W1" sigs 5 ∅) in
  (res_profit wsol == res_profit native)%Q /\
  res_confidence native = "high" /\ res_confidence wsol = "med" /\
  (price_coverage (res_reasons native) == 1)%Q /\
  (price_coverage (res_reasons wsol) == 0)%Q /\
  (res_profit wsol_a == res_profit native_a)%Q /\
  res_confidence native_a = "high" /\ res_confidence wsol_a = "med".
Proof. vm_compute. repeat split; reflexivity. Qed.

End profit_estimator_proofs.

Module api_service_proofs.
Import api_auth rate_limiter api_service.

(** What [_handle_signals] does for a request that is authenticated and
    let through by the rate limiter: it answers 200 with the two
    rate-limit headers and hands to [json.dumps] the object
    [{"signals": ..., "count": ...}], where the signals are the last up
    to 100 alerts of the ring, in ring order and as the scan stored
    them.  The tier enters the headers only. *)
Lemma handle_signals_object (db : database) (rl : RateLimiter)
    (alerts_queue : list pydict) (now : Q) (api_key tier : string) (is_active : bool) :
  api_key <> "" ->
  validate_key db now api_key = Some (tier, is_active) ->
  fst (fst (fst (check_limit rl now (hash_key api_key) tier))) = true ->
  let resp := fst (_handle_signals db rl alerts_queue now (Some api_key)) in
  let signals := drop (length alerts_queue - 100) alerts_queue in
  status_code resp = 200 /\
  body resp = json_dumps [("signals", PyList (map PyDict signals));
                          ("count", PyInt (Z.of_nat (length signals)))] /\
  (length signals <= 100)%nat /\
  (exists older, alerts_queue = older ++ signals) /\
  (exists remaining limit,
      check_limit rl now (hash_key api_key) tier
        = ((true, remaining, limit), snd (check_limit rl now (hash_key api_key) tier)) /\
      headers resp = [("Content-type", "application/json");
                      ("X-RateLimit-Remaining", str remaining);
                      ("X-RateLimit-Limit", str limit)]).
Proof.
  intros Hkey Hvalid Hallowed resp signals. subst resp.
  unfold _handle_signals, _authenticate.
  assert (Htruthy : truthy_str (Some api_key) = Some api_key).
  { destruct api_key; [congruence | reflexivity]. }
  rewrite Htruthy, Hvalid.
  destruct (check_limit rl now (hash_key api_key) tier) as [[[allowed remaining] limit] rl'].
  cbn [fst snd] in Hallowed |- *. subst allowed. cbn [negb fst status_code body headers].
  fold signals.
  split; [reflexivity|]. split; [reflexivity|].
  split; [subst signals; rewrite length_drop; lia|].
  split; [exists (take (length alerts_queue - 100) alerts_queue); subst signals;
          symmetry; apply take_drop|].
  exists remaining, limit. auto.
Qed.

(** The payload of the signals object: it is written exactly when every
    alert among the last 100 is accepted by [json.dumps]. *)
Lemma signals_payload (signals : list pydict) :
  let obj := [("signals", PyList (map PyDict signals));
              ("count", PyInt (Z.of_nat (length signals)))] in
  (forallb (fun a => json_serializable (PyDict a)) signals = true ->
   json_dumps obj = Json obj) /\
  (forallb (fun a => json_serializable (PyDict a)) signals = false ->
   json_dumps obj = TypeError).
Proof.
  cbv zeta. unfold json_dumps.
  assert (E : json_serializable
                (PyDict [("signals", PyList (map PyDict signals));
                         ("count", PyInt (Z.of_nat (length signals)))])
              = forallb (fun a => json_serializable (PyDict a)) signals).
  { cbn [json_serializable forallb snd]. rewrite andb_true_r.
    induction signals as [|a l IH]; [reflexivity|].
    cbn [map forallb]. rewrite IH. reflexivity. }
  rewrite E. split; intros ->; reflexivity.
Qed.

(** Every record that a batch appends to the API ring holds a
    [datetime] under "timestamp": [json.dumps] refuses it. *)
Lemma batch_alert_refused_by_json (cfg : wallet_monitor.AlertConfig) (env : wallet_monitor.Env)
    (wallet : string) (wallet_row : option wallet_monitor.WalletRow)
    (st : wallet_monitor.State) (i : nat) (batch : list profit_estimator.SigInfo) (a : pydict) :
  a ∈ default [] (wallet_monitor.alerts_queue
                    (wallet_monitor.process_batch cfg env wallet wallet_row st i batch)) ->
  a ∈ default [] (wallet_monitor.alerts_queue st) \/ json_serializable (PyDict a) = false.
Proof.
  unfold wallet_monitor.process_batch.
  destruct (wallet_monitor.estimate_fault env i) as [faulty|]; [auto|].
  destruct (profit_estimator.estimate_profit_async _ _ _ _ _ _ _ _)
    as [[[[[profit pnl_confidence] counterparties] programs] reasons] cache].
  destruct (omap _ batch) as [|primary_sig more]; [auto|].
  destruct (Qltb _ _ || Qltb _ _); [auto|].
  destruct (Qltb profit _); [auto|].
  destruct (negb (existsb _ _)); [auto|].
  destruct (negb (wallet_monitor.should_alert _ _ _ _ _)); [auto|].
  destruct (wallet_monitor.compute_zscore env _ profit) as [zscore history].
  cbn [wallet_monitor.mark_alert wallet_monitor.emit wallet_monitor.alerts_queue].
  destruct (wallet_monitor.alerts_queue st) as [queue|]; cbn [default from_option id];
    [|auto].
  destruct (wallet_monitor.daas_mode cfg); cbn [default from_option id]; [|auto].
  intros Ha. cbv zeta in Ha. unfold Datatypes.id in Ha.
  match type of Ha with
  | a ∈ (if ?c then _ else ?q) =>
      assert (Hin : a ∈ q)
        by (destruct c; [eapply subseteq_drop, Ha | exact Ha])
  end.
  apply elem_of_app in Hin as [Hin|Hin]; [auto|].
  apply list_elem_of_singleton in Hin. subst a. right. reflexivity.
Qed.

(** A ring that holds such records only, and at least one, is never
    served: the request that is authenticated and let through gets the
    status line 200 and no payload. *)
Lemma scan_ring_not_served (db : database) (rl : RateLimiter)
    (alerts_queue : list pydict) (now : Q) (api_key tier : string) (is_active : bool) :
  api_key <> "" ->
  validate_key db now api_key = Some (tier, is_active) ->
  fst (fst (fst (check_limit rl now (hash_key api_key) tier))) = true ->
  alerts_queue <> [] ->
  Forall (fun a => json_serializable (PyDict a) = false) alerts_queue ->
  let resp := fst (_handle_signals db rl alerts_queue now (Some api_key)) in
  status_code resp = 200 /\ body resp = TypeError.
Proof.
  intros Hkey Hvalid Hallowed Hne Hall.
  destruct (handle_signals_object db rl alerts_queue now api_key tier is_active
              Hkey Hvalid Hallowed) as (Hstatus & Hbody & _ & (older & Holder) & _).
  cbv zeta. split; [exact Hstatus|]. rewrite Hbody.
  apply signals_payload.
  set (signals := drop (length alerts_queue - 100) alerts_queue) in *.
  assert (Hlen : (0 < length signals)%nat).
  { subst signals. rewrite length_drop. destruct alerts_queue; [congruence | cbn; lia]. }
  destruct signals as [|a l]; [cbn in Hlen; lia|].
  assert (Ha : json_serializable (PyDict a) = false).
  { rewrite Forall_forall in Hall. apply Hall. rewrite Holder.
    apply elem_of_app. right. left. }
  cbn [forallb]. rewrite Ha. reflexivity.
Qed.

(** C8.  The signals endpoint neither shapes nor, once the ring holds an
    alert, serves.  The key store holds an active free-tier key and an
    active elite-tier key.  With the ring as the scan of scenario 1 left
    it (one alert), both callers get the status line 200 and then
    nothing: the alert holds a [datetime] under "timestamp", so
    [json.dumps] raises after the headers were sent.  With an empty
    ring both callers are sent the same object
    [{"signals": [], "count": 0}]: it carries no disclaimer, and no
    upgrade hint for the free tier. *)
Theorem signals_neither_shaped_nor_served :
  let queue := default [] (wallet_monitor.alerts_queue scenario.st1) in
  let get := fun q key =>
    fst (_handle_signals scenario.db scenario.limiter q 2000 (Some key)) in
  length queue = 1%nat /\
  validate_key scenario.db 2000 "daas_f" = Some ("free", true) /\
  validate_key scenario.db 2000 "daas_e" = Some ("elite", true) /\
  status_code (get queue "daas_f") = 200 /\ body (get queue "daas_f") = TypeError /\
  status_code (get queue "daas_e") = 200 /\ body (get queue "daas_e") = TypeError /\
  status_code (get [] "daas_f") = 200 /\
  body (get [] "daas_f") = Json [("signals", PyList []); ("count", PyInt 0)] /\
  body (get [] "daas_e") = body (get [] "daas_f").
Proof.
  cbv zeta.
  split; [vm_compute; reflexivity|].
  split; [vm_compute; reflexivity|].
  split; [vm_compute; reflexivity|].
  split; [vm_compute; reflexivity|].
  split; [vm_compute; reflexivity|].
  split; [vm_compute; reflexivity|].
  split; [vm_compute; reflexivity|].
  split; [vm_compute; reflexivity|].
  split; vm_compute; reflexivity.
Qed.

(** Had the ring held a record that [json.dumps] accepts, the free-tier
    caller would be sent it with all its fields, as the elite-tier
    caller is. *)
Example free_tier_sent_full_record :
  let alert := [("wallet", PyStr "W1"); ("profit", PyFloat 3); ("win_rate", PyFloat 90);
                ("counterparties", PyList [PyStr "W2"]); ("zscore", PyFloat 0);
                ("pnl_confidence", PyStr "high"); ("tier", PyStr "free")] in
  let get := fun key =>
    fst (_handle_signals scenario.db scenario.limiter [alert] 2000 (Some key)) in
  body (get "daas_f") = Json [("signals", PyList [PyDict alert]); ("count", PyInt 1)] /\
  body (get "daas_e") = body (get "daas_f").
Proof. cbv zeta. split; vm_compute; reflexivity. Qed.

(** Scenario 6 through the handler: ten calls answer 200, the eleventh
    429. *)
Example eleven_signal_requests :
  let step := fun (acc : list Z * RateLimiter) (_ : nat) =>
    let r := _handle_signals scenario.db (snd acc) [] 2000 (Some "daas_f") in
    (fst acc ++ [status_code (fst r)], snd r) in
  fst (fold_left step (seq 0 11) ([], scenario.limiter))
  = repeat 200 10 ++ [429].
Proof. vm_compute. reflexivity. Qed.

End api_service_proofs.

Module rate_limiter_usage_proofs.
Import rate_limiter rate_limiter_facts rate_limiter_proofs rate_limiter_usage.

Lemma get_usage_eq (self : RateLimiter) (now : Q) (h tier : string) :
  fst (get_usage self now h tier) = (current_count self now h, limits_get (limits self) tier).
Proof.
  unfold get_usage, current_count, counters_getitem.
  destruct (_counters self !! h) as [[count last_reset]|]; cbn [fst]; [reflexivity|].
  destruct (Qltb now (_get_reset_time self now)); reflexivity.
Qed.

Lemma get_usage_keeps (self : RateLimiter) (now : Q) (h tier : string) :
  limits (snd (get_usage self now h tier)) = limits self /\
  utcoffset (snd (get_usage self now h tier)) = utcoffset self /\
  current_count (snd (get_usage self now h tier)) now h = current_count self now h.
Proof.
  unfold get_usage, counters_getitem, current_count, _get_reset_time.
  destruct (_counters self !! h) as [[c lr]|] eqn:E;
    cbn [snd limits _counters utcoffset]; rewrite lookup_insert_eq;
    (split; [reflexivity|]); (split; [reflexivity|]); [reflexivity|].
  destruct (Qltb now _); reflexivity.
Qed.

(** X1. Reading the usage and asking for admission agree: [check_limit]
    lets the request through iff the count that [get_usage] reports is
    below the limit, the remaining quota it returns is the limit minus
    that count (floored at 0), so it is counted before the request
    itself and is at least 1 on a request let through; afterwards
    [get_usage] reports one more exactly when the request was let
    through.  Reading the usage first does not change the answer. *)
Theorem usage_then_check (self : RateLimiter) (now : Q) (h tier : string) :
  let u := get_usage self now h tier in
  let count := fst (fst u) in
  let limit := snd (fst u) in
  let r := check_limit (snd u) now h tier in
  let allowed := fst (fst (fst r)) in
  let remaining := snd (fst (fst r)) in
  fst r = fst (check_limit self now h tier) /\
  snd (fst r) = limit /\
  (allowed = true <-> count < limit) /\
  remaining = Z.max 0 (limit - count) /\
  (allowed = true -> 1 <= remaining) /\
  fst (get_usage (snd r) now h tier) = (if allowed then count + 1 else count, limit).
Proof.
  cbv zeta. rewrite get_usage_eq. cbn [fst snd].
  destruct (get_usage_keeps self now h tier) as (Hlim & Hzone & Hcount).
  rewrite (get_usage_eq (snd (check_limit _ _ _ _))), count_after_check.
  rewrite !check_limit_eq. cbv zeta. cbn [fst snd limits]. rewrite Hcount, Hlim.
  set (count := current_count self now h). set (limit := limits_get (limits self) tier).
  split; [reflexivity|]. split; [reflexivity|].
  split; [apply Z.ltb_lt|]. split; [reflexivity|].
  split; [intros H; apply Z.ltb_lt in H; lia|].
  reflexivity.
Qed.

(** X2. Quotas are per key: a call of [check_limit] for one key hash
    leaves the counter of every other key hash as it is, so the answer
    that any later call gets for another key is the one it would have
    got without it. *)
Theorem check_limit_other_keys (self : RateLimiter) (now : Q) (h tier h' : string) :
  h' <> h ->
  let self' := snd (check_limit self now h tier) in
  _counters self' !! h' = _counters self !! h' /\
  forall (now' : Q) (tier' : string),
    fst (check_limit self' now' h' tier') = fst (check_limit self now' h' tier').
Proof.
  intros Hne. cbv zeta. rewrite check_limit_eq. cbv zeta. cbn [snd].
  assert (Hget : forall v : Z * Q,
             <[h := v]> (_counters self) !! h' = _counters self !! h').
  { intros v. apply lookup_insert_ne. congruence. }
  split; [cbn [_counters]; apply Hget|].
  intros now' tier'. rewrite !check_limit_eq. cbv zeta. cbn [fst limits].
  unfold current_count, _get_reset_time. cbn [_counters utcoffset]. rewrite Hget.
  reflexivity.
Qed.

Lemma check_limit_other_keys_witness :
  let self := __init__ {| rate_limit_free := 1; rate_limit_pro := 5; rate_limit_elite := 9 |}
                       utc_host in
  _counters (snd (check_limit self 1700000000 "a" "free")) !! "b" = _counters self !! "b".
Proof.
  intros self.
  apply (check_limit_other_keys self 1700000000 "a" "free" "b"). discriminate.
Defined.

Lemma refused_invariant_step (zone : Z -> Q) (cfg : ApiConfig) (h tier : string) (d : Z)
    (cnt : gmap string (Z * Q)) (c : call) :
  (exists n lr, cnt !! h = Some (n, lr) /\ limits_get cfg tier <= n
                /\ Qltb lr (day_reset zone d) = false) ->
  utc_day (c_now c) = d ->
  (c_hash c = h -> c_tier c = tier) ->
  let r := check_limit {| limits := cfg; _counters := cnt; utcoffset := zone |}
             (c_now c) (c_hash c) (c_tier c) in
  limits (snd r) = cfg /\ utcoffset (snd r) = zone /\
  (c_hash c = h -> fst (fst (fst r)) = false) /\
  (exists n lr, _counters (snd r) !! h = Some (n, lr)
                /\ limits_get cfg tier <= n /\ Qltb lr (day_reset zone d) = false).
Proof.
  intros (n & lr & Hget & Hn & Hlr) Hday Htier. cbv zeta.
  rewrite check_limit_eq. cbv zeta. cbn [fst snd limits _counters utcoffset].
  split; [reflexivity|]. split; [reflexivity|].
  destruct (decide (c_hash c = h)) as [Heq|Hne].
  - specialize (Htier Heq). rewrite Heq, Htier.
    pose proof (current_count_cases {| limits := cfg; _counters := cnt; utcoffset := zone |}
                  (c_now c) h) as Hc.
    cbn [_counters] in Hc. rewrite Hget in Hc.
    assert (Hsame : _get_reset_time {| limits := cfg; _counters := cnt; utcoffset := zone |}
                      (c_now c) = day_reset zone d).
    { unfold _get_reset_time. cbn [utcoffset]. rewrite Hday. reflexivity. }
    rewrite Hsame in Hc.
    destruct Hc as [(Hroll & _)|(_ & Hcur & Hrst)]; [congruence|].
    rewrite Hcur, Hrst.
    destruct (Z.ltb_spec n (limits_get cfg tier)) as [Hlt|_]; [lia|].
    split; [reflexivity|]. exists n, lr. rewrite lookup_insert_eq. auto.
  - split; [congruence|]. exists n, lr. rewrite lookup_insert_ne by exact Hne. auto.
Qed.

Lemma refused_invariant_run (zone : Z -> Q) (cfg : ApiConfig) (h tier : string) (d : Z)
    (calls : list call) :
  forall cnt : gmap string (Z * Q),
    (exists n lr, cnt !! h = Some (n, lr) /\ limits_get cfg tier <= n
                  /\ Qltb lr (day_reset zone d) = false) ->
    all_in_day d calls = true ->
    same_tier h tier calls = true ->
    Forall (fun b => b = false)
           (answers_for {| limits := cfg; _counters := cnt; utcoffset := zone |} calls h).
Proof.
  induction calls as [|c rest IH]; intros cnt Hinv Hday Htier; [constructor|].
  cbn [all_in_day forallb] in Hday. apply andb_true_iff in Hday as [Hd Hday].
  apply Z.eqb_eq in Hd.
  cbn [same_tier forallb] in Htier. apply andb_true_iff in Htier as [Hc Htier].
  assert (Hc' : c_hash c = h -> c_tier c = tier).
  { intros E. apply String.eqb_eq in E. rewrite E in Hc. cbn in Hc.
    apply String.eqb_eq. exact Hc. }
  pose proof (refused_invariant_step zone cfg h tier d cnt c Hinv Hd Hc')
    as (Hlim & Hzone & Hans & Hinv').
  cbn [answers_for].
  destruct (check_limit {| limits := cfg; _counters := cnt; utcoffset := zone |}
              (c_now c) (c_hash c) (c_tier c))
    as [[[allowed remaining] limit] [lim' cnt' zone']].
  cbn [fst snd limits _counters utcoffset] in Hlim, Hzone, Hans, Hinv'. subst lim' zone'.
  apply Forall_app. split.
  - destruct (String.eqb_spec (c_hash c) h) as [E|_]; [|constructor].
    constructor; [auto | constructor].
  - apply IH; assumption.
Qed.

(** X3. A refusal holds for the rest of the UTC day: after a call that
    [check_limit] refused for a key hash, every later call made with
    that key hash (and the same tier) during the same UTC day is
    refused too, whatever calls are made for other keys in between. *)
Theorem refusal_lasts_all_day (self : RateLimiter) (now : Q) (h tier : string)
    (calls : list call) :
  fst (fst (fst (check_limit self now h tier))) = false ->
  all_in_day (utc_day now) calls = true ->
  same_tier h tier calls = true ->
  Forall (fun b => b = false)
         (answers_for (snd (check_limit self now h tier)) calls h).
Proof.
  intros Hrefused Hday Htier. rewrite check_limit_eq in Hrefused |- *.
  cbv zeta in Hrefused |- *. cbn [fst snd] in Hrefused |- *.
  rewrite Hrefused. apply Z.ltb_ge in Hrefused.
  apply (refused_invariant_run (utcoffset self) (limits self) h tier (utc_day now));
    try assumption.
  exists (current_count self now h), (current_reset self now h).
  rewrite lookup_insert_eq. split; [reflexivity|]. split; [exact Hrefused|].
  apply (current_reset_not_rolled self now h).
Qed.

Lemma refusal_lasts_all_day_witness :
  let self := snd (check_limit
                     (__init__ {| rate_limit_free := 1; rate_limit_pro := 5;
                                  rate_limit_elite := 9 |} utc_host)
                     1700000000 "a" "free") in
  let calls := [ {| c_now := 1700000002; c_hash := "b"; c_tier := "pro" |};
                 {| c_now := 1700000003; c_hash := "a"; c_tier := "free" |} ] in
  fst (fst (fst (check_limit self 1700000001 "a" "free"))) = false /\
  Forall (fun b => b = false)
         (answers_for (snd (check_limit self 1700000001 "a" "free")) calls "a").
Proof.
  intros self calls. split; [vm_compute; reflexivity|].
  apply (refusal_lasts_all_day self 1700000001 "a" "free" calls); vm_compute; reflexivity.
Defined.

End rate_limiter_usage_proofs.

Module key_store_proofs.
Import api_auth key_store.

(** *** Rows and look-ups *)

Lemma existsb_hash_in (h : string) (rows : list api_key_row) :
  existsb (fun r => String.eqb (key_hash r) h) rows = true <-> h ∈ map key_hash rows.
Proof.
  induction rows as [|r rows IH]; cbn [existsb map].
  - split; [discriminate | intros H; apply elem_of_nil in H; contradiction].
  - rewrite orb_true_iff, IH, elem_of_cons, String.eqb_eq. split; intros [H|H]; auto.
Qed.

Lemma find_hash_app (h : string) (rows more : list api_key_row) :
  find (fun r => String.eqb (key_hash r) h) (rows ++ more) =
    match find (fun r => String.eqb (key_hash r) h) rows with
    | Some r => Some r
    | None => find (fun r => String.eqb (key_hash r) h) more
    end.
Proof.
  induction rows as [|r rows IH]; [reflexivity|].
  cbn [app find]. destruct (String.eqb (key_hash r) h); [reflexivity | exact IH].
Qed.

Lemma find_hash_none (h : string) (rows : list api_key_row) :
  existsb (fun r => String.eqb (key_hash r) h) rows = false ->
  find (fun r => String.eqb (key_hash r) h) rows = None.
Proof.
  induction rows as [|r rows IH]; [reflexivity|].
  cbn [existsb find]. intros H. apply orb_false_iff in H as [-> H]. auto.
Qed.

Lemma find_hash_map (f : api_key_row -> api_key_row) (h : string)
    (rows : list api_key_row) :
  (forall r, key_hash (f r) = key_hash r) ->
  find (fun r => String.eqb (key_hash r) h) (map f rows)
  = option_map f (find (fun r => String.eqb (key_hash r) h) rows).
Proof.
  intros Hf. induction rows as [|r rows IH]; [reflexivity|].
  cbn [map find]. rewrite Hf. destruct (String.eqb (key_hash r) h); [reflexivity | exact IH].
Qed.

Lemma validate_key_row (db : database) (now : Q) (api_key : string) :
  validate_key db now api_key =
    match find (fun r => String.eqb (key_hash r) (hash_key api_key)) (api_keys db) with
    | Some row => row_answer now row
    | None => None
    end.
Proof.
  unfold validate_key, row_answer, expired.
  destruct (find _ (api_keys db)) as [row|]; [|reflexivity].
  destruct (match truthy_time (expires_at row) with Some e => Qltb e now | None => false end);
    [reflexivity|].
  destruct (is_active row =? 0); reflexivity.
Qed.

Lemma find_hash_some (h : string) (rows : list api_key_row) (row : api_key_row) :
  find (fun r => String.eqb (key_hash r) h) rows = Some row ->
  key_hash row = h /\ existsb (fun r => String.eqb (key_hash r) h) rows = true.
Proof.
  intros H. split.
  - apply find_some in H as [_ H]. apply String.eqb_eq in H. exact H.
  - apply existsb_exists. apply find_some in H as [Hin H]. eauto.
Qed.

Lemma find_hash_rewrite (h h' : string) (f : api_key_row -> api_key_row)
    (rows : list api_key_row) :
  (forall r, key_hash (f r) = key_hash r) ->
  find (fun r => String.eqb (key_hash r) h')
       (map (fun r => if String.eqb (key_hash r) h then f r else r) rows)
  = option_map (fun r => if String.eqb (key_hash r) h then f r else r)
      (find (fun r => String.eqb (key_hash r) h') rows).
Proof.
  intros Hf. apply find_hash_map. intros r.
  destruct (String.eqb (key_hash r) h); [apply Hf | reflexivity].
Qed.

Lemma off_step (db : database) (h : string) (op : operation) :
  off db h -> off (apply_operation db op) h.
Proof.
  intros (row & Hfind & Hoff). destruct op as [now k t e | k | k t]; cbn [apply_operation].
  - unfold create_key. destruct (existsb _ (api_keys db)); [exists row; auto|].
    exists row. cbn [api_keys]. split; [|exact Hoff].
    rewrite find_hash_app, Hfind. reflexivity.
  - unfold off, deactivate_key. cbn [snd api_keys].
    rewrite (find_hash_rewrite (hash_key k) h switched_off) by reflexivity.
    rewrite Hfind. cbn [option_map]. eexists. split; [reflexivity|].
    destruct (String.eqb (key_hash row) (hash_key k)); [reflexivity | exact Hoff].
  - unfold off, update_tier. cbn [snd api_keys].
    rewrite (find_hash_rewrite (hash_key k) h (retiered t)) by reflexivity.
    rewrite Hfind. cbn [option_map]. eexists. split; [reflexivity|].
    destruct (String.eqb (key_hash row) (hash_key k)); [exact Hoff | exact Hoff].
Qed.

Lemma off_run (ops : list operation) (db : database) (h : string) :
  off db h -> off (fold_left apply_operation ops db) h.
Proof.
  revert db. induction ops as [|op ops IH]; intros db H; [exact H|].
  cbn [fold_left]. apply IH, off_step, H.
Qed.

Lemma off_validate (db : database) (now : Q) (k : string) :
  off db (hash_key k) -> validate_key db now k = None.
Proof.
  intros (row & Hfind & Hoff). rewrite validate_key_row, Hfind. unfold row_answer.
  rewrite Hoff. destruct (expired _ _); reflexivity.
Qed.

Lemma key_hashes_step (db : database) (op : operation) :
  exists more, key_hashes (apply_operation db op) = key_hashes db ++ more /\
               (NoDup (key_hashes db) -> NoDup (key_hashes (apply_operation db op))).
Proof.
  assert (Hmap : forall (h : string) (f : api_key_row -> api_key_row) rows,
             (forall r, key_hash (f r) = key_hash r) ->
             map key_hash (map (fun r => if String.eqb (key_hash r) h then f r else r) rows)
             = map key_hash rows).
  { intros h f rows Hf. rewrite map_map. apply map_ext. intros r.
    destruct (String.eqb (key_hash r) h); [apply Hf | reflexivity]. }
  unfold key_hashes. destruct op as [now k t e | k | k t]; cbn [apply_operation].
  - unfold create_key.
    destruct (existsb _ (api_keys db)) eqn:E.
    + exists []. rewrite app_nil_r. auto.
    + exists [hash_key k]. cbn [api_keys]. rewrite map_app. cbn [map key_hash].
      split; [reflexivity|]. intros Hnd. apply NoDup_app. split; [exact Hnd|].
      split; [|apply NoDup_singleton].
      intros x Hx Hx'. apply list_elem_of_singleton in Hx'. subst x.
      apply existsb_hash_in in Hx. congruence.
  - exists []. rewrite app_nil_r. unfold deactivate_key. cbn [snd api_keys].
    rewrite (Hmap (hash_key k) switched_off) by reflexivity. auto.
  - exists []. rewrite app_nil_r. unfold update_tier. cbn [snd api_keys].
    rewrite (Hmap (hash_key k) (retiered t)) by reflexivity. auto.
Qed.

Lemma deactivate_off (db : database) (api_key : string) :
  fst (deactivate_key db api_key) = true ->
  off (snd (deactivate_key db api_key)) (hash_key api_key).
Proof.
  intros H. unfold deactivate_key in *. cbn [fst snd] in *. unfold off. cbn [api_keys].
  rewrite (find_hash_rewrite (hash_key api_key) (hash_key api_key) switched_off) by reflexivity.
  destruct (find _ (api_keys db)) as [row|] eqn:Hfind.
  - cbn [option_map]. eexists. split; [reflexivity|].
    apply find_hash_some in Hfind as [-> _]. rewrite String.eqb_refl. reflexivity.
  - exfalso. apply existsb_exists in H as (r & Hin & Hr).
    apply (find_none _ _ Hfind) in Hin. congruence.
Qed.

(** *** The key store of [ApiAuth] *)

(** X4.  [create_key] and [validate_key] round trip.  The INSERT raises
    exactly when the digest of the drawn token is already stored.
    Otherwise the call returns the token with its digest, the new key
    validates with the tier it was created with at every instant up to its
    expiry (always, when [expires_at] is NULL or 0) and not after, and the
    answer of [validate_key] for every key with another digest is what it
    was before. *)
Theorem create_key_round_trip (db : database) (now : Q) (api_key tier : string)
    (expires_at : option Q) :
  (hash_key api_key ∈ key_hashes db ->
   create_key db now api_key tier expires_at = None) /\
  (hash_key api_key ∉ key_hashes db ->
   exists db',
     create_key db now api_key tier expires_at = Some ((api_key, hash_key api_key), db') /\
     key_hashes db' = key_hashes db ++ [hash_key api_key] /\
     (forall now', validate_key db' now' api_key =
                     if expired expires_at now' then None else Some (tier, true)) /\
     (forall now' other, hash_key other <> hash_key api_key ->
                         validate_key db' now' other = validate_key db now' other)).
Proof.
  unfold key_hashes. split; intros H.
  - apply existsb_hash_in in H. unfold create_key. rewrite H. reflexivity.
  - assert (E : existsb (fun r => String.eqb (key_hash r) (hash_key api_key)) (api_keys db)
                = false).
    { destruct (existsb _ (api_keys db)) eqn:E; [|reflexivity].
      apply existsb_hash_in in E. contradiction. }
    unfold create_key. rewrite E. eexists. split; [reflexivity|].
    cbn [api_keys]. split; [rewrite map_app; reflexivity|]. split.
    + intros now'. rewrite validate_key_row. cbn [api_keys].
      rewrite find_hash_app, (find_hash_none _ _ E). cbn [find key_hash].
      rewrite String.eqb_refl. unfold row_answer. cbn [api_auth.expires_at is_active api_auth.tier].
      destruct (expired expires_at now'); reflexivity.
    + intros now' other Hne. rewrite !validate_key_row. cbn [api_keys].
      rewrite find_hash_app. destruct (find _ (api_keys db)); [reflexivity|].
      cbn [find key_hash].
      assert (String.eqb (hash_key api_key) (hash_key other) = false) as ->.
      { apply String.eqb_neq. congruence. }
      reflexivity.
Qed.

(** X5.  A deactivation is permanent.  Once [deactivate_key] has returned
    [True] for a key, [validate_key] refuses that key at every later
    instant, whatever calls of [create_key], [deactivate_key] and
    [update_tier] (with any arguments) are made in between: no method of
    [ApiAuth] writes [is_active = 1] to a stored row, and the UNIQUE
    digest keeps [create_key] from inserting the key anew. *)
Theorem deactivate_key_is_permanent (db : database) (api_key : string)
    (ops : list operation) (now : Q) :
  fst (deactivate_key db api_key) = true ->
  validate_key (fold_left apply_operation ops (snd (deactivate_key db api_key))) now api_key
  = None.
Proof.
  intros H. apply off_validate, off_run, deactivate_off, H.
Qed.

Lemma deactivate_key_is_permanent_witness :
  let db := {| api_keys := [ {| id := 1; key_hash := hash_key "daas_k"; tier := "pro";
                                created_at := 100; expires_at := None; is_active := 1 |} ];
               subscriptions := [] |} in
  validate_key db 150 "daas_k" = Some ("pro", true) /\
  fst (deactivate_key db "daas_k") = true /\
  validate_key
    (fold_left apply_operation
       [UpdateTier "daas_k" "elite"; CreateKey 200 "daas_k" "pro" None;
        CreateKey 210 "daas_other" "free" None]
       (snd (deactivate_key db "daas_k"))) 300 "daas_k" = None.
Proof.
  intros db. split; [vm_compute; reflexivity|]. split; [vm_compute; reflexivity|].
  apply (deactivate_key_is_permanent db "daas_k"). vm_compute. reflexivity.
Defined.

(** X6.  [update_tier] changes the tier and nothing else.  It returns
    [True] exactly when the digest of its argument is stored; afterwards
    [validate_key] accepts the key exactly when it did before, now with
    the new tier, and answers for every key with another digest as
    before. *)
Theorem update_tier_round_trip (db : database) (api_key new_tier : string) :
  (fst (update_tier db api_key new_tier) = true <-> hash_key api_key ∈ key_hashes db) /\
  (forall now,
     validate_key (snd (update_tier db api_key new_tier)) now api_key
     = option_map (fun answer => (new_tier, snd answer)) (validate_key db now api_key)) /\
  (forall now other, hash_key other <> hash_key api_key ->
     validate_key (snd (update_tier db api_key new_tier)) now other
     = validate_key db now other).
Proof.
  split; [|split].
  - unfold update_tier, key_hashes. cbn [fst]. apply existsb_hash_in.
  - intros now. rewrite !validate_key_row. unfold update_tier. cbn [snd api_keys].
    rewrite (find_hash_rewrite (hash_key api_key) (hash_key api_key) (retiered new_tier))
      by reflexivity.
    destruct (find _ (api_keys db)) as [row|] eqn:Hfind; [|reflexivity].
    cbn [option_map]. apply find_hash_some in Hfind as [-> _]. rewrite String.eqb_refl.
    unfold row_answer, retiered. cbn [api_auth.expires_at is_active api_auth.tier].
    destruct (expired _ _); [reflexivity|]. destruct (is_active row =? 0); reflexivity.
  - intros now other Hne. rewrite !validate_key_row. unfold update_tier. cbn [snd api_keys].
    rewrite (find_hash_rewrite (hash_key api_key) (hash_key other) (retiered new_tier))
      by reflexivity.
    destruct (find _ (api_keys db)) as [row|] eqn:Hfind; [|reflexivity].
    cbn [option_map]. apply find_hash_some in Hfind as [Hrow _].
    assert (String.eqb (key_hash row) (hash_key api_key) = false) as ->.
    { apply String.eqb_neq. congruence. }
    reflexivity.
Qed.

(** X7.  Key rows are never deleted and digests stay unique.  Over any
    sequence of [create_key], [deactivate_key] and [update_tier] calls the
    stored digests only grow at the end, in insertion order, and a store
    without duplicate digests (the UNIQUE constraint) stays so. *)
Theorem key_rows_only_grow (db : database) (ops : list operation) :
  NoDup (key_hashes db) ->
  NoDup (key_hashes (fold_left apply_operation ops db)) /\
  exists more, key_hashes (fold_left apply_operation ops db) = key_hashes db ++ more.
Proof.
  revert db. induction ops as [|op ops IH]; intros db Hnd; cbn [fold_left].
  - split; [exact Hnd|]. exists []. rewrite app_nil_r. reflexivity.
  - destruct (key_hashes_step db op) as (more & Hmore & Hnd').
    destruct (IH _ (Hnd' Hnd)) as (Hnd'' & more' & Hmore').
    split; [exact Hnd''|]. exists (more ++ more').
    rewrite Hmore', Hmore, app_assoc. reflexivity.
Qed.

Lemma key_rows_only_grow_witness :
  let ops := [CreateKey 100 "daas_k" "pro" None; DeactivateKey "daas_k";
              CreateKey 110 "daas_k" "free" None; CreateKey 120 "daas_other" "free" None] in
  NoDup (key_hashes empty_db) /\
  NoDup (key_hashes (fold_left apply_operation ops empty_db)) /\
  exists more, key_hashes (fold_left apply_operation ops empty_db)
               = key_hashes empty_db ++ more.
Proof.
  intros ops. split; [apply NoDup_nil_2|].
  apply (key_rows_only_grow empty_db ops). apply NoDup_nil_2.
Defined.

End key_store_proofs.

Module estimator_proofs.
Import profit_estimator profit_estimator_proofs estimator_spec.

(** *** Invariants of the loops *)

Lemma counters_ok_init (cache : TokenPriceCache) : counters_ok (init_acc cache).
Proof. unfold counters_ok. cbn. lia. Qed.

Lemma inner_count_nonneg (l : list (list Instruction)) (n : Z) :
  0 <= n -> 0 <= fold_left (fun n inst => n + Z.of_nat (length inst)) l n.
Proof.
  revert n. induction l as [|x l IH]; intros n Hn; cbn [fold_left]; [exact Hn|].
  apply IH. lia.
Qed.

Lemma unique_mints_grow (prev new : list string) :
  (length (remove_dups (prev ++ new)) <= length prev + length new)%nat.
Proof.
  rewrite <- length_app. generalize (prev ++ new). intros l.
  induction l as [|x l IH]; cbn [remove_dups length]; [lia|].
  destruct (decide_rel elem_of x l); cbn [length]; lia.
Qed.

Lemma counters_ok_enriched (env : oracles) (now : Q) (wallet : string)
    (acc : Accumulators) (tx : Transaction) :
  counters_ok acc -> counters_ok (enriched_step env now wallet acc tx).
Proof.
  intros (Hp & Hi & Hu). unfold counters_ok, enriched_step.
  destruct (estimate_token_delta _ _ _ _ _ _) as [[tok wsol] cache'].
  cbn [a_priced_tokens a_total_tokens a_total_inner_inst a_unique_mints].
  set (mints := tx_mints _).
  pose proof (length_filter (fun mint => is_Some (get_price cache' now mint 0)) mints) as Hf.
  pose proof (unique_mints_grow (a_unique_mints acc) mints) as Hg.
  lia.
Qed.

Lemma counters_ok_async (env : oracles) (now : Q) (wallet : string)
    (acc : Accumulators) (tx : Transaction) :
  counters_ok acc -> counters_ok (async_step env now wallet acc tx).
Proof.
  intros (Hp & Hi & Hu). unfold counters_ok, async_step.
  destruct (estimate_token_delta _ _ _ _ _ _) as [[tok wsol] cache'].
  cbn [a_priced_tokens a_total_tokens a_total_inner_inst a_unique_mints].
  set (mints := tx_mints _).
  pose proof (length_filter (fun mint => is_Some (get_price cache' now mint 60)) mints) as Hf.
  pose proof (unique_mints_grow (a_unique_mints acc) mints) as Hg.
  pose proof (inner_count_nonneg (innerInstructions (meta tx)) 0 ltac:(lia)) as Hn.
  lia.
Qed.

Lemma counters_ok_fold (step : Accumulators -> Transaction -> Accumulators)
    (txs : list Transaction) :
  (forall acc tx, counters_ok acc -> counters_ok (step acc tx)) ->
  forall acc, counters_ok acc -> counters_ok (fold_left step txs acc).
Proof.
  intros Hstep. induction txs as [|tx txs IH]; intros acc H; cbn [fold_left]; auto.
Qed.

Lemma Qltb_ge (a b : Q) : Qltb a b = false <-> (b <= a)%Q.
Proof.
  unfold Qltb. rewrite negb_false_iff. apply Qle_bool_iff.
Qed.

(** *** The tail of the estimators *)

Ltac qcompare :=
  repeat match goal with
         | |- context [Qltb ?a ?b] =>
             let v := eval vm_compute in (Qltb a b) in change (Qltb a b) with v
         end.

Ltac label_case :=
  match goal with
  | |- _ <-> _ => split; intros; label_case
  | |- _ /\ _ => split; label_case
  | |- ~ _ => intros ?; label_case
  | H : _ /\ _ |- _ => destruct H; label_case
  | H : ~ _ |- _ => solve [exfalso; apply H; repeat split;
                           first [reflexivity | assumption | lra]]
  | |- _ => first [reflexivity | discriminate | lra | tauto]
  end.

Lemma finish_label (pct : Q) (n : nat) (acc : Accumulators) :
  label_spec (res_confidence (finish pct n acc)) (res_reasons (finish pct n acc)).
Proof.
  unfold label_spec, finish, res_confidence, res_reasons.
  cbn [fst snd price_coverage route_complexity fee_completeness balance_alignment].
  set (pc := if 0 <? a_total_tokens acc then _ else _).
  set (rc := Qmin _ 10).
  unfold compute_balance_alignment.
  destruct (Qltb 0 _ && Qleb _ _); destruct (a_fee_known acc);
    destruct (Qltb pc (7 # 10)) eqn:E1; destruct (Qltb 5 rc) eqn:E2;
    try (apply Qltb_lt in E1); try (apply Qltb_ge in E1);
    try (apply Qltb_lt in E2); try (apply Qltb_ge in E2);
    qcompare; cbn; (split; [|split]); solve [label_case | auto].
Qed.

Lemma inject_Z_pos (b : Z) : 0 < b -> (0 < inject_Z b)%Q.
Proof. intros H. change (inject_Z 0 < inject_Z b)%Q. rewrite <- Zlt_Qlt. exact H. Qed.

Lemma inject_Z_nonneg (a : Z) : 0 <= a -> (0 <= inject_Z a)%Q.
Proof. intros H. change (inject_Z 0 <= inject_Z a)%Q. rewrite <- Zle_Qle. exact H. Qed.

Lemma ratio_in_unit (a b : Z) :
  0 <= a <= b -> 0 < b -> (0 <= inject_Z a / inject_Z b <= 1)%Q.
Proof.
  intros Ha Hb. pose proof (inject_Z_pos b Hb) as Hb'.
  split.
  - apply Qle_shift_div_l; [exact Hb'|]. rewrite Qmult_0_l. apply inject_Z_nonneg. lia.
  - apply Qle_shift_div_r; [exact Hb'|]. rewrite Qmult_1_l, <- Zle_Qle. lia.
Qed.

Lemma finish_in_range (pct : Q) (n : nat) (acc : Accumulators) :
  counters_ok acc -> reasons_in_range (res_reasons (finish pct n acc)).
Proof.
  intros (Hp & Hi & Hu). unfold reasons_in_range, finish, res_reasons.
  cbn [snd price_coverage route_complexity fee_completeness balance_alignment
       total_tokens priced_tokens unique_mints total_inner_inst].
  split; [|split; [|split; [|split]]].
  - destruct (Z.ltb_spec 0 (a_total_tokens acc)) as [Ht|_].
    + apply ratio_in_unit; lia.
    + split; discriminate.
  - assert (Hx : (0 <= inject_Z (a_total_inner_inst acc)
                       / inject_Z (Z.max (Z.of_nat n) 1))%Q).
    { apply Qle_shift_div_l; [apply inject_Z_pos; lia|].
      rewrite Qmult_0_l. apply inject_Z_nonneg. exact Hi. }
    unfold Qmin. destruct (Qleb _ 10) eqn:E.
    + apply Qleb_le in E. split; assumption.
    + split; discriminate.
  - destruct (a_fee_known acc); auto.
  - unfold compute_balance_alignment. destruct (Qltb 0 _ && Qleb _ _); auto.
  - lia.
Qed.

(** *** The confidence label *)

(** X8.  The confidence label of both estimators, for every input.  The
    sub-metrics lie in their ranges: price coverage in [0, 1], route
    complexity in [0, 10], fee completeness 0 or 1, balance alignment
    0.5 or 1, and the counts satisfy
    [0 <= priced_tokens <= total_tokens], [unique_mints <= total_tokens].
    The label is always one of high, med, low; it is high exactly when
    coverage is at least 0.7, route complexity at most 5, the fee is
    known and the balance aligned; it is low exactly when both the
    pricing test and the accounting test fail. *)
Theorem confidence_label_characterised (pct : Q) (env : oracles) (now : Q)
    (wallet : string) (signatures : list SigInfo) (max_tx : nat)
    (cache : TokenPriceCache)
    (rpc : string -> option Transaction) (rpc_async : string -> nat -> option Transaction) :
  let r := fst (estimate_profit_enriched pct env now rpc wallet signatures max_tx cache) in
  let r_a := fst (estimate_profit_async pct env now rpc_async wallet signatures max_tx
                                        cache) in
  (reasons_in_range (res_reasons r) /\ label_spec (res_confidence r) (res_reasons r)) /\
  (reasons_in_range (res_reasons r_a) /\ label_spec (res_confidence r_a) (res_reasons r_a)).
Proof.
  cbv zeta. unfold estimate_profit_enriched, estimate_profit_async. cbn [fst].
  split; (split; [apply finish_in_range | apply finish_label]).
  - apply counters_ok_fold; [apply counters_ok_enriched | apply counters_ok_init].
  - apply counters_ok_fold; [apply counters_ok_async | apply counters_ok_init].
Qed.

(** *** The two estimators side by side *)

Lemma same_books_step (env : oracles) (now : Q) (wallet : string)
    (a b : Accumulators) (tx : Transaction) :
  same_books a b ->
  same_books (enriched_step env now wallet a tx) (async_step env now wallet b tx).
Proof.
  intros (Hp & Hc & Hf & Ht & Hn & Hu). unfold same_books, enriched_step, async_step.
  rewrite Hc. destruct (estimate_token_delta _ _ _ _ _ _) as [[tok wsol] cache'].
  cbn [a_profit a_cache a_fee_total a_token_delta_sum a_total_tokens a_unique_mints].
  rewrite Hp, Hf, Ht, Hn, Hu. auto 10.
Qed.

Lemma same_books_fold (env : oracles) (now : Q) (wallet : string) (txs : list Transaction) :
  forall a b, same_books a b ->
              same_books (fold_left (enriched_step env now wallet) txs a)
                         (fold_left (async_step env now wallet) txs b).
Proof.
  induction txs as [|tx txs IH]; intros a b H; cbn [fold_left]; [exact H|].
  apply IH, same_books_step, H.
Qed.

(** X9.  The asynchronous estimator of the monitor and the synchronous
    estimator of [profit_estimator.py] agree on the books: when
    [get_transaction] hands both the same transactions (the asynchronous
    one after its retry), they return the same profit, leave the same
    price cache, and count the same [total_tokens] and [unique_mints]. *)
Theorem estimators_agree_on_profit (pct : Q) (env : oracles) (now : Q) (wallet : string)
    (signatures : list SigInfo) (max_tx : nat) (cache : TokenPriceCache)
    (rpc : string -> option Transaction) (rpc_async : string -> nat -> option Transaction) :
  fetched_async rpc_async (firstn max_tx signatures)
    = fetched_enriched rpc (firstn max_tx signatures) ->
  let e := estimate_profit_enriched pct env now rpc wallet signatures max_tx cache in
  let a := estimate_profit_async pct env now rpc_async wallet signatures max_tx cache in
  res_profit (fst e) = res_profit (fst a) /\
  snd e = snd a /\
  total_tokens (res_reasons (fst e)) = total_tokens (res_reasons (fst a)) /\
  unique_mints (res_reasons (fst e)) = unique_mints (res_reasons (fst a)).
Proof.
  intros Hfetch. cbv zeta.
  unfold estimate_profit_enriched, estimate_profit_async, enriched_loop, async_loop.
  rewrite Hfetch.
  destruct (same_books_fold env now wallet
              (fetched_enriched rpc (firstn max_tx signatures))
              (init_acc cache) (init_acc cache)) as (Hp & Hc & _ & _ & Hn & Hu).
  { unfold same_books. auto 10. }
  unfold finish, res_profit, res_reasons.
  cbn [fst snd total_tokens unique_mints]. rewrite Hp, Hc, Hn, Hu. auto.
Qed.

Lemma estimators_agree_on_profit_witness :
  let rpc := fun s : string =>
    if String.eqb s "S1" then Some scenario.tx_native else None in
  let rpc_async := fun (s : string) (attempt : nat) =>
    match attempt with
    | O => None
    | _ => if String.eqb s "S1" then Some scenario.tx_native else None
    end in
  let sigs := [scenario.sig "S1" 5; scenario.sig "S2" 6] in
  res_profit (fst (estimate_profit_enriched 10 scenario.no_oracles 1000 rpc "W1" sigs 5 ∅))
  = res_profit (fst (estimate_profit_async 10 scenario.no_oracles 1000 rpc_async "W1"
                                           sigs 5 ∅)).
Proof.
  intros rpc rpc_async sigs.
  apply (estimators_agree_on_profit 10 scenario.no_oracles 1000 "W1" sigs 5 ∅ rpc rpc_async).
  reflexivity.
Defined.

(** *** Token records of other owners *)

Lemma balance_map_own (wallet : string) (tokens : list TokenBalance) :
  balance_map (filter (fun t => String.eqb (owner t) wallet = true) tokens) wallet
  = balance_map tokens wallet.
Proof.
  unfold balance_map. generalize (∅ : gmap (string * string) Q).
  induction tokens as [|t tokens IH]; intros m; [reflexivity|].
  destruct (String.eqb (owner t) wallet) eqn:E.
  - rewrite filter_cons_True by exact E. cbn [fold_left]. rewrite E. apply IH.
  - rewrite filter_cons_False by congruence. cbn [fold_left]. rewrite E. apply IH.
Qed.

Lemma balance_keys_own (wallet : string) (tokens : list TokenBalance) :
  balance_keys (filter (fun t => String.eqb (owner t) wallet = true) tokens) wallet
  = balance_keys tokens wallet.
Proof.
  unfold balance_keys. do 2 f_equal. rewrite list_filter_filter.
  apply list_filter_iff. intros t. tauto.
Qed.

Lemma estimate_token_delta_own (env : oracles) (now : Q) (wallet : string)
    (pre post : list TokenBalance) (cache : TokenPriceCache) :
  estimate_token_delta env now
    (filter (fun t => String.eqb (owner t) wallet = true) pre)
    (filter (fun t => String.eqb (owner t) wallet = true) post) wallet cache
  = estimate_token_delta env now pre post wallet cache.
Proof.
  unfold estimate_token_delta. rewrite !balance_map_own, !balance_keys_own. reflexivity.
Qed.

Lemma parse_all_owned (wallet : string) (tokens : list token_records.TokenInfo)
    (ts : list TokenBalance) :
  token_records.parse_all tokens = Some ts ->
  token_records.parse_all (token_records.owned_by wallet tokens)
  = Some (filter (fun t => String.eqb (owner t) wallet = true) ts).
Proof.
  revert ts. induction tokens as [|token rest IH]; intros ts; cbn [token_records.parse_all].
  - intros [= <-]. reflexivity.
  - destruct (token_records.parse_token_balance token) as [t|] eqn:Et; [|discriminate].
    destruct (token_records.parse_all rest) as [ts'|]; [|discriminate].
    intros [= <-]. specialize (IH ts' eq_refl).
    assert (Eo : owner t = token_records.info_owner token).
    { unfold token_records.parse_token_balance in Et.
      destruct (token_records.convert 0%Q _); [|discriminate].
      destruct (token_records.convert 0 _); [|discriminate].
      injection Et as <-. reflexivity. }
    unfold token_records.owned_by in *.
    destruct (String.eqb (token_records.info_owner token) wallet) eqn:E.
    + rewrite filter_cons_True by exact E.
      rewrite (filter_cons_True _ t) by (rewrite Eo; exact E).
      cbn [token_records.parse_all]. rewrite Et, IH. reflexivity.
    + rewrite filter_cons_False by (rewrite E; discriminate).
      rewrite (filter_cons_False _ t) by (rewrite Eo, E; discriminate).
      exact IH.
Qed.

(** X10.  Token records owned by other accounts never enter a wallet's
    profit.  When [estimate_token_delta] returns, it returns the same
    deltas and leaves the same price cache as the call made on the
    wallet's own records only.  (The converse fails: a record of
    another owner whose [uiAmount] is null makes the call raise,
    because every record is parsed before its owner is looked at.) *)
Theorem profit_ignores_other_owners (env : oracles) (now : Q) (wallet : string)
    (pre post : list token_records.TokenInfo) (cache : TokenPriceCache)
    (r : Q * Q * TokenPriceCache) :
  token_records.estimate_token_delta_raw env now pre post wallet cache = Some r ->
  token_records.estimate_token_delta_raw env now
    (token_records.owned_by wallet pre) (token_records.owned_by wallet post) wallet cache
  = Some r.
Proof.
  unfold token_records.estimate_token_delta_raw.
  destruct (token_records.parse_all pre) as [pre'|] eqn:Epre; [|discriminate].
  destruct (token_records.parse_all post) as [post'|] eqn:Epost; [|discriminate].
  intros [= <-].
  rewrite (parse_all_owned wallet pre pre' Epre), (parse_all_owned wallet post post' Epost).
  rewrite estimate_token_delta_own. reflexivity.
Qed.

Lemma profit_ignores_other_owners_witness :
  let env := {| fetch_price_sol_from_jupiter := fun _ => Some (1 # 2)%Q;
                BIRDEYE_API_KEY := "";
                fetch_price_sol_from_birdeye := fun _ _ => None |} in
  let record := fun o m a =>
    {| token_records.info_owner := o; token_records.info_mint := m;
       token_records.info_uiAmount := token_records.Number a;
       token_records.info_decimals := token_records.Number 6 |} in
  let pre := [record "W1" "MINT" 10%Q; record "W2" "MINT" 7%Q] in
  let post := [record "W1" "MINT" 14%Q; record "W2" "MINT" 3%Q] in
  token_records.estimate_token_delta_raw env 100 [record "W1" "MINT" 10%Q]
    [record "W1" "MINT" 14%Q] "W1" ∅
  = token_records.estimate_token_delta_raw env 100 pre post "W1" ∅.
Proof.
  intros env record pre post.
  destruct (token_records.estimate_token_delta_raw env 100 pre post "W1" ∅) as [r|] eqn:E.
  - apply (profit_ignores_other_owners env 100 "W1" pre post ∅ r E).
  - vm_compute in E. discriminate.
Defined.

(** A record of another owner whose [uiAmount] is null makes
    [estimate_token_delta] raise, while the call on the wallet's own
    records returns. *)
Example foreign_null_amount_raises :
  let env := {| fetch_price_sol_from_jupiter := fun _ => Some (1 # 2)%Q;
                BIRDEYE_API_KEY := "";
                fetch_price_sol_from_birdeye := fun _ _ => None |} in
  let own := {| token_records.info_owner := "W1"; token_records.info_mint := "MINT";
                token_records.info_uiAmount := token_records.Number 4%Q;
                token_records.info_decimals := token_records.Number 6 |} in
  let foreign := {| token_records.info_owner := "W2"; token_records.info_mint := "MINT";
                    token_records.info_uiAmount := token_records.Refused;
                    token_records.info_decimals := token_records.Number 6 |} in
  token_records.estimate_token_delta_raw env 100 [] [own; foreign] "W1" ∅ = None /\
  is_Some (token_records.estimate_token_delta_raw env 100 []
             (token_records.owned_by "W1" [own; foreign]) "W1" ∅).
Proof. cbv zeta. split; [reflexivity|]. vm_compute. eauto. Qed.

(** *** The price cache *)

Lemma get_price_set_other (cache : TokenPriceCache) (now now' : Q) (mint other : string)
    (price : Q) (ttl : Z) :
  other <> mint ->
  get_price (set_price cache now mint price) now' other ttl = get_price cache now' other ttl.
Proof.
  intros Hne. unfold get_price, set_price. rewrite lookup_insert_ne by congruence.
  reflexivity.
Qed.

Lemma get_price_set_fresh (cache : TokenPriceCache) (now now' : Q) (mint : string)
    (price : Q) (ttl : Z) :
  (now' - now <= inject_Z ttl)%Q ->
  get_price (set_price cache now mint price) now' mint ttl = Some price.
Proof.
  intros H. unfold get_price, set_price. rewrite lookup_insert_eq.
  apply Qltb_ge in H. rewrite H, andb_false_r. reflexivity.
Qed.

(** X11.  Price look-ups are cached, failures are not.  A look-up that
    finds no price leaves the cache as it was; a price still fresh in
    the cache is returned without any oracle being consulted and without
    a write; a price fetched on a miss is stored, so that for the next
    60 seconds every look-up of that mint returns it whatever the
    oracles would answer; and a look-up never changes what the cache
    holds for another mint. *)
Theorem lookup_price_caches (env : oracles) (now : Q) (cache : TokenPriceCache)
    (mint : string) :
  let r := lookup_price env now cache mint in
  (fst r = None -> snd r = cache) /\
  (forall p env', get_price cache now mint 60 = Some p ->
                  lookup_price env' now cache mint = (Some p, cache)) /\
  (forall p, get_price cache now mint 60 = None -> fst r = Some p ->
             forall env' now', (now' - now <= 60)%Q ->
                               lookup_price env' now' (snd r) mint = (Some p, snd r)) /\
  (forall other now' ttl, other <> mint ->
                          get_price (snd r) now' other ttl = get_price cache now' other ttl).
Proof.
  cbv zeta. unfold lookup_price. split; [|split; [|split]].
  - destruct (get_price cache now mint 60); [discriminate|].
    destruct (fetch_price_sol_from_jupiter env mint); [discriminate|].
    destruct (String.eqb (BIRDEYE_API_KEY env) ""); [reflexivity|].
    destruct (fetch_price_sol_from_birdeye env mint _); [discriminate | reflexivity].
  - intros p env' ->. reflexivity.
  - intros p -> Hp env' now' Hnow.
    assert (Hhit : forall q, get_price (set_price cache now mint q) now' mint 60 = Some q).
    { intros q. apply get_price_set_fresh. exact Hnow. }
    destruct (fetch_price_sol_from_jupiter env mint) as [q|].
    + cbn [fst snd] in *. rewrite Hhit. congruence.
    + destruct (String.eqb (BIRDEYE_API_KEY env) ""); [discriminate|].
      destruct (fetch_price_sol_from_birdeye env mint _) as [q|]; [|discriminate].
      cbn [fst snd] in *. rewrite Hhit. congruence.
  - intros other now' ttl Hne.
    destruct (get_price cache now mint 60); [reflexivity|].
    destruct (fetch_price_sol_from_jupiter env mint) as [q|].
    + apply get_price_set_other, Hne.
    + destruct (String.eqb (BIRDEYE_API_KEY env) ""); [reflexivity|].
      destruct (fetch_price_sol_from_birdeye env mint _) as [q|]; [|reflexivity].
      apply get_price_set_other, Hne.
Qed.

(** *** Nothing to process *)

(** X12.  When no transaction is processed (an empty signature list,
    [max_tx = 0], entries without a signature, or every fetch failing)
    both estimators return profit 0 with the label med, never high: no
    counterparties and programs, price coverage 1, route complexity 0,
    fee completeness 1, balance alignment 0.5, all counts 0, and the
    price cache untouched. *)
Theorem nothing_fetched_is_med (pct : Q) (env : oracles) (now : Q) (wallet : string)
    (signatures : list SigInfo) (max_tx : nat) (cache : TokenPriceCache)
    (rpc : string -> option Transaction) (rpc_async : string -> nat -> option Transaction) :
  fetched_enriched rpc (firstn max_tx signatures) = [] ->
  fetched_async rpc_async (firstn max_tx signatures) = [] ->
  let e := estimate_profit_enriched pct env now rpc wallet signatures max_tx cache in
  let a := estimate_profit_async pct env now rpc_async wallet signatures max_tx cache in
  fst e = fst a /\ snd e = cache /\ snd a = cache /\
  res_profit (fst e) = 0%Q /\ res_confidence (fst e) = "med" /\
  snd (fst (fst (fst e))) = [] /\ snd (fst (fst e)) = [] /\
  price_coverage (res_reasons (fst e)) = 1%Q /\
  (route_complexity (res_reasons (fst e)) == 0)%Q /\
  fee_completeness (res_reasons (fst e)) = 1%Q /\
  balance_alignment (res_reasons (fst e)) = (1 # 2)%Q /\
  total_tokens (res_reasons (fst e)) = 0 /\ priced_tokens (res_reasons (fst e)) = 0 /\
  unique_mints (res_reasons (fst e)) = 0 /\ total_inner_inst (res_reasons (fst e)) = 0.
Proof.
  intros He Ha. cbv zeta.
  unfold estimate_profit_enriched, estimate_profit_async, enriched_loop, async_loop.
  rewrite He, Ha. cbn [fold_left fst snd].
  split; [reflexivity|]. split; [reflexivity|]. split; [reflexivity|].
  unfold finish, res_profit, res_confidence, res_reasons, init_acc.
  cbn [fst snd a_profit a_counterparties a_programs a_total_tokens a_priced_tokens
       a_total_inner_inst a_unique_mints a_fee_known a_fee_total a_sol_delta_sum
       a_token_delta_sum price_coverage route_complexity fee_completeness
       balance_alignment total_tokens priced_tokens unique_mints total_inner_inst].
  set (n := Z.max (Z.of_nat (length (firstn max_tx signatures))) 1).
  assert (Hrc : (Qmin (inject_Z 0 / inject_Z n) 10 == 0)%Q).
  { unfold Qmin. assert (E : (inject_Z 0 / inject_Z n == 0)%Q).
    { unfold Qdiv. apply Qmult_0_l. }
    destruct (Qleb _ 10) eqn:E'; [exact E|].
    apply not_true_iff_false in E'. exfalso. apply E'. apply Qleb_le. rewrite E.
    discriminate. }
  assert (Hlt : Qltb 5 (Qmin (inject_Z 0 / inject_Z n) 10) = false).
  { apply Qltb_ge. rewrite Hrc. discriminate. }
  change (0 <? 0) with false. cbv iota.
  change (compute_balance_alignment (Qabs 0 + 0) (Qabs 0 + 0) (pct / 100))
    with (if Qltb 0 (Qabs 0 + 0) && Qleb (Qabs (Qabs 0 + 0 - (Qabs 0 + 0))
                                          / Qmax (Qabs 0 + 0) (1 # 1000000000)) (pct / 100)
          then 1%Q else (1 # 2)%Q).
  change (Qltb 0 (Qabs 0 + 0)) with false. cbn [andb].
  rewrite Hlt. qcompare. cbn. auto 15.
Qed.

Lemma nothing_fetched_is_med_witness :
  let r := estimate_profit_enriched 10 scenario.no_oracles 1000 (fun _ => None) "W1"
             [scenario.sig "S1" 5; {| signature := None; slot := Some 6 |}] 5 ∅ in
  res_profit (fst r) = 0%Q /\ res_confidence (fst r) = "med".
Proof.
  intros r.
  pose proof (nothing_fetched_is_med 10 scenario.no_oracles 1000 "W1"
                [scenario.sig "S1" 5; {| signature := None; slot := Some 6 |}] 5 ∅
                (fun _ => None) (fun _ _ => None) eq_refl eq_refl) as H.
  cbv zeta in H. destruct H as (_ & _ & _ & Hp & Hc & _). split; assumption.
Defined.

End estimator_proofs.

Module alert_engine_proofs.
Import profit_estimator wallet_monitor wallet_monitor_proofs alert_engine.

(** *** One batch *)

Lemma process_batch_trace (cfg : AlertConfig) (env : Env) (wallet : string)
    (wallet_row : option WalletRow) (st : State) (i : nat) (batch : list SigInfo) :
  let st' := process_batch cfg env wallet wallet_row st i batch in
  match estimate_fault env i, batch_sigs batch with
  | Some _, _ => untouched st st'
  | None, [] => untouched st st'
  | None, primary_sig :: more =>
      (should_alert cfg st (clock env i) wallet (primary_sig :: more) = true /\
       alerted st st' wallet (clock env i) primary_sig) \/
      blocked st st' wallet
  end.
Proof.
  cbv zeta. unfold process_batch, batch_sigs.
  destruct (estimate_fault env i) as [faulty|].
  { unfold untouched. cbn. auto 10. }
  destruct (estimate_profit_async _ _ _ _ _ _ _ _)
    as [[[[[profit pnl_confidence] counterparties] programs] reasons] cache].
  destruct (omap _ batch) as [|primary_sig more] eqn:Esigs.
  { unfold untouched. cbn. auto 10. }
  assert (Hblock : forall reason details,
             reason ∈ block_reasons ->
             blocked st (block st (blocked_entry wallet profit reason details (clock env i))
                               cache) wallet).
  { intros reason details Hin. unfold blocked. eexists _, reason.
    cbn [block _blocked_alerts alerts alerts_queue _last_alert_at _seen_signatures
         _profit_history].
    split; [reflexivity|]. split; [reflexivity|]. split; [reflexivity|]. auto 10. }
  destruct (Qltb _ (GAIN_FILTER cfg) || Qltb _ (WIN_RATE_FILTER cfg)).
  { right. apply Hblock. unfold block_reasons. set_solver. }
  destruct (Qltb profit (PROFIT_ALERT_THRESHOLD cfg)).
  { right. apply Hblock. unfold block_reasons. set_solver. }
  destruct (negb (existsb (String.eqb pnl_confidence) ["med"; "high"])).
  { right. apply Hblock. unfold block_reasons. set_solver. }
  destruct (should_alert cfg st (clock env i) wallet (primary_sig :: more)) eqn:Eshould;
    cbn [negb].
  2: { right. apply Hblock. unfold block_reasons. set_solver. }
  left. split; [reflexivity|].
  destruct (compute_zscore env _ profit) as [zscore history].
  unfold alerted. eexists.
  cbn [mark_alert emit alerts _blocked_alerts _last_alert_at].
  split; [reflexivity|]. split; [reflexivity|]. split; [reflexivity|].
  split; [reflexivity|]. apply lookup_insert_eq.
Qed.

(** One batch either leaves the alert list and the cooldowns as they
    are, or appends one alert, and then the wallet was out of its
    cooldown and enters a new one. *)
Lemma process_batch_alert_step (cfg : AlertConfig) (env : Env) (wallet : string)
    (wallet_row : option WalletRow) (st : State) (i : nat) (batch : list SigInfo) :
  let st' := process_batch cfg env wallet wallet_row st i batch in
  (alerts st' = alerts st /\ _last_alert_at st' = _last_alert_at st) \/
  (exists a sigs,
      alerts st' = alerts st ++ [a] /\
      should_alert cfg st (clock env i) wallet sigs = true /\
      _last_alert_at st' !! wallet = Some (clock env i)).
Proof.
  cbv zeta. pose proof (process_batch_trace cfg env wallet wallet_row st i batch) as H.
  cbv zeta in H.
  destruct (estimate_fault env i) as [faulty|].
  { destruct H as (Ha & _ & _ & Hl & _). auto. }
  destruct (batch_sigs batch) as [|s0 more].
  { destruct H as (Ha & _ & _ & Hl & _). auto. }
  destruct H as [[Hshould (a & Ha & _ & _ & _ & Hl)]|(b & reason & _ & _ & _ & _ & Ha & _ & Hl & _)].
  - right. eauto.
  - left. auto.
Qed.

Lemma should_alert_true (cfg : AlertConfig) (st : State) (now : Q) (wallet : string)
    (sigs : list string) :
  should_alert cfg st now wallet sigs = true <->
  sigs <> [] /\
  (forall s, s ∈ sigs -> seen_get (_seen_signatures st) s = None) /\
  (inject_Z (ALERT_COOLDOWN_SEC cfg) <= now - default 0%Q (_last_alert_at st !! wallet))%Q.
Proof.
  unfold should_alert. destruct sigs as [|s0 sigs]; [split; [discriminate | tauto]|].
  set (l := s0 :: sigs).
  destruct (existsb _ l) eqn:Eseen.
  - split; [discriminate|]. intros (_ & Hnone & _). exfalso.
    apply existsb_exists in Eseen as (s & Hin & Hs). apply bool_decide_eq_true in Hs.
    apply list_elem_of_In in Hin. rewrite (Hnone s Hin) in Hs. destruct Hs; discriminate.
  - assert (Hnone : forall s, s ∈ l -> seen_get (_seen_signatures st) s = None).
    { intros s Hin. destruct (seen_get (_seen_signatures st) s) eqn:E; [|reflexivity].
      exfalso. apply not_true_iff_false in Eseen. apply Eseen, existsb_exists.
      exists s. split; [apply list_elem_of_In, Hin|]. apply bool_decide_eq_true.
      rewrite E. eauto. }
    destruct (Qltb _ (inject_Z (ALERT_COOLDOWN_SEC cfg))) eqn:Ecool.
    + split; [discriminate|]. intros (_ & _ & Hle). apply Qltb_lt in Ecool. lra.
    + split; [|reflexivity]. intros _. split; [discriminate|]. split; [exact Hnone|].
      destruct (Qlt_le_dec (now - default 0%Q (_last_alert_at st !! wallet))
                           (inject_Z (ALERT_COOLDOWN_SEC cfg))) as [Hlt|Hle]; [|exact Hle].
      apply Qltb_lt in Hlt. congruence.
Qed.

(** X13.  What one batch leaves behind: at most one record, and exactly
    one when the estimator returned and the batch has a signature id.
    A batch whose estimate raised, and a batch without any signature
    id, change nothing but the price cache.  Every other batch leaves
    exactly one record: either an alert (carrying the wallet and the
    first signature of the batch), and then none of the batch's
    signatures had been alerted before, the wallet's cooldown had
    elapsed, and the cooldown restarts at the time of the batch; or an
    entry of [_blocked_alerts] whose reason is one of wallet_filtered,
    profit_below_threshold, confidence_too_low and cooldown, and then
    alerts, API queue, cooldowns, seen signatures and profit history
    are left as they were. *)
Theorem batch_leaves_one_trace (cfg : AlertConfig) (env : Env) (wallet : string)
    (wallet_row : option WalletRow) (st : State) (i : nat) (batch : list SigInfo) :
  let st' := process_batch cfg env wallet wallet_row st i batch in
  let now := clock env i in
  (is_Some (estimate_fault env i) -> untouched st st') /\
  (batch_sigs batch = [] -> untouched st st') /\
  (forall primary_sig more,
     estimate_fault env i = None ->
     batch_sigs batch = primary_sig :: more ->
     (alerted st st' wallet now primary_sig /\
      (forall s, s ∈ batch_sigs batch -> seen_get (_seen_signatures st) s = None) /\
      (inject_Z (ALERT_COOLDOWN_SEC cfg)
       <= now - default 0%Q (_last_alert_at st !! wallet))%Q) \/
     blocked st st' wallet) /\
  (length (alerts st') + length (_blocked_alerts st')
   = length (alerts st) + length (_blocked_alerts st)
     + (if estimate_fault env i is Some _ then 0
        else if batch_sigs batch is [] then 0 else 1))%nat.
Proof.
  cbv zeta. pose proof (process_batch_trace cfg env wallet wallet_row st i batch) as H.
  cbv zeta in H. destruct (estimate_fault env i) as [faulty|] eqn:Efault.
  { split; [intros _; exact H|]. split; [intros _; exact H|].
    split; [discriminate|]. destruct H as (-> & _ & -> & _). lia. }
  split; [intros [c Hc]; discriminate|].
  destruct (batch_sigs batch) as [|s0 more] eqn:E.
  - split; [intros _; exact H|]. split; [discriminate|].
    destruct H as (-> & _ & -> & _). lia.
  - split; [discriminate|]. split.
    + intros primary_sig more' _ [= <- <-].
      destruct H as [[Hshould Halert]|Hblocked]; [left | right; exact Hblocked].
      apply should_alert_true in Hshould as (_ & Hseen & Hcool). auto.
    + destruct H as [[_ (a & -> & -> & _)]|(b & reason & -> & _ & _ & _ & -> & _)];
        rewrite length_app; cbn [length]; lia.
Qed.

(** After a batch whose estimate raised nothing is recorded, while the
    same batch is blocked when the estimate returns. *)
Example faulty_batch_leaves_no_trace :
  let ok := scenario.env scenario.tx_native in
  let faulty := {| clock := clock ok; get_transaction := get_transaction ok;
                   price_oracles := price_oracles ok; pstdev := pstdev ok;
                   detect_ms := detect_ms ok;
                   estimate_fault := fun _ => Some ∅; scan_aborts := scan_aborts ok |} in
  let st' := fun env => process_batch scenario.cfg env "W9" None scenario.st0 0%nat
                          [scenario.sig "S1" 5] in
  (length (alerts (st' faulty)) + length (_blocked_alerts (st' faulty)) = 0)%nat /\
  (length (alerts (st' ok)) + length (_blocked_alerts (st' ok)) = 1)%nat.
Proof. cbv zeta. split; vm_compute; reflexivity. Qed.

(** *** A run of batches *)

Lemma quiet_after_alert (cfg : AlertConfig) (env : Env) (wallet : string)
    (wallet_row : option WalletRow) (t : Q) (batches : list (list SigInfo)) :
  forall (st : State) (i : nat),
    _last_alert_at st !! wallet = Some t ->
    (forall j, (i <= j)%nat -> (clock env j - t < inject_Z (ALERT_COOLDOWN_SEC cfg))%Q) ->
    alerts (process_batches cfg env wallet wallet_row st i batches) = alerts st.
Proof.
  induction batches as [|batch rest IH]; intros st i Hlast Hclock; cbn [process_batches];
    [reflexivity|].
  pose proof (process_batch_alert_step cfg env wallet wallet_row st i batch) as H.
  cbv zeta in H.
  assert (Hnext : forall j, (S i <= j)%nat ->
                            (clock env j - t < inject_Z (ALERT_COOLDOWN_SEC cfg))%Q).
  { intros j Hj. apply Hclock. lia. }
  destruct H as [[Ha Hl]|(a & sigs & _ & Hshould & _)].
  - destruct (recorded_alert _ _ && _); [exact Ha|].
    rewrite IH; [exact Ha | | exact Hnext]. rewrite Hl. exact Hlast.
  - exfalso. apply should_alert_true in Hshould as (_ & _ & Hcool).
    rewrite Hlast in Hcool. cbn [default from_option id] in Hcool.
    specialize (Hclock i (Nat.le_refl i)).
    set (c := inject_Z (ALERT_COOLDOWN_SEC cfg)) in *. lra.
Qed.

Lemma one_alert_per_run (cfg : AlertConfig) (env : Env) (wallet : string)
    (wallet_row : option WalletRow) (batches : list (list SigInfo)) :
  (forall i j, (i < j)%nat ->
               (clock env j - clock env i < inject_Z (ALERT_COOLDOWN_SEC cfg))%Q) ->
  forall (st : State) (i : nat),
    exists new, alerts (process_batches cfg env wallet wallet_row st i batches)
                = alerts st ++ new /\ (length new <= 1)%nat.
Proof.
  intros Hclock. induction batches as [|batch rest IH]; intros st i; cbn [process_batches].
  - exists []. rewrite app_nil_r. auto.
  - pose proof (process_batch_alert_step cfg env wallet wallet_row st i batch) as H.
    cbv zeta in H.
    destruct H as [[Ha Hl]|(a & sigs & Ha & _ & Hl)].
    + destruct (recorded_alert _ _ && _).
      * exists []. rewrite app_nil_r. auto.
      * destruct (IH (process_batch cfg env wallet wallet_row st i batch) (S i))
          as (new & E & Hlen).
        exists new. rewrite E, Ha. auto.
    + exists [a]. split; [|cbn; lia].
      destruct (recorded_alert _ _ && _); [exact Ha|].
      rewrite (quiet_after_alert cfg env wallet wallet_row (clock env i) rest _ (S i) Hl).
      * exact Ha.
      * intros j Hj. apply Hclock. lia.
Qed.

(** X14.  At most one alert per cooldown window.  When the batches of a
    scan are all processed less than [ALERT_COOLDOWN_SEC] apart, the
    scan appends at most one alert for the wallet, however many batches
    qualify: the first alert restarts the cooldown and every later batch
    is blocked. *)
Theorem scan_alerts_once_per_cooldown (cfg : AlertConfig) (env : Env) (st : State)
    (wallet : string) (df : list WalletRow) (resp : option (list SigInfo)) :
  (forall i j, (i < j)%nat ->
               (clock env j - clock env i < inject_Z (ALERT_COOLDOWN_SEC cfg))%Q) ->
  exists new, alerts (scan_wallet_async cfg env st wallet df resp) = alerts st ++ new
              /\ (length new <= 1)%nat.
Proof.
  intros Hclock. unfold scan_wallet_async. destruct resp as [raw_sigs|].
  - pose proof (filter_new_signatures_alerts st wallet raw_sigs) as [Ea _].
    destruct (filter_new_signatures st wallet raw_sigs) as [increment st1].
    cbn [snd] in Ea. rewrite <- Ea. destruct increment as [|e increment].
    + exists []. rewrite app_nil_r. auto.
    + apply one_alert_per_run, Hclock.
  - exists []. rewrite app_nil_r. auto.
Qed.

Lemma scan_alerts_once_per_cooldown_witness :
  let e := fun s n => {| signature := Some s; slot := Some n |} in
  exists new,
    alerts (scan_wallet_async scenario.cfg (scenario.env scenario.tx_native) scenario.st0
              "W1" scenario.df (Some [e "S3" 7; e "S2" 6; e "S1" 5]))
    = alerts scenario.st0 ++ new /\ (length new <= 1)%nat.
Proof.
  intros e.
  apply (scan_alerts_once_per_cooldown scenario.cfg (scenario.env scenario.tx_native)).
  intros i j _. reflexivity.
Defined.

(** *** Scanning the same list again *)

Lemma set_last_sig_same (st : State) (wallet sig : string) :
  _last_sig_by_wallet st !! wallet = Some sig -> set_last_sig st wallet sig = st.
Proof.
  intros H. destruct st. unfold set_last_sig. cbn in *. rewrite insert_id by exact H.
  reflexivity.
Qed.

(** X15.  Scanning an unchanged signature list again changes nothing.
    A scan that gets no answer or an empty list leaves the state as it
    is; and after a scan of a list whose head carries a signature id, a
    second scan of the same list (whatever the RPC answers, the clock
    and the wallet table are by then) finds an empty increment and
    leaves every part of the state as the first scan left it: no alert,
    no blocked entry, no change to cooldowns. *)
Theorem rescan_changes_nothing (cfg : AlertConfig) (env env' : Env) (st : State)
    (wallet : string) (df df' : list WalletRow) (head : SigInfo) (rest : list SigInfo) :
  scan_wallet_async cfg env st wallet df None = st /\
  scan_wallet_async cfg env st wallet df (Some []) = st /\
  (is_Some (truthy_str (signature head)) ->
   let st1 := scan_wallet_async cfg env st wallet df (Some (head :: rest)) in
   scan_wallet_async cfg env' st1 wallet df' (Some (head :: rest)) = st1).
Proof.
  split; [reflexivity|]. split; [reflexivity|]. intros [h Hh]. cbv zeta.
  set (st1 := scan_wallet_async cfg env st wallet df (Some (head :: rest))).
  assert (Hlast : _last_sig_by_wallet st1 !! wallet = Some h).
  { subst st1. unfold scan_wallet_async, filter_new_signatures. rewrite Hh.
    match goal with
    | |- context [match ?inc with [] => ?a | _ :: _ => ?b end] =>
        assert (E : _last_sig_by_wallet a !! wallet = Some h)
          by (cbn [set_last_sig _last_sig_by_wallet]; apply lookup_insert_eq);
        destruct inc; [exact E|]
    end.
    rewrite process_batches_last_sig. exact E. }
  unfold scan_wallet_async at 1. unfold filter_new_signatures. rewrite Hlast, Hh.
  cbn [newer_entries]. rewrite Hh, String.eqb_refl.
  apply set_last_sig_same, Hlast.
Qed.

(** *** Bounded memory *)

Lemma compute_zscore_length (env : Env) (history : list Q) (profit : Q) :
  (length (snd (compute_zscore env history profit)) <= 50)%nat.
Proof.
  unfold compute_zscore. cbn [snd]. rewrite length_skipn. lia.
Qed.

Lemma bounded_batch (cfg : AlertConfig) (env : Env) (wallet : string)
    (wallet_row : option WalletRow) (st : State) (i : nat) (batch : list SigInfo) :
  bounded cfg st -> bounded cfg (process_batch cfg env wallet wallet_row st i batch).
Proof.
  intros (Hq & Hh & Hs). unfold process_batch.
  destruct (estimate_fault env i) as [faulty|]; [split; [|split]; assumption|].
  destruct (estimate_profit_async _ _ _ _ _ _ _ _)
    as [[[[[profit pnl_confidence] counterparties] programs] reasons] cache].
  destruct (omap _ batch) as [|primary_sig more]; [split; [|split]; assumption|].
  destruct (Qltb _ (GAIN_FILTER cfg) || Qltb _ (WIN_RATE_FILTER cfg));
    [split; [|split]; assumption|].
  destruct (Qltb profit (PROFIT_ALERT_THRESHOLD cfg)); [split; [|split]; assumption|].
  destruct (negb (existsb (String.eqb pnl_confidence) ["med"; "high"]));
    [split; [|split]; assumption|].
  destruct (negb (should_alert cfg st (clock env i) wallet (primary_sig :: more)));
    [split; [|split]; assumption|].
  pose proof (compute_zscore_length env (default [] (_profit_history st !! wallet)) profit)
    as Hz.
  destruct (compute_zscore env _ profit) as [zscore history]. cbn [snd] in Hz.
  unfold bounded. cbn [mark_alert emit alerts_queue _profit_history _seen_signatures].
  split; [|split].
  - destruct (alerts_queue st) as [queue|]; cbn [default from_option id] in *; [|lia].
    destruct (daas_mode cfg); cbn [default from_option id]; [|exact Hq].
    match goal with
    | |- context [(1000 <? length ?q)%nat] =>
        destruct (Nat.ltb_spec 1000 (length q)) as [Hlt|Hge]; [|exact Hge]
    end.
    rewrite length_skipn, length_app. cbn [length]. lia.
  - intros w h Hw. destruct (decide (w = wallet)) as [->|Hne].
    + rewrite lookup_insert_eq in Hw. congruence.
    + rewrite lookup_insert_ne in Hw by congruence. eauto.
  - apply evict_oldest_length.
Qed.

Lemma bounded_batches (cfg : AlertConfig) (env : Env) (wallet : string)
    (wallet_row : option WalletRow) (batches : list (list SigInfo)) :
  forall (st : State) (i : nat),
    bounded cfg st -> bounded cfg (process_batches cfg env wallet wallet_row st i batches).
Proof.
  induction batches as [|batch rest IH]; intros st i H; cbn [process_batches]; [exact H|].
  destruct (recorded_alert _ _ && _); [|apply IH]; apply bounded_batch, H.
Qed.

(** X16.  The engine's memory stays bounded.  If the API queue holds at
    most 1000 alerts, every profit history at most 50 values and the
    seen set at most [MAX_SEEN_SIGNATURES] signatures, then the same
    holds after a scan of any wallet and after a garbage collection,
    whatever the RPC answers: the queue drops its oldest alert, the
    history its oldest value and the seen set its oldest signatures. *)
Theorem scan_keeps_memory_bounded (cfg : AlertConfig) (env : Env) (st : State)
    (wallet : string) (df : list WalletRow) (resp : option (list SigInfo)) (now : Q) :
  bounded cfg st ->
  bounded cfg (scan_wallet_async cfg env st wallet df resp) /\
  bounded cfg (garbage_collect_state cfg st now).
Proof.
  intros Hb. split.
  - unfold scan_wallet_async. destruct resp as [raw_sigs|]; [|exact Hb].
    assert (Hf : bounded cfg (snd (filter_new_signatures st wallet raw_sigs))).
    { unfold filter_new_signatures. destruct raw_sigs as [|head rest]; [exact Hb|].
      cbn [snd]. destruct (truthy_str (signature head)); exact Hb. }
    destruct (filter_new_signatures st wallet raw_sigs) as [increment st1].
    cbn [snd] in Hf. destruct increment; [exact Hf|]. apply bounded_batches, Hf.
  - destruct Hb as (Hq & Hh & Hs). unfold bounded.
    cbn [garbage_collect_state alerts_queue _profit_history _seen_signatures].
    split; [exact Hq|]. split; [exact Hh|]. apply evict_oldest_length.
Qed.

Lemma scan_keeps_memory_bounded_witness :
  bounded scenario.cfg scenario.st1 /\
  bounded scenario.cfg
    (scan_wallet_async scenario.cfg (scenario.env scenario.tx_native) scenario.st1 "W1"
       scenario.df (Some [scenario.sig "S2" 6; scenario.sig "S1" 5])).
Proof.
  assert (H0 : bounded scenario.cfg scenario.st0).
  { unfold bounded. cbn. split; [lia|]. split; [|lia].
    intros w h Hw. rewrite lookup_empty in Hw. discriminate. }
  assert (H1 : bounded scenario.cfg scenario.st1).
  { apply (scan_keeps_memory_bounded scenario.cfg (scenario.env scenario.tx_native)
             scenario.st0 "W1" scenario.df (Some [scenario.sig "S1" 5]) 0 H0). }
  split; [exact H1|].
  apply (scan_keeps_memory_bounded scenario.cfg (scenario.env scenario.tx_native)
           scenario.st1 "W1" scenario.df
           (Some [scenario.sig "S2" 6; scenario.sig "S1" 5]) 0 H1).
Defined.

(** *** Garbage collection *)

Lemma expired_prefix_stale (cutoff : Q) (seen : list (string * Q)) (s : string) :
  s ∈ expired_prefix cutoff seen -> exists ts, (s, ts) ∈ seen /\ (ts < cutoff)%Q.
Proof.
  induction seen as [|[s0 ts0] rest IH]; cbn [expired_prefix].
  - intros H. apply elem_of_nil in H. contradiction.
  - destruct (Qltb ts0 cutoff) eqn:E.
    + intros H. apply elem_of_cons in H as [->|H].
      * exists ts0. split; [left|]. apply Qltb_lt, E.
      * destruct (IH H) as (ts & Hin & Hlt). exists ts. split; [right; exact Hin | exact Hlt].
    + intros H. apply elem_of_nil in H. contradiction.
Qed.

Lemma unique_timestamp (seen : list (string * Q)) (s : string) (a b : Q) :
  NoDup (map fst seen) -> (s, a) ∈ seen -> (s, b) ∈ seen -> a = b.
Proof.
  induction seen as [|[s0 ts0] rest IH]; intros Hnd Ha Hb.
  - apply elem_of_nil in Ha. contradiction.
  - cbn [map fst] in Hnd. apply NoDup_cons in Hnd as [Hnotin Hnd].
    assert (Hkey : forall x, (s0, x) ∈ rest -> False).
    { intros x Hx. apply Hnotin. apply list_elem_of_fmap. exists (s0, x). auto. }
    apply elem_of_cons in Ha as [Ea|Ha]; apply elem_of_cons in Hb as [Eb|Hb].
    + congruence.
    + inversion Ea; subst. exfalso. eapply Hkey, Hb.
    + inversion Eb; subst. exfalso. eapply Hkey, Ha.
    + apply IH; assumption.
Qed.

Lemma kept_is_fresh (cutoff : Q) (seen : list (string * Q)) (p : string * Q) :
  sorted_by_time seen -> p ∈ seen -> fst p ∉ expired_prefix cutoff seen ->
  (cutoff <= snd p)%Q.
Proof.
  induction seen as [|[s0 ts0] rest IH]; intros Hsorted Hin Hkept.
  - apply elem_of_nil in Hin. contradiction.
  - cbn [sorted_by_time] in Hsorted. destruct Hsorted as [Hhead Hsorted].
    cbn [expired_prefix] in Hkept. destruct (Qltb ts0 cutoff) eqn:E.
    + apply elem_of_cons in Hin as [->|Hin].
      * exfalso. apply Hkept. left.
      * apply IH; [exact Hsorted | exact Hin|]. intros H. apply Hkept. right. exact H.
    + apply estimator_proofs.Qltb_ge in E. apply elem_of_cons in Hin as [->|Hin]; [exact E|].
      rewrite Forall_forall in Hhead. specialize (Hhead p Hin). cbn [snd] in Hhead. lra.
Qed.

(** X17.  Garbage collection drops the stale entries and only those.
    For a seen set in timestamp order without repeated signatures and
    within its size bound, [garbage_collect_state] keeps exactly the
    signatures stamped at or after [now - STATE_TTL_SECONDS], and
    exactly the wallets whose last alert is at or after that cutoff;
    it touches nothing else. *)
Theorem garbage_collection_keeps_fresh (cfg : AlertConfig) (st : State) (now : Q) :
  sorted_by_time (_seen_signatures st) ->
  NoDup (map fst (_seen_signatures st)) ->
  (length (_seen_signatures st) <= MAX_SEEN_SIGNATURES cfg)%nat ->
  let st' := garbage_collect_state cfg st now in
  let cutoff := (now - inject_Z (STATE_TTL_SECONDS cfg))%Q in
  (forall s ts, (s, ts) ∈ _seen_signatures st' <->
                (s, ts) ∈ _seen_signatures st /\ (cutoff <= ts)%Q) /\
  (forall w ts, _last_alert_at st' !! w = Some ts <->
                _last_alert_at st !! w = Some ts /\ (cutoff <= ts)%Q) /\
  _last_sig_by_wallet st' = _last_sig_by_wallet st /\
  _profit_history st' = _profit_history st /\
  _blocked_alerts st' = _blocked_alerts st /\
  alerts st' = alerts st /\ alerts_queue st' = alerts_queue st /\
  price_cache st' = price_cache st.
Proof.
  intros Hsorted Hnd Hlen. cbv zeta.
  cbn [garbage_collect_state _seen_signatures _last_alert_at _last_sig_by_wallet
       _profit_history _blocked_alerts alerts alerts_queue price_cache].
  set (cutoff := (now - inject_Z (STATE_TTL_SECONDS cfg))%Q).
  set (seen := _seen_signatures st) in *.
  split; [|split; [|auto 10]].
  - intros s ts. rewrite evict_oldest_drop.
    pose proof (length_filter (fun p : string * Q => fst p ∉ expired_prefix cutoff seen) seen)
      as Hf.
    replace (length (filter _ seen) - MAX_SEEN_SIGNATURES cfg)%nat with 0%nat by lia.
    rewrite drop_0, list_elem_of_filter. cbn [fst]. split.
    + intros [Hkept Hin]. split; [exact Hin|].
      apply (kept_is_fresh cutoff seen (s, ts) Hsorted Hin Hkept).
    + intros [Hin Hfresh]. split; [|exact Hin]. intros Hstale.
      apply expired_prefix_stale in Hstale as (ts' & Hin' & Hlt).
      rewrite (unique_timestamp seen s ts ts' Hnd Hin Hin') in Hfresh. lra.
  - intros w ts. rewrite map_lookup_filter_Some. cbn [snd].
    rewrite estimator_proofs.Qltb_ge. reflexivity.
Qed.

Lemma garbage_collection_keeps_fresh_witness :
  let cfg := scenario.cfg in
  let st := {| _last_alert_at := {[ "W1" := 5000%Q ]};
               _seen_signatures := [("a", 1%Q); ("b", 5000%Q)];
               _last_sig_by_wallet := ∅; _profit_history := ∅;
               _blocked_alerts := []; alerts := []; alerts_queue := Some [];
               price_cache := ∅ |} in
  ("b", 5000%Q) ∈ _seen_signatures (garbage_collect_state cfg st 6000) /\
  ~ ("a", 1%Q) ∈ _seen_signatures (garbage_collect_state cfg st 6000).
Proof.
  intros cfg st.
  assert (Hsorted : sorted_by_time (_seen_signatures st)).
  { cbn. repeat constructor. discriminate. }
  assert (Hnd : NoDup (map fst (_seen_signatures st))).
  { cbn. apply NoDup_cons. split; [|apply NoDup_singleton].
    intros H. apply list_elem_of_singleton in H. discriminate. }
  assert (Hlen : (length (_seen_signatures st) <= MAX_SEEN_SIGNATURES cfg)%nat).
  { cbn. lia. }
  destruct (garbage_collection_keeps_fresh cfg st 6000 Hsorted Hnd Hlen) as [Hseen _].
  split.
  - apply Hseen. split; [right; left | discriminate].
  - intros H. apply Hseen in H as [_ H]. apply H. reflexivity.
Defined.

(** *** Batching *)

Lemma group_add_perm (grouped : list (option Z * list SigInfo)) (sig : SigInfo) :
  concat (map snd (group_add grouped sig)) ≡ₚ sig :: concat (map snd grouped).
Proof.
  induction grouped as [|[k items] rest IH]; cbn [group_add map concat snd].
  - reflexivity.
  - destruct (bool_decide (k = slot sig)); cbn [map concat snd].
    + rewrite <- app_assoc. cbn [app]. symmetry. apply Permutation_middle.
    + rewrite IH. symmetry. apply Permutation_middle.
Qed.

Lemma group_add_well (grouped : list (option Z * list SigInfo)) (sig : SigInfo) :
  well_grouped grouped -> well_grouped (group_add grouped sig).
Proof.
  unfold well_grouped. induction grouped as [|[k items] rest IH]; intros H;
    cbn [group_add].
  - repeat constructor.
  - apply Forall_cons in H as [Hk Hrest].
    destruct (bool_decide_reflect (k = slot sig)) as [E|_].
    + constructor; [|exact Hrest]. cbn [fst snd] in *. apply Forall_app. split; [exact Hk|].
      repeat constructor. congruence.
    + constructor; [exact Hk | apply IH, Hrest].
Qed.

Lemma grouped_perm (signatures : list SigInfo) :
  forall grouped,
    concat (map snd (fold_left group_add signatures grouped))
    ≡ₚ concat (map snd grouped) ++ signatures.
Proof.
  induction signatures as [|s rest IH]; intros grouped; cbn [fold_left].
  - rewrite app_nil_r. reflexivity.
  - rewrite IH, group_add_perm. cbn [app]. apply Permutation_middle.
Qed.

Lemma grouped_well (signatures : list SigInfo) :
  forall grouped, well_grouped grouped ->
                  well_grouped (fold_left group_add signatures grouped).
Proof.
  induction signatures as [|s rest IH]; intros grouped H; cbn [fold_left]; [exact H|].
  apply IH, group_add_well, H.
Qed.

Lemma insert_desc_perm (x : option Z * list SigInfo) (l : list (option Z * list SigInfo)) :
  insert_desc x l ≡ₚ x :: l.
Proof.
  induction l as [|y l IH]; cbn [insert_desc]; [reflexivity|].
  destruct (default 0 (fst y) <? default 0 (fst x)); [reflexivity|].
  rewrite IH. apply perm_swap.
Qed.

Lemma insert_desc_sorted (x : option Z * list SigInfo) (l : list (option Z * list SigInfo)) :
  groups_desc l -> groups_desc (insert_desc x l).
Proof.
  induction l as [|y l IH]; intros H; cbn [insert_desc].
  - cbn. auto.
  - cbn [groups_desc] in H. destruct H as [Hy Hl].
    destruct (Z.ltb_spec (default 0 (fst y)) (default 0 (fst x))) as [Hlt|Hge].
    + cbn [groups_desc]. split; [|split; assumption].
      constructor; [lia|]. eapply Forall_impl; [exact Hy|]. cbn. intros kv Hkv. lia.
    + cbn [groups_desc]. split; [|apply IH, Hl].
      rewrite insert_desc_perm. constructor; [exact Hge | exact Hy].
Qed.

Lemma sort_desc_spec (l : list (option Z * list SigInfo)) :
  sort_desc l ≡ₚ l /\ groups_desc (sort_desc l).
Proof.
  unfold sort_desc.
  assert (H : forall acc, groups_desc acc ->
                          fold_left (fun acc x => insert_desc x acc) l acc ≡ₚ acc ++ l /\
                          groups_desc (fold_left (fun acc x => insert_desc x acc) l acc)).
  { induction l as [|x l IH]; intros acc Hacc; cbn [fold_left].
    - rewrite app_nil_r. auto.
    - destruct (IH (insert_desc x acc) (insert_desc_sorted x acc Hacc)) as [Hp Hs].
      split; [|exact Hs]. rewrite Hp, insert_desc_perm. cbn [app].
      apply Permutation_middle. }
  destruct (H [] I) as [Hp Hs]. auto.
Qed.

Lemma chunks_spec (n : nat) (items : list SigInfo) :
  (0 < n)%nat ->
  forall fuel, (length items <= fuel)%nat ->
    concat (chunks fuel n items) = items /\
    Forall (fun b => b <> [] /\ (length b <= n)%nat /\ forall x, x ∈ b -> x ∈ items)
           (chunks fuel n items).
Proof.
  intros Hn fuel. revert items. induction fuel as [|fuel IH]; intros items Hlen.
  - destruct items; [|cbn in Hlen; lia]. cbn. auto.
  - destruct items as [|x items]; [cbn; auto|]. cbn [chunks].
    destruct (IH (skipn n (x :: items))) as [Hc Hf].
    { rewrite length_skipn. cbn [length] in *. lia. }
    split.
    + cbn [concat]. rewrite Hc. apply firstn_skipn.
    + constructor.
      * split; [|split].
        -- destruct n; [lia|]. discriminate.
        -- rewrite length_firstn. lia.
        -- intros y Hy. eapply subseteq_take, Hy.
      * eapply Forall_impl; [exact Hf|]. cbn. intros b (Hb & Hl & Hin).
        split; [exact Hb|]. split; [exact Hl|]. intros y Hy.
        eapply subseteq_drop, Hin, Hy.
Qed.

Lemma newest_first_app (l1 l2 : list (list SigInfo)) :
  newest_first l1 -> newest_first l2 ->
  (forall b b' x x', b ∈ l1 -> b' ∈ l2 -> x ∈ b -> x' ∈ b' -> slot_key x' <= slot_key x) ->
  newest_first (l1 ++ l2).
Proof.
  induction l1 as [|b l1 IH]; intros H1 H2 Hcross; [exact H2|].
  cbn [app newest_first] in *. destruct H1 as [Hb H1]. split.
  - apply Forall_app. split; [exact Hb|]. apply Forall_forall. intros b' Hb' x x' Hx Hx'.
    eapply (Hcross b b'); [left | exact Hb' | exact Hx | exact Hx'].
  - apply IH; [exact H1 | exact H2|]. intros b0 b' x x' Hb0. apply Hcross. right. exact Hb0.
Qed.

Lemma newest_first_same (k : Z) (l : list (list SigInfo)) :
  Forall (fun b => forall x, x ∈ b -> slot_key x = k) l -> newest_first l.
Proof.
  induction l as [|b l IH]; intros H; [exact I|].
  apply Forall_cons in H as [Hb Hl]. cbn [newest_first]. split; [|apply IH, Hl].
  eapply Forall_impl; [exact Hl|]. cbn. intros b' Hb' x x' Hx Hx'.
  rewrite (Hb x Hx), (Hb' x' Hx'). lia.
Qed.

Lemma batches_of_groups (n : nat) (groups : list (option Z * list SigInfo)) :
  (0 < n)%nat -> well_grouped groups -> groups_desc groups ->
  let batches := concat (map (fun kv => chunks (length (snd kv)) n (snd kv)) groups) in
  concat batches = concat (map snd groups) /\
  Forall (fun b => b <> [] /\ (length b <= n)%nat /\
                   exists kv, kv ∈ groups /\ forall x, x ∈ b -> x ∈ snd kv) batches /\
  newest_first batches.
Proof.
  intros Hn. induction groups as [|kv rest IH]; intros Hwell Hdesc; cbv zeta.
  - cbn. auto.
  - apply Forall_cons in Hwell as [Hkv Hwell]. cbn [groups_desc] in Hdesc.
    destruct Hdesc as [Hhead Hdesc].
    destruct (IH Hwell Hdesc) as (Hc & Hf & Hnf). cbv zeta in Hc, Hf, Hnf.
    destruct (chunks_spec n (snd kv) Hn (length (snd kv)) (Nat.le_refl _)) as [Hck Hfk].
    cbn [map concat]. split; [|split].
    + rewrite concat_app, Hck, Hc. reflexivity.
    + apply Forall_app. split.
      * eapply Forall_impl; [exact Hfk|]. cbn. intros b (Hb & Hl & Hin).
        split; [exact Hb|]. split; [exact Hl|]. exists kv. split; [left | exact Hin].
      * eapply Forall_impl; [exact Hf|]. cbn. intros b (Hb & Hl & kv' & Hkv' & Hin).
        split; [exact Hb|]. split; [exact Hl|]. exists kv'. split; [right; exact Hkv' | exact Hin].
    + assert (Hkey : forall b x, b ∈ chunks (length (snd kv)) n (snd kv) -> x ∈ b ->
                                 slot_key x = default 0 (fst kv)).
      { intros b x Hb Hx. rewrite Forall_forall in Hfk.
        destruct (Hfk b Hb) as (_ & _ & Hin). specialize (Hin x Hx).
        rewrite Forall_forall in Hkv. unfold slot_key. rewrite (Hkv x Hin). reflexivity. }
      apply newest_first_app.
      * apply (newest_first_same (default 0 (fst kv))). apply Forall_forall.
        intros b Hb x Hx. eapply Hkey; eauto.
      * exact Hnf.
      * intros b b' x x' Hb Hb' Hx Hx'. rewrite (Hkey b x Hb Hx).
        rewrite Forall_forall in Hf. destruct (Hf b' Hb') as (_ & _ & kv' & Hkv' & Hin).
        specialize (Hin x' Hx'). rewrite Forall_forall in Hwell.
        specialize (Hwell kv' Hkv'). rewrite Forall_forall in Hwell.
        unfold slot_key. rewrite (Hwell x' Hin).
        rewrite Forall_forall in Hhead. apply Hhead, Hkv'.
Qed.

Lemma concat_groups_perm (l l' : list (option Z * list SigInfo)) :
  l ≡ₚ l' -> concat (map snd l) ≡ₚ concat (map snd l').
Proof.
  induction 1 as [|x l l' _ IH|x y l|l l' l'' _ IH1 _ IH2]; cbn [map concat].
  - reflexivity.
  - rewrite IH. reflexivity.
  - rewrite !app_assoc. rewrite (Permutation_app_comm (snd y) (snd x)). reflexivity.
  - rewrite IH1. exact IH2.
Qed.

(** X18.  [build_signature_batches] partitions the increment.  The
    batches hold every entry of the increment exactly once; each batch
    is non-empty, holds at most [ALERT_BATCH_SIZE] entries, and all its
    entries are of the same slot; and the batches come newest slot
    first (an entry without slot counting as slot 0). *)
Theorem batches_partition_increment (cfg : AlertConfig) (signatures : list SigInfo) :
  let batches := build_signature_batches cfg signatures in
  concat batches ≡ₚ signatures /\
  Forall (fun b => b <> [] /\
                   (length b <= Pos.to_nat (ALERT_BATCH_SIZE cfg))%nat /\
                   forall x y, x ∈ b -> y ∈ b -> slot x = slot y) batches /\
  newest_first batches.
Proof.
  cbv zeta. unfold build_signature_batches.
  set (n := Pos.to_nat (ALERT_BATCH_SIZE cfg)).
  set (grouped := fold_left group_add signatures []).
  destruct (sort_desc_spec grouped) as [Hperm Hdesc].
  assert (Hwell0 : well_grouped grouped) by (apply grouped_well; constructor).
  assert (Hwell : well_grouped (sort_desc grouped)).
  { unfold well_grouped in *. rewrite Forall_forall in Hwell0 |- *.
    intros kv Hkv. apply Hwell0. rewrite <- Hperm. exact Hkv. }
  destruct (batches_of_groups n (sort_desc grouped) ltac:(subst n; lia) Hwell Hdesc)
    as (Hc & Hf & Hnf).
  cbv zeta in Hc, Hf, Hnf.
  set (batches := concat (map (fun kv => chunks (length (snd kv)) n (snd kv))
                              (sort_desc grouped))) in *.
  assert (Hall : concat batches ≡ₚ signatures).
  { rewrite Hc, (concat_groups_perm _ _ Hperm). subst grouped.
    rewrite grouped_perm. reflexivity. }
  assert (Hsame : match batches, signatures with
                  | [], _ :: _ => [firstn n signatures]
                  | _, _ => batches
                  end = batches).
  { destruct batches; [|reflexivity]. destruct signatures; [reflexivity|].
    cbn [concat] in Hall. apply Permutation_nil_cons in Hall. contradiction. }
  rewrite Hsame. split; [exact Hall|]. split; [|exact Hnf].
  eapply Forall_impl; [exact Hf|]. cbn. intros b (Hb & Hl & kv & Hkv & Hin).
  split; [exact Hb|]. split; [exact Hl|]. intros x y Hx Hy.
  unfold well_grouped in Hwell. rewrite Forall_forall in Hwell.
  specialize (Hwell kv Hkv). rewrite Forall_forall in Hwell.
  rewrite (Hwell x (Hin x Hx)), (Hwell y (Hin y Hy)). reflexivity.
Qed.

(** *** Labels *)

Lemma counter_add_keys (counts : list (string * Z)) (label : string) :
  forall k, k ∈ map fst (counter_add counts label) <-> k = label \/ k ∈ map fst counts.
Proof.
  induction counts as [|[k0 n0] rest IH]; intros k; cbn [counter_add map fst].
  - rewrite list_elem_of_singleton. split; [auto|]. intros [H|H]; [exact H|].
    apply elem_of_nil in H. contradiction.
  - destruct (String.eqb_spec k0 label) as [->|Hne]; cbn [map fst].
    + rewrite elem_of_cons. tauto.
    + rewrite !elem_of_cons, IH. tauto.
Qed.

Lemma counter_add_elem (counts : list (string * Z)) (label : string) :
  NoDup (map fst counts) ->
  NoDup (map fst (counter_add counts label)) /\
  forall k n, (k, n) ∈ counter_add counts label <->
              (k <> label /\ (k, n) ∈ counts) \/
              (k = label /\ ((exists m, (label, m) ∈ counts /\ n = m + 1) \/
                             ((label ∉ map fst counts) /\ n = 1))).
Proof.
  induction counts as [|[k0 n0] rest IH]; intros Hnd; cbn [counter_add map fst].
  - split; [apply NoDup_singleton|]. intros k n. rewrite list_elem_of_singleton. split.
    + intros E. inversion E; subst. right. split; [reflexivity|]. right.
      split; [apply not_elem_of_nil | reflexivity].
    + intros [[_ H]|[-> [(m & H & _)|[_ ->]]]].
      * apply elem_of_nil in H. contradiction.
      * apply elem_of_nil in H. contradiction.
      * reflexivity.
  - cbn [map fst] in Hnd. apply NoDup_cons in Hnd as [Hnotin Hnd].
    assert (Hkey : forall x, (k0, x) ∈ rest -> False).
    { intros x Hx. apply Hnotin, list_elem_of_fmap. exists (k0, x). auto. }
    destruct (String.eqb_spec k0 label) as [->|Hne]; cbn [map fst].
    + split; [apply NoDup_cons; auto|]. intros k n. split.
      * intros Hin. apply elem_of_cons in Hin as [E|Hin].
        -- inversion E; subst. right. split; [reflexivity|]. left. exists n0.
           split; [left | reflexivity].
        -- left. split; [|right; exact Hin]. intros ->. eapply Hkey, Hin.
      * intros [[Hk Hin]|[-> H]].
        -- apply elem_of_cons in Hin as [E|Hin]; [inversion E; congruence|].
           right. exact Hin.
        -- destruct H as [(m & Hin & ->)|[Hno _]].
           ++ apply elem_of_cons in Hin as [E|Hin]; [inversion E; subst; left|].
              exfalso. eapply Hkey, Hin.
           ++ exfalso. apply Hno. left.
    + destruct (IH Hnd) as [Hnd' Helem]. split.
      * apply NoDup_cons. split; [|exact Hnd'].
        rewrite counter_add_keys. intros [E|Hin]; [congruence | auto].
      * intros k n. split.
        -- intros Hin. apply elem_of_cons in Hin as [E|Hin].
           ++ inversion E; subst. left. split; [exact Hne | left].
           ++ apply Helem in Hin as [[Hk Hin]|[-> H]].
              ** left. split; [exact Hk | right; exact Hin].
              ** right. split; [reflexivity|]. destruct H as [(m & Hin & ->)|[Hno ->]].
                 --- left. exists m. split; [right; exact Hin | reflexivity].
                 --- right. split; [|reflexivity].
                     rewrite elem_of_cons. intros [E|Hin]; [congruence | auto].
        -- intros [[Hk Hin]|[-> H]].
           ++ apply elem_of_cons in Hin as [E|Hin]; [rewrite E; left|].
              right. apply Helem. left. auto.
           ++ right. apply Helem. right. split; [reflexivity|].
              destruct H as [(m & Hin & ->)|[Hno ->]].
              ** apply elem_of_cons in Hin as [E|Hin]; [inversion E; congruence|].
                 left. eauto.
              ** right. split; [|reflexivity]. intros Hin. apply Hno. right. exact Hin.
Qed.

Lemma tallies_step (counts : list (string * Z)) (labels : list string) (label : string) :
  tallies counts labels -> tallies (counter_add counts label) (labels ++ [label]).
Proof.
  intros [Hnd Hcounts]. destruct (counter_add_elem counts label Hnd) as [Hnd' Helem].
  split; [exact Hnd'|]. intros k n. rewrite Helem.
  assert (Hocc : forall k,
             Z.of_nat (length (filter (fun x => x = k) (labels ++ [label])))
             = Z.of_nat (length (filter (fun x => x = k) labels))
               + (if decide (label = k) then 1 else 0)).
  { intros k'. rewrite filter_app, length_app. cbn [filter]. rewrite filter_cons, filter_nil.
    destruct (decide (label = k')); cbn [length]; lia. }
  rewrite Hocc.
  assert (Hin : label ∈ map fst counts <->
                0 < Z.of_nat (length (filter (fun x => x = label) labels))).
  { split.
    - intros H. apply list_elem_of_fmap in H as ([k' n'] & -> & H). cbn [fst].
      apply Hcounts in H as [-> H]. exact H.
    - intros H. apply list_elem_of_fmap.
      exists (label, Z.of_nat (length (filter (fun x => x = label) labels))).
      split; [reflexivity|]. apply Hcounts. auto. }
  split.
  - intros [[Hk H]|[-> [(m & H & ->)|[Hno ->]]]].
    + apply Hcounts in H as [-> H]. destruct (decide (label = k)); [congruence|]. lia.
    + apply Hcounts in H as [-> H]. destruct (decide (label = label)); [|congruence]. lia.
    + destruct (decide (label = label)); [|congruence].
      assert (~ 0 < Z.of_nat (length (filter (fun x => x = label) labels))) by tauto. lia.
  - intros [-> Hpos]. destruct (decide (label = k)) as [<-|Hne].
    + right. split; [reflexivity|].
      destruct (decide (0 < Z.of_nat (length (filter (fun x => x = label) labels))))
        as [Hp|Hz].
      * left. eexists. split; [apply Hcounts; split; [reflexivity | exact Hp]|]. reflexivity.
      * right. split; [tauto | lia].
    + left. split; [congruence|]. apply Hcounts. split; lia.
Qed.

Lemma tallies_fold (labels : list string) :
  forall counts seen, tallies counts seen ->
                      tallies (fold_left counter_add labels counts) (seen ++ labels).
Proof.
  induction labels as [|l labels IH]; intros counts seen H; cbn [fold_left].
  - rewrite app_nil_r. exact H.
  - replace (seen ++ l :: labels) with ((seen ++ [l]) ++ labels)
      by (rewrite <- app_assoc; reflexivity).
    apply IH, tallies_step, H.
Qed.

Lemma first_max_spec (counts : list (string * Z)) :
  match first_max counts with
  | None => counts = []
  | Some b => b ∈ counts /\ forall kv, kv ∈ counts -> snd kv <= snd b
  end.
Proof.
  unfold first_max.
  assert (H : forall best,
             match fold_left (fun best kv =>
                                match best with
                                | None => Some kv
                                | Some b => if snd b <? snd kv then Some kv else Some b
                                end) counts best with
             | None => best = None /\ counts = []
             | Some b => (Some b = best \/ b ∈ counts) /\
                         (forall kv, kv ∈ counts -> snd kv <= snd b) /\
                         (forall b0, best = Some b0 -> snd b0 <= snd b)
             end).
  { induction counts as [|kv counts IH]; intros best; cbn [fold_left].
    - destruct best as [b|]; [|auto]. split; [auto|]. split.
      + intros kv H. apply elem_of_nil in H. contradiction.
      + intros b0 [= ->]. lia.
    - set (best' := match best with
                    | None => Some kv
                    | Some b => if snd b <? snd kv then Some kv else Some b
                    end).
      specialize (IH best'). destruct (fold_left _ counts best') as [b|].
      + destruct IH as (Hb & Hmax & Hbest).
        assert (Hkv : snd kv <= snd b).
        { subst best'. destruct best as [b0|]; [|apply Hbest; reflexivity].
          destruct (Z.ltb_spec (snd b0) (snd kv)).
          - apply Hbest. reflexivity.
          - specialize (Hbest b0 eq_refl). lia. }
        split; [|split].
        * destruct Hb as [Hb|Hb]; [|right; right; exact Hb].
          subst best'. destruct best as [b0|].
          -- destruct (snd b0 <? snd kv); [|left; exact Hb].
             right. apply elem_of_cons. left. congruence.
          -- right. apply elem_of_cons. left. congruence.
        * intros kv' Hin. apply elem_of_cons in Hin as [->|Hin]; [exact Hkv | auto].
        * intros b0 ->. subst best'. destruct (Z.ltb_spec (snd b0) (snd kv)).
          -- specialize (Hbest kv eq_refl). lia.
          -- apply Hbest. reflexivity.
      + destruct IH as [Hnone _]. subst best'. destruct best as [b0|].
        * destruct (snd b0 <? snd kv); discriminate.
        * discriminate. }
  specialize (H None). destruct (fold_left _ counts None) as [b|].
  - destruct H as ([Hb|Hb] & Hmax & _); [discriminate | auto].
  - apply H.
Qed.

Lemma program_label_range (p : string) :
  program_label p ∈ dex_labels \/ program_label p = "System" \/ program_label p = "Unknown".
Proof.
  unfold program_label, dex_labels.
  repeat (destruct (String.eqb p _); [first [left; set_solver | auto]|]). auto.
Qed.

Lemma occurrences_labels (k : string) (programs : list string) :
  Z.of_nat (length (filter (fun x => x = k) (map program_label programs)))
  = occurrences k programs.
Proof.
  unfold occurrences. f_equal. induction programs as [|p ps IH]; [reflexivity|].
  cbn [map]. rewrite !filter_cons. destruct (decide (program_label p = k)); cbn [length];
    rewrite IH; reflexivity.
Qed.

Lemma occurrences_pos (k : string) (programs : list string) :
  0 < occurrences k programs <-> exists p, p ∈ programs /\ program_label p = k.
Proof.
  unfold occurrences. split.
  - intros H. destruct (filter (fun p => program_label p = k) programs) as [|p l] eqn:E;
      [cbn in H; lia|].
    assert (Hp : p ∈ filter (fun p => program_label p = k) programs) by (rewrite E; left).
    apply list_elem_of_filter in Hp as [Hk Hin]. eauto.
  - intros (p & Hin & Hk).
    assert (Hp : p ∈ filter (fun p => program_label p = k) programs).
    { apply list_elem_of_filter. auto. }
    destruct (filter _ programs); [apply elem_of_nil in Hp; contradiction|]. cbn. lia.
Qed.

Lemma dex_labels_named (l : string) : l ∈ dex_labels -> l <> "System" /\ l <> "Unknown".
Proof.
  unfold dex_labels. intros H.
  repeat (apply elem_of_cons in H as [->|H]; [split; discriminate|]).
  apply elem_of_nil in H. contradiction.
Qed.

(** X19.  The DEX label of an alert.  [label_from_programs] returns a
    DEX or marketplace name of [PROGRAM_MAP], or Unknown; never System.
    It returns Unknown exactly when no program of the list maps to a DEX
    name; otherwise the label it returns is carried by some program of
    the list and no other DEX name is carried by more programs.
    [classify_signal] then names the signal Scalper NFT for Tensor and
    MagicEden, Signal for Unknown and AMM / Aggregator otherwise. *)
Theorem label_is_most_used_dex (programs : list string) :
  let label := label_from_programs programs in
  (label = "Unknown" <-> forall p, p ∈ programs -> program_label p ∉ dex_labels) /\
  (label <> "Unknown" ->
   label ∈ dex_labels /\ 0 < occurrences label programs /\
   forall l, l ∈ dex_labels -> occurrences l programs <= occurrences label programs) /\
  classify_signal label =
    (if bool_decide (label ∈ ["Tensor"; "MagicEden"]) then "Scalper NFT"
     else if bool_decide (label = "Unknown") then "Signal" else "AMM / Aggregator").
Proof.
  cbv zeta.
  assert (Hmain :
    (label_from_programs programs = "Unknown" /\
     forall p, p ∈ programs -> program_label p ∉ dex_labels) \/
    (label_from_programs programs ∈ dex_labels /\
     0 < occurrences (label_from_programs programs) programs /\
     forall l, l ∈ dex_labels ->
               occurrences l programs <= occurrences (label_from_programs programs) programs)).
  { unfold label_from_programs. destruct programs as [|p0 ps] eqn:Eps.
    { left. split; [reflexivity|]. intros p H. apply elem_of_nil in H. contradiction. }
    rewrite <- Eps. clear Eps p0 ps.
    set (labels := map program_label programs).
    pose proof (tallies_fold labels [] []) as Ht. cbn [app] in Ht.
    destruct Ht as [_ Hcounts].
    { split; [constructor|]. intros k n. cbn. split; [|lia].
      intros H. apply elem_of_nil in H. contradiction. }
    set (counts := fold_left counter_add labels []) in *.
    set (named := fun kv : string * Z => String.eqb (fst kv) "System" = false
                                         /\ String.eqb (fst kv) "Unknown" = false).
    assert (Hnamed : forall l, l ∈ dex_labels -> 0 < occurrences l programs ->
                               (l, occurrences l programs) ∈ filter named counts).
    { intros l Hl Hpos. apply list_elem_of_filter. split.
      - destruct (dex_labels_named l Hl) as [H1 H2]. unfold named. cbn [fst].
        split; apply String.eqb_neq; assumption.
      - apply Hcounts. subst labels. rewrite occurrences_labels. auto. }
    pose proof (first_max_spec (filter named counts)) as Hmax.
    destruct (first_max (filter named counts)) as [[k n]|].
    - right. destruct Hmax as [Hin Hmax]. cbn [fst snd] in *.
      apply list_elem_of_filter in Hin as [[Hs Hu] Hin]. cbn [fst] in Hs, Hu.
      apply String.eqb_neq in Hs, Hu.
      apply Hcounts in Hin as [Hn Hpos]. subst labels. rewrite occurrences_labels in Hn.
      subst n.
      assert (Hk : k ∈ dex_labels).
      { apply occurrences_pos in Hpos as (p & _ & <-).
        destruct (program_label_range p) as [H|[H|H]]; [exact H | congruence | congruence]. }
      split; [exact Hk|]. split; [exact Hpos|]. intros l Hl.
      destruct (decide (0 < occurrences l programs)) as [Hlpos|Hz]; [|lia].
      apply (Hmax _ (Hnamed l Hl Hlpos)).
    - left. split; [reflexivity|]. intros p Hp Hdex.
      assert (Hpos : 0 < occurrences (program_label p) programs).
      { apply occurrences_pos. eauto. }
      pose proof (Hnamed _ Hdex Hpos) as Hin. rewrite Hmax in Hin.
      apply elem_of_nil in Hin. contradiction. }
  split; [|split].
  - destruct Hmain as [[-> Hnone]|(Hdex & Hpos & _)]; [tauto|]. split.
    + intros E. rewrite E in Hdex. apply dex_labels_named in Hdex as [_ H]. congruence.
    + intros Hnone. exfalso. apply occurrences_pos in Hpos as (p & Hp & Hl).
      apply (Hnone p Hp). rewrite Hl. exact Hdex.
  - intros Hne. destruct Hmain as [[E _]|H]; [congruence | exact H].
  - destruct Hmain as [[-> _]|(Hdex & _)]; [reflexivity|].
    unfold dex_labels in Hdex.
    repeat (apply elem_of_cons in Hdex as [->|Hdex]; [reflexivity|]).
    apply elem_of_nil in Hdex. contradiction.
Qed.

End alert_engine_proofs.

Module api_routes_proofs.
Import api_auth rate_limiter rate_limiter_facts rate_limiter_proofs api_service api_routes.

(** *** One request *)

Lemma do_GET_limiter (db : database) (rl : RateLimiter) (alerts_queue : list pydict)
    (req : request) :
  let r := do_GET db rl alerts_queue req in
  match limiter_call db req with
  | None => snd r = rl /\ (data_endpoint (r_path req) = true -> status_code (fst r) = 401)
  | Some c =>
      data_endpoint (r_path req) = true /\
      snd r = snd (check_limit rl (c_now c) (c_hash c) (c_tier c)) /\
      status_code (fst r)
      = if fst (fst (fst (check_limit rl (c_now c) (c_hash c) (c_tier c)))) then 200 else 429
  end.
Proof.
  cbv zeta. unfold limiter_call, do_GET, data_endpoint.
  destruct (String.eqb (r_path req) "/healthz"); cbn [negb andb].
  { split; [reflexivity | discriminate]. }
  assert (Hsig : forall q, 
    match _authenticate db (r_now req) (r_key req) with
    | Some (api_key, tier, _) =>
        snd (_handle_signals db rl q (r_now req) (r_key req))
        = snd (check_limit rl (r_now req) (hash_key api_key) tier) /\
        status_code (fst (_handle_signals db rl q (r_now req) (r_key req)))
        = if fst (fst (fst (check_limit rl (r_now req) (hash_key api_key) tier)))
          then 200 else 429
    | None => snd (_handle_signals db rl q (r_now req) (r_key req)) = rl /\
              status_code (fst (_handle_signals db rl q (r_now req) (r_key req))) = 401
    end).
  { intros q. unfold _handle_signals.
    destruct (_authenticate db (r_now req) (r_key req)) as [[[api_key tier] a]|]; [|auto].
    destruct (check_limit rl (r_now req) (hash_key api_key) tier)
      as [[[allowed remaining] limit] rl'].
    destruct allowed; cbn; auto. }
  assert (Hscore :
    match _authenticate db (r_now req) (r_key req) with
    | Some (api_key, tier, _) =>
        snd (_handle_wallet_score db rl (r_path req) (r_now req) (r_key req))
        = snd (check_limit rl (r_now req) (hash_key api_key) tier) /\
        status_code (fst (_handle_wallet_score db rl (r_path req) (r_now req) (r_key req)))
        = if fst (fst (fst (check_limit rl (r_now req) (hash_key api_key) tier)))
          then 200 else 429
    | None => snd (_handle_wallet_score db rl (r_path req) (r_now req) (r_key req)) = rl /\
              status_code (fst (_handle_wallet_score db rl (r_path req) (r_now req)
                                                     (r_key req))) = 401
    end).
  { unfold _handle_wallet_score.
    destruct (_authenticate db (r_now req) (r_key req)) as [[[api_key tier] a]|]; [|auto].
    destruct (check_limit rl (r_now req) (hash_key api_key) tier)
      as [[[allowed remaining] limit] rl'].
    destruct allowed; cbn; auto. }
  specialize (Hsig alerts_queue).
  destruct (String.prefix "/api/v1/signals" (r_path req)); cbn [orb].
  - destruct (_authenticate db (r_now req) (r_key req)) as [[[api_key tier] a]|];
      cbn [c_now c_hash c_tier]; tauto.
  - destruct (String.prefix "/api/v1/wallet/" (r_path req)).
    + destruct (_authenticate db (r_now req) (r_key req)) as [[[api_key tier] a]|];
        cbn [c_now c_hash c_tier]; tauto.
    + split; [reflexivity | discriminate].
Qed.

Lemma authenticate_spec (db : database) (now : Q) (x_api_key : option string) :
  match _authenticate db now x_api_key with
  | Some (api_key, tier, is_active) =>
      x_api_key = Some api_key /\ api_key <> "" /\
      validate_key db now api_key = Some (tier, is_active) /\
      tier = tier_of db (hash_key api_key)
  | None =>
      x_api_key = None \/ x_api_key = Some "" \/
      exists api_key, x_api_key = Some api_key /\ validate_key db now api_key = None
  end.
Proof.
  unfold _authenticate. destruct x_api_key as [[|c s]|]; cbn [truthy_str]; [auto | | auto].
  destruct (validate_key db now (String c s)) as [[tier a]|] eqn:E.
  - split; [reflexivity|]. split; [discriminate|]. split; [exact E|].
    unfold validate_key in E. unfold tier_of.
    destruct (find _ (api_keys db)) as [row|]; [|discriminate].
    destruct (match truthy_time (expires_at row) with
              | Some e => Qltb e now | None => false end); [discriminate|].
    destruct (is_active row =? 0); [discriminate|]. congruence.
  - right. right. eauto.
Qed.

(** X20.  Outcome of a request to a data endpoint
    ([/api/v1/signals...] or [/api/v1/wallet/...]).  The answer is 401,
    429 or 200.  It is 401 exactly when the [x-api-key] header is
    missing or empty or [validate_key] rejects the key, and then the
    rate limiter is left untouched; otherwise it is 429 when the count
    that [check_limit] works with (the key's stored count, or 0 for a
    new key or a counter whose stored reset instant precedes the reset
    time that the host computes) has reached the limit of its tier, and
    the count stays as it is, and 200 when that count is below the
    limit, and the count grows by one.  This holds whatever the time
    zone of the host. *)
Theorem data_request_outcome (db : database) (rl : RateLimiter)
    (alerts_queue : list pydict) (req : request) :
  data_endpoint (r_path req) = true ->
  let r := do_GET db rl alerts_queue req in
  let now := r_now req in
  (status_code (fst r) = 401 /\ snd r = rl /\
   (r_key req = None \/ r_key req = Some "" \/
    exists api_key, r_key req = Some api_key /\ validate_key db now api_key = None)) \/
  (exists api_key tier is_active,
     r_key req = Some api_key /\ api_key <> "" /\
     validate_key db now api_key = Some (tier, is_active) /\
     let h := hash_key api_key in
     let count := current_count rl now h in
     let limit := limits_get (limits rl) tier in
     (status_code (fst r) = 429 /\ limit <= count /\ current_count (snd r) now h = count) \/
     (status_code (fst r) = 200 /\ count < limit /\
      current_count (snd r) now h = count + 1)).
Proof.
  intros Hdata. cbv zeta.
  pose proof (do_GET_limiter db rl alerts_queue req) as H. cbv zeta in H.
  unfold limiter_call in H. rewrite Hdata in H.
  pose proof (authenticate_spec db (r_now req) (r_key req)) as Ha.
  destruct (_authenticate db (r_now req) (r_key req)) as [[[api_key tier] a]|].
  - right. destruct Ha as (Hkey & Hne & Hvalid & _).
    cbn [c_now c_hash c_tier] in H. destruct H as (_ & Hrl & Hstatus).
    exists api_key, tier, a. split; [exact Hkey|]. split; [exact Hne|].
    split; [exact Hvalid|].
    pose proof (count_after_check rl (r_now req) (hash_key api_key) tier) as Hcount.
    rewrite <- Hrl in Hcount. rewrite Hstatus, Hcount.
    rewrite check_limit_eq. cbv zeta. cbn [fst].
    destruct (Z.ltb_spec (current_count rl (r_now req) (hash_key api_key))
                         (limits_get (limits rl) tier)); [right | left]; auto.
  - left. destruct H as [Hrl Hstatus]. auto.
Qed.

Lemma data_request_outcome_witness :
  let req := {| r_now := 2000; r_path := "/api/v1/wallet/W1/score";
                r_key := Some "daas_f" |} in
  let r := do_GET scenario.db scenario.limiter [] req in
  status_code (fst r) = 200 /\
  current_count (snd r) 2000 (hash_key "daas_f") = 1.
Proof.
  intros req r.
  destruct (data_request_outcome scenario.db scenario.limiter [] req eq_refl)
    as [(H401 & _)|(k & tier & a & Hk & _ & Hv & [(H429 & _)|(H200 & _ & Hc)])].
  - vm_compute in H401. discriminate.
  - vm_compute in H429. discriminate.
  - split; [exact H200|]. cbv zeta in Hc. cbn [r_key req] in Hk.
    injection Hk as <-. exact Hc.
Defined.

(** *** A day of requests *)

Lemma day_invariant_later (zone : Z -> Q) (cfg : ApiConfig) (h tr : string) (d : Z)
    (cnt : gmap string (Z * Q)) (T T' : Q) (n : nat) :
  day_invariant zone cfg h tr d cnt T n -> (T <= T')%Q ->
  day_invariant zone cfg h tr d cnt T' n.
Proof.
  intros [HnL Hinv] HT. pose proof (utc_day_mono _ _ HT) as Hday.
  split; [exact HnL|]. destruct (cnt !! h) as [[c lr]|]; [|exact Hinv].
  destruct Hinv as (Hc & Hb & Hd). split; [exact Hc|]. split.
  - intros Hlt. apply Hb. lia.
  - intros E. destruct (Z_lt_le_dec (utc_day T) d) as [Hlt|Hge]; [left; auto|].
    apply Hd. lia.
Qed.

Lemma served_bound (db : database) (zone : Z -> Q) (cfg : ApiConfig) (h : string) (d : Z)
    (reqs : list (request * list pydict)) :
  forall (cnt : gmap string (Z * Q)) (T : Q) (n : nat),
    day_invariant zone cfg h (tier_of db h) d cnt T n ->
    requests_in_order T reqs = true ->
    Z.of_nat (n + served db {| limits := cfg; _counters := cnt; utcoffset := zone |}
                            reqs h d)
    <= Z.max 0 (limits_get cfg (tier_of db h)).
Proof.
  induction reqs as [|[req queue] rest IH]; intros cnt T n Hinv Hclock.
  - cbn [served]. rewrite Nat.add_0_r. apply Hinv.
  - cbn [requests_in_order] in Hclock. apply andb_true_iff in Hclock as [HT Hclock].
    apply Qleb_le in HT. cbn [served].
    set (rl := {| limits := cfg; _counters := cnt; utcoffset := zone |}).
    pose proof (do_GET_limiter db rl queue req) as H.
    cbv zeta in H.
    pose proof (authenticate_spec db (r_now req) (r_key req)) as Ha.
    unfold limiter_call in H.
    destruct (do_GET db rl queue req) as [resp rl'].
    cbn [fst snd] in H.
    destruct (data_endpoint (r_path req)) eqn:Edata.
    + destruct (_authenticate db (r_now req) (r_key req)) as [[[api_key tier] a]|].
      * destruct Ha as (Hkey & _ & _ & Htier).
        cbn [c_now c_hash c_tier] in H. destruct H as (_ & Hrl & Hstatus).
        pose proof (day_invariant_step zone cfg h (tier_of db h) d cnt T n
                      {| c_now := r_now req; c_hash := hash_key api_key; c_tier := tier |}
                      Hinv HT) as Hstep.
        cbn [c_now c_hash c_tier] in Hstep. fold rl in Hstep.
        destruct Hstep as (Hlim & Hzone & Hstep); [intros <-; exact Htier|].
        rewrite <- Hrl in Hlim, Hzone, Hstep. destruct rl' as [lim' cnt' zone'].
        cbn [limits _counters utcoffset] in Hlim, Hzone, Hstep. subst lim' zone'.
        rewrite Nat.add_assoc.
        assert (Esame :
          (if true && (status_code resp =? 200)%Z
                && bool_decide (hash_key <$> r_key req = Some h)
                && (utc_day (r_now req) =? d)%Z then 1 else 0)%nat
          = (if fst (fst (fst (check_limit rl (r_now req) (hash_key api_key) tier)))
                && String.eqb (hash_key api_key) h
                && (utc_day (r_now req) =? d)%Z then 1 else 0)%nat).
        { rewrite Hstatus, Hkey. cbn [fmap option_fmap option_map andb].
          assert (Eh : bool_decide (Some (hash_key api_key) = Some h)
                       = String.eqb (hash_key api_key) h).
          { destruct (String.eqb_spec (hash_key api_key) h) as [->|Hne].
            - apply bool_decide_eq_true. reflexivity.
            - apply bool_decide_eq_false. congruence. }
          rewrite Eh.
          destruct (fst (fst (fst (check_limit _ _ _ _)))); reflexivity. }
        rewrite Esame. apply (IH cnt' (r_now req)); assumption.
      * destruct H as [-> Hstatus]. rewrite (Hstatus eq_refl).
        cbn [andb Z.eqb]. cbn [Nat.add].
        apply (IH cnt (r_now req)); [|exact Hclock].
        eapply day_invariant_later; eauto.
    + destruct H as [-> _]. cbn [andb Nat.add].
      apply (IH cnt (r_now req)); [|exact Hclock].
      eapply day_invariant_later; eauto.
Qed.

(** X21.  The daily quota holds across the API.  On a server started
    with an empty limiter and a clock that never goes back, the requests
    answered 200 by the two data endpoints together for one key during
    any one UTC day number at most the limit of the tier stored for the
    key, whatever other requests (other keys, other paths, refused or
    unauthorised ones) are served in between, whatever the alert queue
    holds and whatever the time zone of the host. *)
Theorem quota_holds_across_endpoints (db : database) (cfg : ApiConfig) (zone : Z -> Q)
    (first : request * list pydict) (rest : list (request * list pydict))
    (h : string) (d : Z) :
  requests_in_order (r_now (fst first)) rest = true ->
  Z.of_nat (served db (__init__ cfg zone) (first :: rest) h d)
  <= Z.max 0 (limits_get cfg (tier_of db h)).
Proof.
  intros Hclock.
  change (__init__ cfg zone) with {| limits := cfg; _counters := ∅; utcoffset := zone |}.
  apply (served_bound db zone cfg h d (first :: rest) ∅ (r_now (fst first)) 0%nat).
  - unfold day_invariant. rewrite lookup_empty. split; [cbn; lia | reflexivity].
  - destruct first as [req queue]. cbn [requests_in_order fst] in *. rewrite Hclock.
    rewrite andb_true_r. apply Qleb_le, Qle_refl.
Qed.

Lemma quota_holds_across_endpoints_witness :
  let cfg := {| rate_limit_free := 1; rate_limit_pro := 5; rate_limit_elite := 9 |} in
  let get := fun t path => ({| r_now := t; r_path := path; r_key := Some "daas_f" |},
                            @nil pydict) in
  let reqs := [get 2001%Q "/api/v1/wallet/W1/score"; get 2002%Q "/healthz";
               get 2003%Q "/api/v1/signals"] in
  Z.of_nat (served scenario.db (__init__ cfg utc_host) (get 2000%Q "/api/v1/signals" :: reqs)
                   (hash_key "daas_f") 0)
  <= Z.max 0 (limits_get cfg (tier_of scenario.db (hash_key "daas_f"))).
Proof.
  intros cfg get reqs.
  apply (quota_holds_across_endpoints scenario.db cfg utc_host
           (get 2000%Q "/api/v1/signals") reqs).
  reflexivity.
Defined.

(** X22.  A deactivated key is locked out of the API.  Once
    [deactivate_key] has returned [True] for a key, every later request
    to a data endpoint presenting that key is answered 401 and leaves
    the rate limiter untouched, whatever calls of [create_key],
    [deactivate_key] and [update_tier] are made in between. *)
Theorem deactivated_key_is_locked_out (db : database) (api_key : string)
    (ops : list key_store.operation) (rl : RateLimiter) (alerts_queue : list pydict)
    (req : request) :
  fst (deactivate_key db api_key) = true ->
  r_key req = Some api_key ->
  data_endpoint (r_path req) = true ->
  let db' := fold_left key_store.apply_operation ops (snd (deactivate_key db api_key)) in
  status_code (fst (do_GET db' rl alerts_queue req)) = 401 /\
  snd (do_GET db' rl alerts_queue req) = rl.
Proof.
  intros Hdone Hkey Hdata db'.
  assert (Hnone : validate_key db' (r_now req) api_key = None).
  { apply key_store_proofs.off_validate, key_store_proofs.off_run,
      key_store_proofs.deactivate_off, Hdone. }
  pose proof (do_GET_limiter db' rl alerts_queue req) as H. cbv zeta in H.
  unfold limiter_call in H. rewrite Hdata in H.
  assert (Hauth : _authenticate db' (r_now req) (r_key req) = None).
  { unfold _authenticate. rewrite Hkey. destruct (truthy_str (Some api_key)) as [k|] eqn:E;
      [|reflexivity].
    assert (k = api_key) as ->.
    { destruct api_key; cbn in E; congruence. }
    rewrite Hnone. reflexivity. }
  rewrite Hauth in H. destruct H as [Hrl Hstatus]. auto.
Qed.

Lemma deactivated_key_is_locked_out_witness :
  let req := {| r_now := 2000; r_path := "/api/v1/signals"; r_key := Some "daas_f" |} in
  let db' := fold_left key_store.apply_operation
               [key_store.UpdateTier "daas_f" "elite";
                key_store.CreateKey 1500 "daas_f" "pro" None]
               (snd (deactivate_key scenario.db "daas_f")) in
  status_code (fst (do_GET scenario.db scenario.limiter [] req)) = 200 /\
  status_code (fst (do_GET db' scenario.limiter [] req)) = 401.
Proof.
  intros req db'. split; [vm_compute; reflexivity|].
  apply (deactivated_key_is_locked_out scenario.db "daas_f"
           [key_store.UpdateTier "daas_f" "elite";
            key_store.CreateKey 1500 "daas_f" "pro" None]
           scenario.limiter [] req); vm_compute; reflexivity.
Defined.

End api_routes_proofs.

Module rpc_calls_proofs.
Import rpc_manager rpc_manager_proofs rpc_calls.

(** *** The manager under its own methods *)

Lemma rotate_shape (m : AsyncRpcManager) :
  well_formed m -> well_formed (_rotate m) /\ endpoints (_rotate m) = endpoints m.
Proof.
  unfold well_formed, _rotate. intros H.
  destruct (Nat.leb_spec (length (endpoints m)) 1); [auto|].
  cbn [index endpoints]. split; [|reflexivity]. apply Nat.mod_upper_bound. lia.
Qed.

Lemma op_shape (cfg : RpcConfig) (m : AsyncRpcManager) (op : rpc_op) :
  well_formed m ->
  well_formed (apply_rpc_op cfg m op) /\ endpoints (apply_rpc_op cfg m op) = endpoints m.
Proof.
  intros H. destruct op as [now e|now e|e|]; cbn [apply_rpc_op].
  - unfold _allow_request. destruct (state (circuit_getitem m e)); [auto | auto|].
    destruct (Qleb _ _); auto.
  - unfold _record_failure. destruct (_ <=? _); [|auto].
    apply (rotate_shape (set_circuit m e _)). exact H.
  - auto.
  - apply rotate_shape, H.
Qed.

Lemma op_other_circuit (cfg : RpcConfig) (m : AsyncRpcManager) (op : rpc_op) (e : string) :
  op_endpoint op <> Some e ->
  circuit_getitem (apply_rpc_op cfg m op) e = circuit_getitem m e.
Proof.
  intros Hne. destruct op as [now e0|now e0|e0|]; cbn [apply_rpc_op op_endpoint] in *.
  - assert (e0 <> e) by congruence. unfold _allow_request.
    destruct (state (circuit_getitem m e0)); cbn [snd]; try apply getitem_set_ne; auto.
    destruct (Qleb _ _); cbn [snd]; apply getitem_set_ne; auto.
  - assert (e0 <> e) by congruence. unfold _record_failure.
    destruct (_ <=? _); rewrite ?getitem_rotate; apply getitem_set_ne; auto.
  - assert (e0 <> e) by congruence. apply getitem_set_ne; auto.
  - apply getitem_rotate.
Qed.

(** X23.  The manager stays usable and its circuits are independent.
    Over any sequence of [_allow_request], [_record_failure],
    [_record_success] and [_rotate] calls, the endpoint list is
    unchanged and the index stays inside it, so [_current_endpoint]
    never raises; and the circuit of an endpoint changes only through
    calls made for that endpoint: failures of one endpoint never open
    or close the circuit of another. *)
Theorem circuits_are_independent (cfg : RpcConfig) (m : AsyncRpcManager)
    (ops : list rpc_op) :
  well_formed m ->
  let m' := fold_left (apply_rpc_op cfg) ops m in
  endpoints m' = endpoints m /\ is_Some (_current_endpoint m') /\
  forall e, Forall (fun op => op_endpoint op <> Some e) ops ->
            circuit_getitem m' e = circuit_getitem m e.
Proof.
  revert m. induction ops as [|op ops IH]; intros m Hwf; cbn [fold_left].
  - split; [reflexivity|]. split; [apply lookup_lt_is_Some_2, Hwf | reflexivity].
  - destruct (op_shape cfg m op Hwf) as [Hwf' Heps].
    destruct (IH _ Hwf') as (Heps' & Hcur & Hiso).
    split; [congruence|]. split; [exact Hcur|].
    intros e Hall. apply Forall_cons in Hall as [Hop Hall].
    rewrite (Hiso e Hall). apply op_other_circuit, Hop.
Qed.

Lemma circuits_are_independent_witness :
  let cfg := {| RPC_CIRCUIT_BREAKER_FAILURES := 2; RPC_CIRCUIT_BREAKER_PAUSE_SEC := 5 |} in
  let ops := [RecordFailure 10 "a"; RecordFailure 11 "a"; AllowRequest 12 "a"; Rotate] in
  let m' := fold_left (apply_rpc_op cfg) ops (__init__ ["a"; "b"]) in
  state (circuit_getitem m' "a") = open /\
  circuit_getitem m' "b" = circuit_getitem (__init__ ["a"; "b"]) "b" /\
  is_Some (_current_endpoint m').
Proof.
  intros cfg ops m'.
  assert (Hwf : well_formed (__init__ ["a"; "b"])) by (unfold well_formed; cbn; lia).
  destruct (circuits_are_independent cfg (__init__ ["a"; "b"]) ops Hwf)
    as (_ & Hcur & Hiso).
  split; [vm_compute; reflexivity|]. split; [|exact Hcur].
  apply Hiso. subst ops. repeat constructor; discriminate.
Defined.

(** *** The retry loop *)

Lemma allow_shape (cfg : RpcConfig) (m : AsyncRpcManager) (now : Q) (e : string) :
  well_formed m -> well_formed (snd (_allow_request cfg m now e)).
Proof. intros H. apply (op_shape cfg m (AllowRequest now e) H). Qed.

Lemma failure_shape (cfg : RpcConfig) (m : AsyncRpcManager) (now : Q) (e : string) :
  well_formed m -> well_formed (_record_failure cfg m now e).
Proof. intros H. apply (op_shape cfg m (RecordFailure now e) H). Qed.

Lemma consistent_cons (env : CallEnv) (r : call_result) (i : nat) (e : string)
    (posts : list (nat * string)) :
  post env i e = Failed -> consistent env r posts ->
  posts <> [] \/ r = Returned None ->
  consistent env r ((i, e) :: posts).
Proof.
  unfold consistent. intros Hfail Hc Hlast. rewrite reverse_cons.
  destruct (reverse posts) as [|[j e'] earlier] eqn:E; cbn [app].
  - split; [constructor|]. rewrite Hfail. destruct Hlast as [Hne|Hr]; [|exact Hr].
    exfalso. apply Hne. apply (f_equal reverse) in E. rewrite reverse_involutive in E.
    exact E.
  - destruct Hc as [Hall Hr]. split; [|exact Hr].
    apply Forall_app. split; [exact Hall|]. repeat constructor. exact Hfail.
Qed.

Ltac split_all :=
  split; [|split; [|split; [|split; [|split; [|split]]]]].

Lemma call_loop_spec (cfg : RpcConfig) (env : CallEnv) (timeout : Q) (retries : nat) :
  forall (attempt : nat) (self : AsyncRpcManager),
    well_formed self ->
    let r := call_loop cfg env timeout retries attempt self in
    (length (snd r) <= retries)%nat /\
    fst (fst r) <> IndexError /\
    well_formed (snd (fst r)) /\
    consistent env (fst (fst r)) (snd r) /\
    (snd r = [] -> fst (fst r) = Returned None) /\
    Forall (fun p => (attempt <= fst p)%nat) (snd r) /\
    (forall data, fst (fst r) = Returned (Some data) ->
       exists i e, last (snd r) = Some (i, e) /\
                   circuit_getitem (snd (fst r)) e
                   = {| failures := 0; opened_at := 0; state := closed |}).
Proof.
  induction retries as [|retries IH]; intros attempt self Hwf; cbv zeta; cbn [call_loop].
  { cbn [fst snd length]. split_all; [lia | discriminate | exact Hwf | reflexivity
                                      | reflexivity | constructor | discriminate]. }
  unfold _current_endpoint.
  destruct (lookup_lt_is_Some_2 _ _ Hwf) as [endpoint ->].
  pose proof (allow_shape cfg self (time_at env attempt) endpoint Hwf) as Hwf1.
  destruct (_allow_request cfg self (time_at env attempt) endpoint) as [allowed self1].
  cbn [snd] in Hwf1. destruct allowed; cbn [negb].
  2: { destruct (IH (S attempt) (_rotate self1) (proj1 (rotate_shape self1 Hwf1)))
         as (Hlen & Hidx & Hwf' & Hc & Hnil & Hatt & Hok).
       split_all; [lia | exact Hidx | exact Hwf' | exact Hc | exact Hnil | | exact Hok].
       eapply Forall_impl; [exact Hatt|]. cbn. intros p Hp. lia. }
  assert (Hone : forall r, r = match post env attempt endpoint with
                               | Answer data => Returned (Some data)
                               | _ => Returned None
                               end ->
                           consistent env r [(attempt, endpoint)]).
  { intros r Hr. unfold consistent. cbn. split; [constructor | exact Hr]. }
  destruct (post env attempt endpoint) as [data| |] eqn:Epost.
  - cbn [fst snd length].
    split_all; [lia | discriminate | exact Hwf1 | apply Hone; reflexivity | discriminate | |].
    + repeat constructor.
    + intros data' _. exists attempt, endpoint. split; [reflexivity|].
      unfold _record_success. apply getitem_set.
  - cbn [fst snd length].
    split_all; [lia | discriminate | apply failure_shape, Hwf1 | apply Hone; reflexivity
                | discriminate | repeat constructor | discriminate].
  - pose proof (failure_shape cfg self1 (time_failed env attempt) endpoint Hwf1) as Hwf2.
    destruct (Qleb timeout (time_after env attempt - start_time env)).
    + cbn [fst snd length].
      split_all; [lia | discriminate | exact Hwf2 | apply Hone; reflexivity
                  | discriminate | repeat constructor | discriminate].
    + destruct (IH (S attempt) _ Hwf2) as (Hlen & Hidx & Hwf' & Hc & Hnil & Hatt & Hok).
      destruct (call_loop cfg env timeout retries (S attempt)
                  (_record_failure cfg self1 (time_failed env attempt) endpoint))
        as [[r m'] posts].
      cbn [fst snd length] in *.
      split_all; [lia | exact Hidx | exact Hwf' | | discriminate | |].
      * apply consistent_cons; [exact Epost | exact Hc|].
        destruct posts; [right; apply Hnil; reflexivity | left; discriminate].
      * constructor; [cbn; lia|]. eapply Forall_impl; [exact Hatt|]. cbn. intros p Hp. lia.
      * intros data Hdata. destruct (Hok data Hdata) as (i & e & Hlast & Hcirc).
        exists i, e. split; [|exact Hcirc].
        destruct posts as [|p posts]; [discriminate|]. exact Hlast.
Qed.

(** X24.  The retry loop of [_call_jsonrpc].  On a manager whose index
    is inside its endpoint list the call never raises [IndexError] and
    makes at most [RPC_MAX_RETRIES] POSTs.  Every POST but the last one
    failed (another status, a timeout or an exception), and the last
    one decides the result: the data of a 200 answer without error, or
    [None]; a JSON-RPC error is not retried.  Without any POST the
    result is [None].  When data is returned, the circuit of the
    endpoint that answered is closed with failure count 0. *)
Theorem call_jsonrpc_retries (cfg : RpcConfig) (RPC_MAX_RETRIES : nat) (env : CallEnv)
    (timeout : Q) (self : AsyncRpcManager) :
  well_formed self ->
  let r := _call_jsonrpc cfg RPC_MAX_RETRIES env timeout self in
  let result := fst (fst r) in
  let posts := snd r in
  result <> IndexError /\
  (length posts <= RPC_MAX_RETRIES)%nat /\
  consistent env result posts /\
  (forall data, result = Returned (Some data) ->
     exists i e, last posts = Some (i, e) /\ post env i e = Answer data /\
                 circuit_getitem (snd (fst r)) e
                 = {| failures := 0; opened_at := 0; state := closed |}) /\
  well_formed (snd (fst r)).
Proof.
  intros Hwf. cbv zeta. unfold _call_jsonrpc.
  destruct (call_loop_spec cfg env timeout RPC_MAX_RETRIES 0 self Hwf)
    as (Hlen & Hidx & Hwf' & Hc & _ & _ & Hok).
  split; [exact Hidx|]. split; [exact Hlen|]. split; [exact Hc|]. split; [|exact Hwf'].
  intros data Hdata. destruct (Hok data Hdata) as (i & e & Hlast & Hcirc).
  exists i, e. split; [exact Hlast|]. split; [|exact Hcirc].
  unfold consistent in Hc. rewrite <- head_reverse in Hlast.
  destruct (reverse (snd (call_loop cfg env timeout RPC_MAX_RETRIES 0 self)))
    as [|[j e'] earlier]; [discriminate|].
  cbn [head] in Hlast. injection Hlast as -> ->. destruct Hc as [_ Hr].
  rewrite Hdata in Hr. destruct (post env i e); congruence.
Qed.

Lemma call_jsonrpc_retries_witness :
  let cfg := {| RPC_CIRCUIT_BREAKER_FAILURES := 3; RPC_CIRCUIT_BREAKER_PAUSE_SEC := 5 |} in
  let env := {| post := fun i _ => match i with
                                   | O => Failed
                                   | _ => Answer (PyDict [("result", PyList [])])
                                   end;
                time_at := fun i => inject_Z (Z.of_nat i);
                time_failed := fun i => inject_Z (Z.of_nat i);
                time_after := fun i => (inject_Z (Z.of_nat i) + 1)%Q;
                start_time := 0 |} in
  let r := _call_jsonrpc cfg 3 env 10 (__init__ ["a"; "b"]) in
  fst (fst r) = Returned (Some (PyDict [("result", PyList [])])) /\
  (length (snd r) <= 3)%nat.
Proof.
  intros cfg env r.
  assert (Hwf : well_formed (__init__ ["a"; "b"])) by (unfold well_formed; cbn; lia).
  destruct (call_jsonrpc_retries cfg 3 env 10 (__init__ ["a"; "b"]) Hwf)
    as (_ & Hlen & _).
  split; [vm_compute; reflexivity | exact Hlen].
Defined.

End rpc_calls_proofs.

Module watchlist_lru_proofs.
Import wallet_monitor watchlist_lru.

Lemma filter_all {A : Type} (P : A -> Prop) `{!forall x, Decision (P x)} (l : list A) :
  (forall x, x ∈ l -> P x) -> filter P l = l.
Proof.
  induction l as [|x l IH]; intros Hall; [reflexivity|].
  rewrite filter_cons_True by (apply Hall; left). f_equal. apply IH.
  intros y Hy. apply Hall. right. exact Hy.
Qed.

Lemma list_remove_filter (x : string) (l : list string) :
  NoDup l -> list_remove x l = filter (fun y => y <> x) l.
Proof.
  induction l as [|y l IH]; intros Hnd; [reflexivity|].
  apply NoDup_cons in Hnd as [Hy Hnd]. cbn [list_remove].
  destruct (String.eqb_spec y x) as [->|Hne].
  - rewrite filter_cons_False by (intros H; apply H; reflexivity).
    symmetry. apply filter_all. intros z Hz ->. contradiction.
  - rewrite filter_cons_True by exact Hne. f_equal. apply IH, Hnd.
Qed.

Lemma pop_oldest (x : string) (l : list string) :
  NoDup l ->
  (if bool_decide (x ∈ l) then list_remove x l else l) = filter (fun y => y <> x) l.
Proof.
  intros Hnd. destruct (bool_decide_reflect (x ∈ l)) as [Hin|Hnot].
  - apply list_remove_filter, Hnd.
  - symmetry. apply filter_all. intros z Hz ->. contradiction.
Qed.

Lemma keys_after_pop (w : string) (t : Q) (rest : list (string * Q)) (l : list string) :
  (forall x, x ∈ l -> x ∈ map fst ((w, t) :: rest)) ->
  forall x, x ∈ filter (fun y => y <> w) l -> x ∈ map fst rest.
Proof.
  intros H x Hx. apply list_elem_of_filter in Hx as [Hne Hin].
  specialize (H x Hin). cbn [map fst] in H. apply elem_of_cons in H as [E|H]; [congruence|].
  exact H.
Qed.

Lemma evict_loop_spec (max : nat) (usage : list (string * Q)) :
  forall l : list string,
    NoDup l -> (forall x, x ∈ l -> x ∈ map fst usage) ->
    let r := evict_loop max usage l in
    exists popped,
      usage = popped ++ fst r /\
      snd r = filter (fun x => x ∉ map fst popped) l /\
      NoDup (snd r) /\ (forall x, x ∈ snd r -> x ∈ map fst (fst r)) /\
      (length (snd r) <= max)%nat /\
      ((length l <= max)%nat -> popped = []).
Proof.
  induction usage as [|[w t] rest IH]; intros l Hnd Hsub; cbv zeta; cbn [evict_loop].
  - exists []. cbn [fst snd map app]. split; [reflexivity|].
    assert (Hl : l = []).
    { destruct l as [|x l]; [reflexivity|]. specialize (Hsub x ltac:(left)).
      apply elem_of_nil in Hsub. contradiction. }
    subst l. cbn.
    split; [reflexivity|]. split; [constructor|]. split; [auto|]. split; [lia | auto].
  - destruct (Nat.ltb_spec max (length l)) as [Hlt|Hle].
    + rewrite (pop_oldest w l Hnd).
      destruct (IH (filter (fun y => y <> w) l) (NoDup_filter _ _ Hnd)
                   (keys_after_pop w t rest l Hsub))
        as (popped & Hu & Hl & Hnd' & Hsub' & Hlen & _).
      exists ((w, t) :: popped). cbn [app map fst]. split; [congruence|].
      split; [|split; [exact Hnd'|split; [exact Hsub'|split; [exact Hlen|lia]]]].
      rewrite Hl, list_filter_filter. apply list_filter_iff. intros x.
      rewrite elem_of_cons. tauto.
    + exists []. cbn [fst snd map app]. split; [reflexivity|].
      split; [symmetry; apply filter_all; intros x _; apply not_elem_of_nil|].
      split; [exact Hnd|]. split; [exact Hsub|]. split; [exact Hle | auto].
Qed.

Lemma evict_loop_keeps_last (max : nat) (wallet : string) (t : Q)
    (older : list (string * Q)) :
  (0 < max)%nat -> wallet ∉ map fst older ->
  forall l : list string,
    NoDup l -> (forall x, x ∈ l -> x ∈ map fst (older ++ [(wallet, t)])) ->
    wallet ∈ l -> wallet ∈ snd (evict_loop max (older ++ [(wallet, t)]) l).
Proof.
  intros Hmax. induction older as [|[w t0] older IH]; intros Hnot l Hnd Hsub Hin;
    cbn [app evict_loop].
  - assert (Hlen : (length l <= 1)%nat).
    { destruct l as [|x [|y l]]; cbn; try lia. exfalso.
      pose proof (Hsub x ltac:(left)) as Hx.
      pose proof (Hsub y ltac:(right; left)) as Hy.
      cbn in Hx, Hy. apply list_elem_of_singleton in Hx, Hy. subst.
      apply NoDup_cons in Hnd as [Hnd _]. apply Hnd. left. }
    destruct (Nat.ltb_spec max (length l)); [lia | exact Hin].
  - cbn [map fst] in Hnot. apply not_elem_of_cons in Hnot as [Hne Hnot].
    destruct (Nat.ltb_spec max (length l)); [|exact Hin].
    rewrite (pop_oldest w l Hnd). apply IH.
    + exact Hnot.
    + apply NoDup_filter, Hnd.
    + apply (keys_after_pop w t0 _ l Hsub).
    + apply list_elem_of_filter. split; [congruence | exact Hin].
Qed.

Lemma register_tracked (w : Watch) (now : Q) (wallet : string) :
  tracked w ->
  tracked (register_watchlist_access w now wallet) /\
  wallet ∈ watchlist (register_watchlist_access w now wallet) /\
  exists older, _watchlist_usage (register_watchlist_access w now wallet)
                = older ++ [(wallet, now)] /\ wallet ∉ map fst older.
Proof.
  intros [Hnd Hsub]. unfold register_watchlist_access, tracked, seen_put.
  cbn [_watchlist_usage watchlist].
  set (older := filter (fun p : string * Q => String.eqb (fst p) wallet = false)
                       (_watchlist_usage w)).
  assert (Hold : wallet ∉ map fst older).
  { intros H. apply list_elem_of_fmap in H as (p & Hp & Hin).
    apply list_elem_of_filter in Hin as [Hne _]. apply String.eqb_neq in Hne. congruence. }
  assert (Hkeys : forall x, x ∈ map fst (_watchlist_usage w) -> x <> wallet ->
                            x ∈ map fst older).
  { intros x H Hne. apply list_elem_of_fmap in H as (p & -> & Hin).
    apply list_elem_of_fmap. exists p. split; [reflexivity|].
    apply list_elem_of_filter. split; [apply String.eqb_neq, Hne | exact Hin]. }
  split; [|split; [|exists older; auto]].
  - destruct (bool_decide_reflect (wallet ∈ watchlist w)) as [Hin|Hnot]; split.
    + exact Hnd.
    + intros x Hx. rewrite map_app. apply elem_of_app.
      destruct (decide (x = wallet)) as [->|Hne]; [right; left | left; auto].
    + apply NoDup_app. split; [exact Hnd|]. split; [|apply NoDup_singleton].
      intros x Hx Hx'. apply list_elem_of_singleton in Hx'. congruence.
    + intros x Hx. rewrite map_app. apply elem_of_app.
      apply elem_of_app in Hx as [Hx|Hx].
      * destruct (decide (x = wallet)) as [->|Hne]; [right; left | left; auto].
      * apply list_elem_of_singleton in Hx. subst x. right. left.
  - destruct (bool_decide_reflect (wallet ∈ watchlist w)) as [Hin|Hnot]; [exact Hin|].
    apply elem_of_app. right. left.
Qed.

(** X25.  The watchlist is a bounded LRU set.  When every watched wallet
    is tracked in the usage dict (as [load_initial_data] and the scans
    leave it), registering an access and evicting keeps it so, leaves
    at most [WATCHLIST_MAX_SIZE] wallets on the watchlist, never evicts
    the wallet just accessed, evicts nothing when the list is within
    its bound, and otherwise drops exactly the watched wallets among
    the least recently used entries popped from the usage dict, the
    others keeping their order. *)
Theorem watchlist_keeps_recent (WATCHLIST_MAX_SIZE : nat) (w : Watch) (now : Q)
    (wallet : string) :
  tracked w -> (0 < WATCHLIST_MAX_SIZE)%nat ->
  let w1 := register_watchlist_access w now wallet in
  let w2 := evict_watchlist_if_needed WATCHLIST_MAX_SIZE w1 in
  tracked w2 /\
  (length (watchlist w2) <= WATCHLIST_MAX_SIZE)%nat /\
  wallet ∈ watchlist w2 /\
  (exists popped,
     _watchlist_usage w1 = popped ++ _watchlist_usage w2 /\
     watchlist w2 = filter (fun x => x ∉ map fst popped) (watchlist w1)) /\
  ((length (watchlist w1) <= WATCHLIST_MAX_SIZE)%nat -> w2 = w1).
Proof.
  intros Htracked Hmax. cbv zeta.
  destruct (register_tracked w now wallet Htracked) as ([Hnd Hsub] & Hin & older & Hu & Hold).
  set (w1 := register_watchlist_access w now wallet) in *.
  pose proof (evict_loop_spec WATCHLIST_MAX_SIZE (_watchlist_usage w1) (watchlist w1) Hnd Hsub)
    as (popped & Hpop & Hl & Hnd' & Hsub' & Hlen & Hmin).
  pose proof (evict_loop_keeps_last WATCHLIST_MAX_SIZE wallet now older Hmax Hold
                (watchlist w1) Hnd) as Hkeep.
  rewrite <- Hu in Hkeep. specialize (Hkeep Hsub Hin).
  unfold evict_watchlist_if_needed.
  destruct (evict_loop WATCHLIST_MAX_SIZE (_watchlist_usage w1) (watchlist w1))
    as [usage' l'].
  cbn [fst snd _watchlist_usage watchlist] in *.
  split; [split; assumption|]. split; [exact Hlen|]. split; [exact Hkeep|].
  split; [exists popped; auto|].
  intros Hfit. specialize (Hmin Hfit). subst popped. cbn [app map] in *.
  rewrite <- Hpop, Hl. rewrite filter_all by (intros x _; apply not_elem_of_nil).
  destruct w1. reflexivity.
Qed.

Lemma watchlist_keeps_recent_witness :
  let w := {| _watchlist_usage := [("A", 1%Q); ("B", 2%Q)]; watchlist := ["A"; "B"] |} in
  let w2 := evict_watchlist_if_needed 2 (register_watchlist_access w 3 "C") in
  watchlist w2 = ["B"; "C"] /\ (length (watchlist w2) <= 2)%nat /\ "C" ∈ watchlist w2.
Proof.
  intros w w2.
  assert (Htracked : tracked w).
  { split; cbn.
    - apply NoDup_cons. split; [|apply NoDup_singleton].
      intros H. apply list_elem_of_singleton in H. discriminate.
    - intros x Hx. exact Hx. }
  destruct (watchlist_keeps_recent 2 w 3 "C" Htracked ltac:(lia)) as (_ & Hlen & Hin & _).
  split; [vm_compute; reflexivity|]. split; assumption.
Defined.

End watchlist_lru_proofs.

Module copy_trader_proofs.
Import copy_trader.

Lemma Qleb_gt (a b : Q) : Qleb a b = false -> (b < a)%Q.
Proof.
  intros E. apply Qnot_le_lt. intros H. apply Qleb_le in H. congruence.
Qed.

Lemma position_size_bounds (available pct : Q) :
  (1 # 10 <= available)%Q ->
  (1 # 10 <= position_size available pct)%Q /\
  (position_size available pct <= available)%Q /\
  (position_size available pct <= Qmax (1 # 10) (available * (5 # 10)))%Q.
Proof.
  intros Ha. unfold position_size, Qmax, Qmin.
  destruct (Qleb (available * (pct / 100)) (available * (5 # 10))) eqn:E1;
    [apply Qleb_le in E1 | apply Qleb_gt in E1];
    match goal with
    | |- context [Qleb ?x (1 # 10)] =>
        destruct (Qleb x (1 # 10)) eqn:E2; [apply Qleb_le in E2 | apply Qleb_gt in E2]
    end;
    destruct (Qleb (1 # 10) (available * (5 # 10))) eqn:E3;
    [apply Qleb_le in E3 | apply Qleb_gt in E3 | apply Qleb_le in E3 | apply Qleb_gt in E3
     | apply Qleb_le in E3 | apply Qleb_gt in E3 | apply Qleb_le in E3 | apply Qleb_gt in E3];
    repeat split; lra.
Qed.

Lemma entry_amount_share (size : Q) :
  (size - size * (SLIPPAGE_PCT / 100) - size * (FEE_PCT / 100) == size * (994 # 1000))%Q.
Proof. unfold SLIPPAGE_PCT, FEE_PCT. field. Qed.

Lemma entry_fee_share (size : Q) : (size * (FEE_PCT / 100) == size * (1 # 1000))%Q.
Proof. unfold FEE_PCT. field. Qed.

Lemma entry_never_too_small (size : Q) :
  (1 # 10 <= size)%Q ->
  Qltb (size - size * (SLIPPAGE_PCT / 100) - size * (FEE_PCT / 100)) (1 # 100) = false.
Proof.
  intros H. apply estimator_proofs.Qltb_ge. rewrite entry_amount_share. lra.
Qed.

Lemma open_position_eq (book : Book) (now : Q) (wallet : string) (alert_profit : Q)
    (alert_signature : string) (entry_price_sol pct : Q) (row : BalanceRow) :
  balance book = Some row ->
  (1 # 10 <= available_sol row)%Q ->
  let size := position_size (available_sol row) pct in
  open_position book now wallet alert_profit alert_signature entry_price_sol pct
  = (Some (Z.of_nat (length (positions book)) + 1),
     {| balance :=
          Some {| total_sol := total_sol row + 0; locked_sol := locked_sol row + size;
                  available_sol := available_sol row - size;
                  total_pnl_sol := total_pnl_sol row + 0;
                  total_trades := total_trades row;
                  winning_trades := winning_trades row;
                  losing_trades := losing_trades row |};
        positions :=
          positions book ++
          [ {| id := Z.of_nat (length (positions book)) + 1; wallet := wallet;
               alert_timestamp := now; alert_profit := alert_profit;
               alert_signature := alert_signature; entry_price_sol := entry_price_sol;
               entry_amount_sol := size - size * (SLIPPAGE_PCT / 100)
                                   - size * (FEE_PCT / 100);
               entry_fee := size * (FEE_PCT / 100); status := "open" |} ] |}).
Proof.
  intros Hrow Ha. cbv zeta. unfold open_position, get_balance. rewrite Hrow.
  apply estimator_proofs.Qltb_ge in Ha as Hlt. rewrite Hlt.
  destruct (position_size_bounds (available_sol row) pct Ha) as (Hmin & _).
  rewrite (entry_never_too_small _ Hmin).
  unfold update_balance. cbn [balance positions]. reflexivity.
Qed.

(** X26.  [open_position] never overdraws.  With the balance row in
    place, the call is refused exactly when less than 0.1 SOL is
    available, and then nothing is written; the second refusal
    (position too small after fees) never happens.  Otherwise a
    position with the next id and status open is appended, committing
    an amount between 0.1 SOL and the larger of 0.1 SOL and half of the
    available balance, whatever the requested percentage; that amount
    moves from available to locked, the available balance stays
    non-negative, the total and the trade counters are unchanged, and
    the position records 99.4 % of the amount as entry and 0.1 % as
    fee. *)
Theorem open_position_never_overdraws (book : Book) (now : Q) (wallet : string)
    (alert_profit : Q) (alert_signature : string) (entry_price_sol pct : Q)
    (row : BalanceRow) :
  balance book = Some row ->
  let r := open_position book now wallet alert_profit alert_signature entry_price_sol pct in
  let available := available_sol row in
  ((available < 1 # 10)%Q -> r = (None, book)) /\
  ((1 # 10 <= available)%Q ->
   exists row' pos,
     fst r = Some (Z.of_nat (length (positions book)) + 1) /\
     balance (snd r) = Some row' /\
     positions (snd r) = positions book ++ [pos] /\
     let size := position_size available pct in
     (1 # 10 <= size)%Q /\ (size <= Qmax (1 # 10) (available * (5 # 10)))%Q /\
     available_sol row' = (available - size)%Q /\
     locked_sol row' = (locked_sol row + size)%Q /\
     (0 <= available_sol row')%Q /\
     (total_sol row' == total_sol row)%Q /\
     (total_pnl_sol row' == total_pnl_sol row)%Q /\
     total_trades row' = total_trades row /\
     id pos = Z.of_nat (length (positions book)) + 1 /\ status pos = "open" /\
     copy_trader.wallet pos = wallet /\ copy_trader.alert_signature pos = alert_signature /\
     (entry_amount_sol pos == size * (994 # 1000))%Q /\
     (entry_fee pos == size * (1 # 1000))%Q).
Proof.
  intros Hrow. cbv zeta. split.
  - intros Hlt. unfold open_position, get_balance. rewrite Hrow.
    apply Qltb_lt in Hlt. rewrite Hlt. reflexivity.
  - intros Ha.
    rewrite (open_position_eq book now wallet alert_profit alert_signature entry_price_sol
               pct row Hrow Ha).
    destruct (position_size_bounds (available_sol row) pct Ha) as (Hmin & Hmax & Hhalf).
    eexists _, _. cbn [fst snd balance positions].
    split; [reflexivity|]. split; [reflexivity|]. split; [reflexivity|].
    cbn [available_sol locked_sol total_sol total_pnl_sol total_trades id status
         copy_trader.wallet copy_trader.alert_signature entry_amount_sol entry_fee].
    repeat match goal with |- _ /\ _ => split end;
      first [reflexivity | assumption | apply entry_amount_share | apply entry_fee_share
             | lra].
Qed.

Lemma open_position_never_overdraws_witness :
  let row := {| total_sol := 10; locked_sol := 0; available_sol := 10; total_pnl_sol := 0;
                total_trades := 0; winning_trades := 0; losing_trades := 0 |} in
  let book := {| balance := Some row; positions := [] |} in
  let r := open_position book 1000 "W1" 3 "S1" 1 15 in
  fst r = Some 1 /\ (available_sol (get_balance (snd r)) == 17 # 2)%Q.
Proof.
  intros row book r.
  destruct (open_position_never_overdraws book 1000 "W1" 3 "S1" 1 15 row eq_refl)
    as [_ H].
  destruct (H ltac:(cbn; lra)) as (row' & pos & Hid & Hrow' & _).
  split; [exact Hid|]. vm_compute. reflexivity.
Defined.

(** *** A run of alerts *)

Lemma on_alert_solvent (book : Book) (a : alert) :
  solvent book ->
  let book' := snd (on_alert book (a_now a) (a_wallet a) (a_profit a) (a_signature a)) in
  solvent book' /\ committed_only book book' /\
  exists added,
    positions book' = positions book ++ added /\
    (length added <= 1)%nat /\ Forall (fun p => status p = "open") added.
Proof.
  intros (row & Hrow & Hav & Hlk). cbv zeta. unfold on_alert.
  set (pct := if Qleb 5 (a_profit a) then 20%Q else if Qleb 2 (a_profit a) then 15%Q
              else 10%Q).
  destruct (Qlt_le_dec (available_sol row) (1 # 10)) as [Hlt|Hge].
  - assert (E : open_position book (a_now a) (a_wallet a) (a_profit a) (a_signature a) 1 pct
                = (None, book)).
    { unfold open_position, get_balance. rewrite Hrow. apply Qltb_lt in Hlt. rewrite Hlt.
      reflexivity. }
    rewrite E. cbn [snd]. split; [exists row; auto|]. split.
    + exists row, row. split; [exact Hrow|]. split; [exact Hrow|].
      split; [apply Qle_refl|]. split; [apply Qle_refl|].
      split; [reflexivity|]. split; [reflexivity|]. auto.
    + exists []. rewrite app_nil_r. split; [reflexivity|]. split; [cbn; lia | constructor].
  - rewrite (open_position_eq book (a_now a) (a_wallet a) (a_profit a) (a_signature a) 1 pct
               row Hrow Hge).
    destruct (position_size_bounds (available_sol row) pct Hge) as (Hmin & Hmax & _).
    cbn [snd positions]. split; [|split].
    + eexists. cbn [balance]. split; [reflexivity|].
      cbn [available_sol locked_sol]. split; lra.
    + exists row. eexists. split; [exact Hrow|]. cbn [balance]. split; [reflexivity|].
      cbn [available_sol locked_sol total_sol total_pnl_sol total_trades winning_trades
           losing_trades].
      split; [lra|]. split; [lra|]. split; [lra|]. split; [lra|]. auto.
    + eexists. split; [reflexivity|]. split; [cbn; lia|]. repeat constructor.
Qed.

Lemma committed_only_trans (a b c : Book) :
  committed_only a b -> committed_only b c -> committed_only a c.
Proof.
  intros (r1 & r2 & H1 & H2 & Ha & Hl & Ht & Hp & Hn & Hw & Hs)
         (r2' & r3 & H2' & H3 & Ha' & Hl' & Ht' & Hp' & Hn' & Hw' & Hs').
  rewrite H2 in H2'. injection H2' as <-.
  exists r1, r3. split; [exact H1|]. split; [exact H3|].
  split; [lra|]. split; [lra|]. split; [lra|]. split; [lra|].
  split; [congruence|]. split; congruence.
Qed.

(** X27.  The copy trader never overdraws over any run of alerts.  If
    the balance row is there with a non-negative available and a
    non-negative locked amount, then after [on_alert] has been called
    for any sequence of alerts both amounts are still non-negative, the
    available amount has not grown and the locked amount has not
    shrunk, and the total, the realised profit and the trade counters
    are as they were.  Each alert opens at most one position, with
    status open, and the positions already recorded are left as they
    were. *)
Theorem on_alerts_never_overdraw (book : Book) (alerts : list alert) :
  solvent book ->
  solvent (on_alerts book alerts) /\
  committed_only book (on_alerts book alerts) /\
  exists added,
    positions (on_alerts book alerts) = positions book ++ added /\
    (length added <= length alerts)%nat /\ Forall (fun p => status p = "open") added.
Proof.
  unfold on_alerts. revert book. induction alerts as [|a alerts IH]; intros book Hsolvent;
    cbn [fold_left].
  - split; [exact Hsolvent|]. split.
    + destruct Hsolvent as (row & Hrow & _). exists row, row.
      split; [exact Hrow|]. split; [exact Hrow|].
      split; [apply Qle_refl|]. split; [apply Qle_refl|].
      split; [reflexivity|]. split; [reflexivity|]. auto.
    + exists []. rewrite app_nil_r. split; [reflexivity|]. split; [cbn; lia | constructor].
  - destruct (on_alert_solvent book a Hsolvent) as (Hs' & Hc1 & added1 & E1 & Hl1 & Ho1).
    cbv zeta in Hs', Hc1, E1.
    destruct (IH _ Hs') as (Hs'' & Hc2 & added2 & E2 & Hl2 & Ho2).
    split; [exact Hs''|]. split; [eapply committed_only_trans; eassumption|].
    exists (added1 ++ added2).
    rewrite E2, E1, app_assoc. split; [reflexivity|].
    split; [rewrite length_app; cbn [length]; lia | apply Forall_app; auto].
Qed.

Lemma on_alerts_never_overdraw_witness :
  let row := {| total_sol := 10; locked_sol := 0; available_sol := 10; total_pnl_sol := 0;
                total_trades := 0; winning_trades := 0; losing_trades := 0 |} in
  let book := {| balance := Some row; positions := [] |} in
  let alerts := [ {| a_now := 1000; a_wallet := "W1"; a_profit := 3; a_signature := "S1" |};
                  {| a_now := 1400; a_wallet := "W2"; a_profit := 6; a_signature := "S2" |} ] in
  solvent (on_alerts book alerts).
Proof.
  intros row book alerts.
  apply (on_alerts_never_overdraw book alerts).
  exists row. split; [reflexivity|]. cbn. split; lra.
Defined.

End copy_trader_proofs.
